(** * mathmusic: a shallow embedding of the generative core

    The development follows [mathmusic/util.py] (the [Biases] sampler and the
    rhythm tables) and [mathmusic/music.py] ([Chord], [Part], [Progression]).

    Conventions of the embedding:
    - Python [int] is [Z]; [%] and [//] with a positive divisor are
      [Z.modulo] and [Z.div].
    - Python [float] is idealised as [Q].  Every duration of the rhythm
      alphabet except the two triplet tokens is a multiple of 1/8, for which
      binary floating point is exact.
    - A [str] is a [list ascii]; a [dict] is an association list in insertion
      order (iteration order matters to the code).
    - A raised exception is the [Raise] constructor of [result]; the
      exceptions are the Python ones the code can raise.
    - [random.random()] reads the next element of a stream [rnd : nat -> Q],
      reduced to its fractional part so that every stream is a legal source
      of draws in [0, 1). *)

From Stdlib Require Import Ascii String.
From Stdlib Require Import ZArith QArith Qround Bool Lia Arith List.
From Stdlib Require Import Permutation Sorted Lqa.
Import ListNotations.

Local Open Scope Z_scope.

(** ** Exceptions and results *)

Inductive exn : Type :=
| KeyError | IndexError | ValueError | TypeError
| ZeroDivisionError | AssertionError | NameError.

Inductive result (A : Type) : Type :=
| Return (a : A)
| Raise (e : exn).

Arguments Return {A} a.
Arguments Raise {A} e.

Definition bind {A B : Type} (m : result A) (f : A -> result B) : result B :=
  match m with
  | Return a => f a
  | Raise e => Raise e
  end.

Notation "x <- m ;; k" := (bind m (fun x => k))
  (at level 61, m at next level, right associativity).

Definition tokens (s : string) : list ascii := list_ascii_of_string s.

(** [l[i]] for a non-negative index. *)
Definition index {A : Type} (l : list A) (i : nat) : result A :=
  match nth_error l i with
  | Some a => Return a
  | None => Raise IndexError
  end.

(** [l[-1]]. *)
Definition index_last {A : Type} (l : list A) : result A :=
  match rev l with
  | a :: _ => Return a
  | [] => Raise IndexError
  end.

(** [l[i]] for any integer index: a negative one counts from the end. *)
Definition index_z {A : Type} (l : list A) (i : Z) : result A :=
  if i <? 0 then
    if i + Z.of_nat (length l) <? 0 then Raise IndexError
    else index l (Z.to_nat (i + Z.of_nat (length l)))
  else index l (Z.to_nat i).

(** A [while] loop is run with fuel: [None] is a loop still running when the
    fuel is spent. *)
Definition bind_fuel {A B : Type} (m : option (result A))
    (f : A -> option (result B)) : option (result B) :=
  match m with
  | None => None
  | Some (Raise e) => Some (Raise e)
  | Some (Return a) => f a
  end.

Notation "x <~ m ;; k" := (bind_fuel m (fun x => k))
  (at level 61, m at next level, right associativity).

(** ** util.py: the rhythm alphabet *)

Module Util.

Local Open Scope char_scope.
Local Open Scope Q_scope.

(** [NOTE_LENS[r]]; a token outside the table raises [KeyError]. *)
Definition NOTE_LENS (r : ascii) : result Q :=
  match r with
  | "w" => Return 4
  | "H" => Return 3
  | "h" => Return 2
  | "Q" => Return (3 # 2)
  | "q" => Return 1
  | "E" => Return (3 # 4)
  | "e" => Return (1 # 2)
  | "s" => Return (1 # 4)
  | "t" => Return (1 # 3)
  | "T" => Return (2 # 3)
  | " " => Return 1
  | "." => Return (1 # 2)
  | "_" => Return 2
  | "," => Return (1 # 4)
  | "-" => Return 4
  | "G" => Return (1 # 8)
  | "g" => Return 0
  | "1" => Return (5 # 4)
  | "2" => Return (7 # 4)
  | "3" => Return (9 # 4)
  | "4" => Return (5 # 2)
  | "5" => Return (11 # 4)
  | "6" => Return (13 # 4)
  | "7" => Return (7 # 2)
  | "8" => Return (15 # 4)
  | _ => Raise KeyError
  end.

(** [r in "_- ,."] (the same five characters in every spelling the code
    uses). *)
Definition is_rest (r : ascii) : bool :=
  match r with
  | "_" | "-" | " " | "," | "." => true
  | _ => false
  end.

(** *** Dynamically typed keys and outcomes

    Conditions and outcomes of a sampler are numbers, strings or tuples. *)

#[warnings="-register-all"]
Inductive value : Type :=
| Num (q : Q)
| Str (s : list ascii)
| Tup (l : list value).

Fixpoint tokens_eqb (s t : list ascii) : bool :=
  match s, t with
  | [], [] => true
  | a :: s', b :: t' => Ascii.eqb a b && tokens_eqb s' t'
  | _, _ => false
  end.

(** Python's [==] on keys: numbers compare by value. *)
Fixpoint value_eqb (a b : value) : bool :=
  match a, b with
  | Num p, Num q => Qeq_bool p q
  | Str s, Str t => tokens_eqb s t
  | Tup l, Tup m =>
      (fix all2 (l m : list value) : bool :=
         match l, m with
         | [], [] => true
         | x :: l', y :: m' => value_eqb x y && all2 l' m'
         | _, _ => false
         end) l m
  | _, _ => false
  end.

(** *** Dictionaries in insertion order *)

Definition dict (V : Type) : Type := list (value * V).

Fixpoint lookup {V : Type} (d : dict V) (k : value) : option V :=
  match d with
  | [] => None
  | (k', v) :: d' => if value_eqb k' k then Some v else lookup d' k
  end.

(** [d[k]]. *)
Definition getitem {V : Type} (d : dict V) (k : value) : result V :=
  match lookup d k with
  | Some v => Return v
  | None => Raise KeyError
  end.

(** [d[k] = v]: an existing key keeps its place, a new key goes last. *)
Fixpoint setitem {V : Type} (d : dict V) (k : value) (v : V) : dict V :=
  match d with
  | [] => [(k, v)]
  | (k', v') :: d' =>
      if value_eqb k' k then (k', v) :: d' else (k', v') :: setitem d' k v
  end.

Definition keys {V : Type} (d : dict V) : list value := map fst d.
Definition values {V : Type} (d : dict V) : list V := map snd d.

(** [sum(xs)]. *)
Definition sum (xs : list Q) : Q := fold_left Qplus xs 0.

(** [a / b]. *)
Definition truediv (a b : Q) : result Q :=
  if Qeq_bool b 0 then Raise ZeroDivisionError else Return (a / b).

(** A comprehension whose body may raise. *)
Fixpoint map_result {A B : Type} (f : A -> result B) (l : list A)
  : result (list B) :=
  match l with
  | [] => Return []
  | a :: l' => b <- f a ;; bs <- map_result f l' ;; Return (b :: bs)
  end.

(** [l[i] = a] for an index in range. *)
Fixpoint list_set {A : Type} (l : list A) (i : nat) (a : A) : list A :=
  match l, i with
  | [], _ => []
  | _ :: l', O => a :: l'
  | x :: l', S i' => x :: list_set l' i' a
  end.

(** *** The random source *)

(** [random.random()] at draw number [n]. *)
Definition random (rnd : nat -> Q) (n : nat) : Q :=
  rnd n - inject_Z (Qfloor (rnd n)).

(** [itertools.accumulate(weights)]. *)
Fixpoint accumulate_from (acc : Q) (weights : list Q) : list Q :=
  match weights with
  | [] => []
  | w :: rest => (acc + w) :: accumulate_from (acc + w) rest
  end.

Definition accumulate (weights : list Q) : list Q :=
  match weights with
  | [] => []
  | w :: rest => w :: accumulate_from w rest
  end.

(** [bisect.bisect(a, x, 0, hi)] on a sorted [a]: the first position below
    [hi] whose element exceeds [x], and [hi] when there is none. *)
Fixpoint bisect (a : list Q) (x : Q) (hi : nat) : nat :=
  match hi, a with
  | S hi', y :: a' => if Qlt_le_dec x y then O else S (bisect a' x hi')
  | _, _ => O
  end.

(** [random.choices(population, weights)[0]], drawing [u = random()]. *)
Definition choices {A : Type} (u : Q) (population : list A) (weights : list Q)
  : result A :=
  let cum_weights := accumulate weights in
  if negb (length cum_weights =? length population)%nat then Raise ValueError
  else
    total <- index_last cum_weights ;;
    if Qle_bool total 0 then Raise ValueError
    else index population
               (bisect cum_weights (u * total) (length population - 1)).

(** ** class Biases *)

Module Biases.

(** An inner dictionary maps an outcome to its weight; a table maps a
    condition to an inner dictionary; [biases] lists the tables by order. *)
Definition row : Type := dict Q.
Definition table : Type := dict row.

Record t : Type := { biases : list table }.

(** [Biases.__init__]: an omitted or empty argument gives one empty table. *)
Definition __init__ (biases : option table) : t :=
  {| biases := [match biases with
                | Some ((_ :: _) as b) => b
                | _ => []
                end] |}.

(** The local [probs]: a plain [dict] at first, a [defaultdict] of zeros once
    the first history element has matched. *)
Record probs_t : Type := { is_default : bool; items : dict Q }.

(** [{k: p/sm for k, p in row.items()}]. *)
Definition normalized (r : row) (sm : Q) : result (dict Q) :=
  map_result (fun kp => q <- truediv (snd kp) sm ;; Return (fst kp, q)) r.

(** [for k in probs: probs[k] *= total / (total + deg)]. *)
Definition scale_all (probs : probs_t) (total deg : Q) : result probs_t :=
  match items probs with
  | [] => Return probs
  | _ :: _ =>
      c <- truediv total (total + deg) ;;
      Return {| is_default := is_default probs;
                items := map (fun kp => (fst kp, snd kp * c)) (items probs) |}
  end.

(** [b * deg / total / sm] for a key [b] of a table. *)
Definition blend_term (b : value) (deg total sm : Q) : result Q :=
  match b with
  | Num x => y <- truediv (x * deg) total ;; truediv y sm
  | _ => Raise TypeError
  end.

(** [probs[k] += rhs]: the subscript is loaded before [rhs] is evaluated. *)
Definition iadd (probs : probs_t) (k : value) (rhs : result Q)
  : result probs_t :=
  match lookup (items probs) k with
  | Some old =>
      v <- rhs ;;
      Return {| is_default := is_default probs;
                items := setitem (items probs) k (old + v) |}
  | None =>
      if is_default probs then
        v <- rhs ;;
        Return {| is_default := true;
                  items := setitem (items probs) k (0 + v) |}
      else Raise KeyError
  end.

(** [for k, b in self.biases: probs[k] += b * deg / total / sm]: each element
    of the list is a table, and unpacking a table iterates its keys. *)
Fixpoint blend (tables : list table) (probs : probs_t) (deg total sm : Q)
  : result probs_t :=
  match tables with
  | [] => Return probs
  | d :: rest =>
      match keys d with
      | [k; b] =>
          probs <- iadd probs k (blend_term b deg total sm) ;;
          blend rest probs deg total sm
      | _ => Raise ValueError
      end
  end.

(** The loop of [Biases.get] over [enumerate(cond[::-1])]. *)
Fixpoint get_loop (self : t) (deg_rate : nat -> Q) (i : nat)
    (rcond : list value) (hist : list value) (probs : probs_t) (total : Q)
  : result probs_t :=
  match rcond with
  | [] => Return probs
  | e :: rest =>
      let hist := e :: hist in
      first <- (if (i =? 0)%nat
                then t0 <- index (biases self) 0 ;; Return (lookup t0 e)
                else Return None) ;;
      match first with
      | Some r =>
          let sm := sum (values r) in
          items <- normalized r sm ;;
          get_loop self deg_rate (S i) rest hist
                   {| is_default := true; items := items |} (deg_rate 0%nat)
      | None =>
          if (length (biases self) <=? i)%nat then Return probs
          else
            ti <- index (biases self) i ;;
            match lookup ti (Tup hist) with
            | Some r =>
                let sm := sum (values r) in
                let deg := deg_rate i in
                probs <- scale_all probs total deg ;;
                let total := total + deg in
                probs <- blend (biases self) probs deg total sm ;;
                get_loop self deg_rate (S i) rest hist probs total
            | None => get_loop self deg_rate (S i) rest hist probs total
            end
      end
  end.

(** The distribution handed to [choices] by [Biases.get]. *)
Definition get_probs (self : t) (deg_rate : nat -> Q) (cond : list value)
  : result (dict Q) :=
  probs <- get_loop self deg_rate 0 (rev cond) []
                    {| is_default := false; items := [] |} 0 ;;
  Return (items probs).

(** [Biases.get] on the history [cond], reading draw number [n]. *)
Definition get (rnd : nat -> Q) (n : nat) (self : t) (deg_rate : nat -> Q)
    (cond : list value) : result (value * nat) :=
  probs <- get_probs self deg_rate cond ;;
  k <- choices (random rnd n) (keys probs) (values probs) ;;
  Return (k, S n).

(** The default [deg_rate]. *)
Definition deg_rate_default (n : nat) : Q := 1.

(** [Biases.add_bias] of [bias] and [weight] under [cond]; the sampler is mutated in place,
    so the sampler after the call is returned next to the result. *)
Definition add_bias (self : t) (bias : value) (weight : Q) (cond : list value)
  : t * result unit :=
  let grown := biases self
               ++ repeat [] (length cond - length (biases self)) in
  let self := {| biases := grown |} in
  let i := if (1 <? length cond)%nat then (length cond - 1)%nat else O in
  match (tbl <- index grown i ;;
         key <- (if (1 <? length cond)%nat then Return (Tup cond)
                 else index cond 0) ;;
         r <- getitem tbl key ;;
         Return (setitem tbl key (setitem r bias weight))) with
  | Return tbl' => ({| biases := list_set grown i tbl' |}, Return tt)
  | Raise e => (self, Raise e)
  end.

(** [Biases.get_bias] of [bias] under [cond]. *)
Definition get_bias (self : t) (bias : value) (cond : list value) : result Q :=
  cnd <- (if (1 <? length cond)%nat then Return (Tup cond)
          else index cond 0) ;;
  tbl <- index (biases self) (length cond - 1) ;;
  match lookup tbl cnd with
  | Some r => match lookup r bias with
              | Some w => Return w
              | None => Return 0
              end
  | None => Return 0
  end.

(** Python's [set] of keys: no two elements equal under [==]. *)
Fixpoint set_mem (k : value) (s : list value) : bool :=
  match s with
  | [] => false
  | k' :: s' => value_eqb k' k || set_mem k s'
  end.

(** [res |= ks]. *)
Definition set_union (res ks : list value) : list value :=
  fold_left (fun acc k => if set_mem k acc then acc else acc ++ [k]) ks res.

(** [Biases.get_conds(max_len)]: [for i in range(max_len): res |=
    self.biases[i].keys()]. *)
Fixpoint get_conds_from (self : t) (i count : nat) (res : list value)
  : result (list value) :=
  match count with
  | O => Return res
  | S c => d <- index (biases self) i ;;
           get_conds_from self (S i) c (set_union res (keys d))
  end.

Definition get_conds (self : t) (max_len : nat) : result (list value) :=
  get_conds_from self 0 max_len [].

(** [Biases.get_biases(max_len)]: the outcomes of every row of the first
    [max_len] tables. *)
Fixpoint get_biases_from (self : t) (i count : nat) (res : list value)
  : result (list value) :=
  match count with
  | O => Return res
  | S c => d <- index (biases self) i ;;
           get_biases_from self (S i) c
             (fold_left (fun acc v => set_union acc (keys v)) (values d) res)
  end.

Definition get_biases (self : t) (max_len : nat) : result (list value) :=
  get_biases_from self 0 max_len [].

End Biases.

(** [REST_LENS]: the rest of each length. *)
Definition REST_LENS : list (Q * list ascii) :=
  [ (4, [ "-" ]); (2, [ "_" ]); (1, [ " " ]); (1 # 2, [ "." ]);
    (1 # 4, [ "," ]) ].

End Util.

(** ** music.py: module-level functions *)

Module Music.

Import Util.

(** [duration(rhythm)]: a left fold from [0]. *)
Fixpoint duration_from (dur : Q) (rhythm : list ascii) : result Q :=
  match rhythm with
  | [] => Return dur
  | r :: rest => len <- NOTE_LENS r ;; duration_from (dur + len)%Q rest
  end.

Definition duration (rhythm : list ascii) : result Q :=
  duration_from 0%Q rhythm.

(** [count_notes(rhythm)]. *)
Definition count_notes (rhythm : list ascii) : nat :=
  list_sum (map (fun r => if is_rest r then 0%nat else 1%nat) rhythm).

(** Python's [sorted(xs, reverse=True)] on numbers. *)
Fixpoint insert_desc (x : Q) (l : list Q) : list Q :=
  match l with
  | [] => [x]
  | y :: l' => if Qle_bool y x then x :: l else y :: insert_desc x l'
  end.

Definition sorted_desc (xs : list Q) : list Q :=
  fold_right insert_desc [] xs.

(** [rests[key]]. *)
Fixpoint rest_of (rests : list (Q * list ascii)) (key : Q)
  : result (list ascii) :=
  match rests with
  | [] => Raise KeyError
  | (k, r) :: rests' => if Qeq_bool k key then Return r else rest_of rests' key
  end.

(** [fill_rests], first loop: [while time + keys[0] <= beats]. *)
Fixpoint fill_longest (fuel : nat) (rests : list (Q * list ascii))
    (key beats : Q) (res : list ascii) (time : Q)
  : option (result (list ascii * Q)) :=
  match fuel with
  | O => None
  | S fuel' =>
      if Qle_bool (time + key) beats then
        r <~ Some (rest_of rests key) ;;
        fill_longest fuel' rests key beats (res ++ r) (time + key)%Q
      else Some (Return (res, time))
  end.

(** Second loop: [for key in keys[1:]]. *)
Fixpoint fill_shorter (rests : list (Q * list ascii)) (keys : list Q)
    (beats : Q) (res : list ascii) (time : Q) : result (list ascii) :=
  match keys with
  | [] => Return res
  | key :: keys' =>
      if Qle_bool (time + key) beats then
        r <- rest_of rests key ;;
        fill_shorter rests keys' beats (res ++ r) (time + key)%Q
      else fill_shorter rests keys' beats res time
  end.

(** [fill_rests(beats, rests)]. *)
Definition fill_rests (fuel : nat) (beats : Q) (rests : list (Q * list ascii))
  : option (result (list ascii)) :=
  let keys := sorted_desc (map fst rests) in
  key0 <~ Some (index keys 0) ;;
  filled <~ fill_longest fuel rests key0 beats [] 0 ;;
  Some (fill_shorter rests (tl keys) beats (fst filled) (snd filled)).

(** The module imports only [log] and [exp] from [math]: the global name
    [ceil] is unbound, and looking it up raises [NameError]. *)
Definition ceil (x : Q) : result Z := Raise NameError.

(** [clip_pitch(pitch, min_pitch, max_pitch)]. *)
Definition clip_pitch (pitch min_pitch max_pitch : Z) : result Z :=
  if pitch <? min_pitch then
    c <- ceil (inject_Z (min_pitch - pitch) / 7)%Q ;; Return (pitch + 7 * c)
  else if pitch >? max_pitch then
    c <- ceil (inject_Z (pitch - max_pitch) / 7)%Q ;; Return (pitch - 7 * c)
  else Return pitch.

(** Python's [set(xs)]: the distinct elements, in some iteration order. *)
Definition set_of (xs : list Z) : list Z := nodup Z.eq_dec xs.

(** Python's [min(xs)]; [ValueError] on an empty collection. *)
Definition py_min (xs : list Z) : result Z :=
  match xs with
  | [] => Raise ValueError
  | x :: rest => Return (fold_left Z.min rest x)
  end.

(** Python's [sorted(xs, key=key)]: a stable sort. *)
Fixpoint insert_by (key : Z -> Z) (x : Z) (l : list Z) : list Z :=
  match l with
  | [] => [x]
  | y :: l' => if key x <=? key y then x :: l else y :: insert_by key x l'
  end.

Definition sorted_by (key : Z -> Z) (xs : list Z) : list Z :=
  fold_right (insert_by key) [] xs.

(** Python's [min(xs, key=key)]: the first element whose key is least. *)
Fixpoint min_by_from (key : Z -> Z) (best : Z) (xs : list Z) : Z :=
  match xs with
  | [] => best
  | x :: rest => min_by_from key (if key x <? key best then x else best) rest
  end.

Definition min_by (key : Z -> Z) (xs : list Z) : result Z :=
  match xs with
  | [] => Raise ValueError
  | x :: rest => Return (min_by_from key x rest)
  end.

(** Python's [xs.index(v)]: the first position of [v]. *)
Fixpoint list_index (xs : list Z) (v : Z) : result nat :=
  match xs with
  | [] => Raise ValueError
  | x :: rest => if x =? v then Return 0%nat
                 else i <- list_index rest v ;; Return (S i)
  end.

(** [all(f(i) for i in range(start, start + count))], stopping early. *)
Fixpoint all_range (f : nat -> result bool) (start count : nat) : result bool :=
  match count with
  | O => Return true
  | S c => b <- f start ;;
           if b then all_range f (S start) c else Return false
  end.

(** ** class Chord *)

Module Chord.

Record t : Type := { pitches : list Z }.

(** [Chord.__init__]. *)
Definition __init__ (pitches : list Z) : result t :=
  let pitches := set_of pitches in
  root <- py_min pitches ;;
  let sorted := sorted_by (fun x => (x - root) mod 7) pitches in
  Return {| Chord.pitches := map (fun p => (p - root) mod 7 + root) sorted |}.

(** [Chord.scale_intervals]. *)
Definition scale_intervals (self : t) : result (list Z) :=
  root <- index (pitches self) 0 ;;
  Return (map (fun p => p - root) (pitches self)).

(** [Chord.nearest].  [abs(mod) > 3.5] on an integer is [7 < 2 * abs(mod)]. *)
Definition nearest (self : t) (pitch : Z) : result Z :=
  p0 <- index (pitches self) 0 ;;
  let mod_out := (pitch - p0) mod 7 in
  ivs <- scale_intervals self ;;
  mod_in <- min_by (fun x => Z.min (Z.abs (x - mod_out))
                                   (7 - Z.abs (x - mod_out))) ivs ;;
  let md := mod_in - mod_out in
  let md := if 7 <? 2 * Z.abs md then md + 7 else md in
  Return (pitch + md).

(** [Chord._next_pitch]. *)
Definition _next_pitch (self : t) (previous change : Z) : result Z :=
  previous <- nearest self previous ;;
  deltas <- scale_intervals self ;;
  p0 <- index (pitches self) 0 ;;
  let prev := (previous - p0) mod 7 in
  prev_ix <- list_index deltas prev ;;
  let n := Z.of_nat (length deltas) in
  let octs := (Z.of_nat prev_ix + change) / n in
  d <- index deltas (Z.to_nat ((Z.of_nat prev_ix + change) mod n)) ;;
  Return (d + previous - prev + 7 * octs).

(** [Chord.__eq__]. *)
Definition __eq__ (self other : t) : result bool :=
  if negb (length (pitches self) =? length (pitches other))%nat then
    Return false
  else
    a0 <- index (pitches self) 0 ;;
    b0 <- index (pitches other) 0 ;;
    if negb (a0 mod 7 =? b0 mod 7) then Return false
    else
      all_range (fun i => a <- index (pitches self) i ;;
                          a0 <- index (pitches self) 0 ;;
                          b <- index (pitches other) i ;;
                          b0 <- index (pitches other) 0 ;;
                          Return (a - a0 =? b - b0))
                1 (length (pitches self) - 1).

(** [Chord.__hash__]; [tuple_hash] is the hash of a tuple of integers. *)
Definition __hash__ (tuple_hash : list Z -> Z) (self : t) : result Z :=
  p0 <- index (pitches self) 0 ;;
  let md := p0 mod 7 - p0 in
  Return (tuple_hash (map (fun p => p + md) (pitches self))).

(** [Chord.get_pitches], first loop: [while res[-1] < max_pitch]. *)
Fixpoint get_pitches_up (fuel : nat) (self : t) (repeat_mode max_pitch : Z)
    (i md : Z) (res : list Z) : option (result (list Z)) :=
  match fuel with
  | O => None
  | S fuel' =>
      last <~ Some (index_last res) ;;
      if last <? max_pitch then
        let i := i + 1 in
        let n := Z.of_nat (length (pitches self)) in
        if (Z.land repeat_mode 3 =? 0) && (i =? n) then Some (Return res)
        else if (Z.land repeat_mode 2 =? 0) && (i >? n) then Some (Return res)
        else
          p0 <~ Some (index (pitches self) 0) ;;
          let md := if i mod n =? 0
                    then (((p0 - 1) mod 7 - (last - 1) mod 7) mod 7 + last) - p0
                    else md in
          p <~ Some (index (pitches self) (Z.to_nat (i mod n))) ;;
          get_pitches_up fuel' self repeat_mode max_pitch i md (res ++ [p + md])
      else Some (Return res)
  end.

(** Second loop, on the reversed list: [res.pop()] while the mode is 3, the
    top is not a root and [res] is longer than the chord. *)
Fixpoint get_pitches_pop (self : t) (repeat_mode p0 : Z) (rres : list Z)
  : result (list Z) :=
  if Z.land repeat_mode 3 =? 3 then
    match rres with
    | [] => Raise IndexError
    | last :: rest =>
        if negb (last mod 7 =? p0 mod 7)
           && (length (pitches self) <? length rres)%nat
        then get_pitches_pop self repeat_mode p0 rest
        else Return rres
    end
  else Return rres.

(** Third loop: [while repeat_mode & 4 and res[0] > min_pitch]. *)
Fixpoint get_pitches_down (fuel : nat) (self : t) (repeat_mode min_pitch : Z)
    (bass p0 i : Z) (res : list Z) : option (result (list Z)) :=
  match fuel with
  | O => None
  | S fuel' =>
      if Z.land repeat_mode 4 =? 0 then Some (Return res)
      else
        first <~ Some (index res 0) ;;
        if first >? min_pitch then
          p <~ Some (index_z (pitches self) i) ;;
          let res := (p + bass - p0 - 7) :: res in
          let i := (i - 1) mod Z.of_nat (length (pitches self)) in
          get_pitches_down fuel' self repeat_mode min_pitch bass p0 i res
        else Some (Return res)
  end.

(** [Chord.get_pitches]. *)
Definition get_pitches (fuel : nat) (self : t)
    (min_pitch max_pitch repeat_mode : Z) : option (result (list Z)) :=
  p0 <~ Some (index (pitches self) 0) ;;
  let bass := ((p0 - 1) mod 7 - (min_pitch - 1) mod 7) mod 7 + min_pitch in
  let md := bass - p0 in
  top <~ Some (index_last (pitches self)) ;;
  let max_pitch :=
    if Z.land repeat_mode 3 =? 0 then Z.min max_pitch (top + md)
    else if Z.land repeat_mode 3 =? 1
         then Z.min max_pitch ((p0 - top) mod 7 + top + md)
         else max_pitch in
  res <~ get_pitches_up fuel self repeat_mode max_pitch 0 md [bass] ;;
  last <~ Some (index_last res) ;;
  let res := if last >? max_pitch then removelast res else res in
  rres <~ Some (get_pitches_pop self repeat_mode p0 (rev res)) ;;
  res <~ get_pitches_down fuel self repeat_mode min_pitch bass p0 (-1)
                          (rev rres) ;;
  first <~ Some (index res 0) ;;
  Some (Return (if first <? min_pitch then tl res else res)).

End Chord.

(** ** The module's sampler tables *)

Definition S_ (s : string) : value := Str (tokens s).
Definition N_ (z : Z) : value := Num (inject_Z z).

Definition RYTH : Biases.t :=
  Biases.__init__ (Some
    [ (N_ 1, [(S_ "q", 4); (S_ " ", 1 # 4)]);
      (N_ 2, [(S_ "q", 27); (S_ "h", 9); (S_ " ", 1 # 4)]);
      (N_ 3, [(S_ "q", 12); (S_ "h", 4); (S_ "H", 6); (S_ " ", 1 # 4)]);
      (N_ 4, [(S_ "q", 12); (S_ "h", 6); (S_ "H", 2); (S_ "w", 1);
              (S_ " ", 1 # 4)]) ]%Q).

Definition BREAKS : Biases.t :=
  Biases.__init__ (Some
    [ (S_ "w", [(S_ "hh", 1); (S_ "Hq", 1)]);
      (S_ "H", [(S_ "hq", 1)]);
      (S_ "h", [(S_ "qq", 4); (S_ "Qe", 1)]);
      (S_ "Q", [(S_ "qe", 1)]);
      (S_ "q", [(S_ "ee", 9); (S_ "Es", 1)]);
      (S_ "E", [(S_ "es", 1)]);
      (S_ "e", [(S_ "ss", 1)]);
      (S_ "s", [(S_ "GG", 1)]);
      (S_ "G", [(S_ "Gg", 1)]);
      (S_ "g", [(S_ "gg", 1)]) ]%Q).

Definition INTERVALS : Biases.t :=
  Biases.__init__ (Some
    [ (N_ 0, [(N_ 0, 1); (N_ 1, 1); (N_ (-1), 1)]);
      (N_ 1, [(N_ 0, 3); (N_ 1, 3); (N_ (-1), 4)]);
      (N_ (-1), [(N_ 0, 3); (N_ 1, 4); (N_ (-1), 3)]) ]%Q).

Definition CHD_LEN : Biases.t :=
  Biases.__init__ (Some
    [ (N_ 0, [(N_ 4, 1)]); (N_ 1, [(N_ 4, 1)]); (N_ 2, [(N_ 4, 1)]);
      (N_ 3, [(N_ 4, 1)]); (N_ 4, [(N_ 4, 1)]) ]%Q).

(** A sampler outcome used as a string. *)
Definition as_str (v : value) : result (list ascii) :=
  match v with
  | Str s => Return s
  | _ => Raise TypeError
  end.

(** A sampler outcome used as a number. *)
Definition as_num (v : value) : result Q :=
  match v with
  | Num q => Return q
  | _ => Raise TypeError
  end.

(** A sampler outcome used as an integer. *)
Definition as_int (v : value) : result Z :=
  match v with
  | Num q => if Qeq_bool q (inject_Z (Qfloor q)) then Return (Qfloor q)
             else Raise TypeError
  | _ => Raise TypeError
  end.

(** Truth value of an object. *)
Definition truthy (v : value) : bool :=
  match v with
  | Num q => negb (Qeq_bool q 0)
  | Str [] => false
  | Tup [] => false
  | _ => true
  end.

(** Python's [round(x)]: to the nearest integer, halves to the even one. *)
Definition py_round (x : Q) : Z :=
  let f := Qfloor x in
  let d := (x - inject_Z f)%Q in
  match (d ?= 1 # 2)%Q with
  | Lt => f
  | Gt => f + 1
  | Eq => if Z.even f then f else f + 1
  end.

(** Python's [a % m] on numbers. *)
Definition py_mod (a m : Q) : result Q :=
  if Qeq_bool m 0 then Raise ZeroDivisionError
  else Return (a - m * inject_Z (Qfloor (a / m)))%Q.

(** [xs.insert(i, x)]. *)
Definition list_insert {A : Type} (xs : list A) (i : nat) (x : A) : list A :=
  firstn i xs ++ x :: skipn i xs.

(** ** class Part *)

Module Part.

Record t (N : Type) : Type := {
  notes : list N;
  rhythms : list ascii;
  chd_lens : list value;
  min_note : Z;
  max_note : Z
}.

Arguments notes {N} _.
Arguments rhythms {N} _.
Arguments chd_lens {N} _.
Arguments min_note {N} _.
Arguments max_note {N} _.

(** [Part.__init__(notes, rhythms, chd_lens)] on a list of pitches; an empty
    argument counts as omitted. *)
Definition __init__ (notes : list Z) (rhythms : list ascii)
    (chd_lens : list value) : result (t Z) :=
  chd_lens <- match chd_lens with
              | _ :: _ => Return chd_lens
              | [] => d <- duration rhythms ;;
                      Return (repeat (N_ 4) (Z.to_nat ((py_round d + 3) / 4)))
              end ;;
  Return {| notes := notes; rhythms := rhythms; chd_lens := chd_lens;
            min_note := match notes with
                        | [] => 0
                        | x :: rest => fold_left Z.min rest x
                        end;
            max_note := match notes with
                        | [] => 0
                        | x :: rest => fold_left Z.max rest x
                        end |}.

(** [Part()]. *)
Definition empty (N : Type) : t N :=
  {| notes := []; rhythms := []; chd_lens := []; min_note := 0; max_note := 0 |}.

(** The invariant of a melodic line: one entry of [notes] per played token. *)
Definition invariant {N : Type} (p : t N) : Prop :=
  count_notes (rhythms p) = length (notes p).

(** *** Part.refine *)

(** The variables of the loop of [refine]; [draws] counts the calls of
    [random()] made so far. *)
Record refine_state : Type := {
  ref_notes : list Z;
  ref_rhythms : list ascii;
  reps : Z;
  steps : Z;
  leaps : Z;
  note_num : nat;
  i : nat;
  draws : nat
}.

(** [ref.rhythms[:i] + breaks.get(r) + ref.rhythms[i+1:]]. *)
Definition break_token (rnd : nat -> Q) (breaks : Biases.t)
    (rhythms : list ascii) (i : nat) (r : ascii) (draws : nat)
  : result (list ascii * nat) :=
  got <- Biases.get rnd draws breaks Biases.deg_rate_default [Str [r]] ;;
  pair <- as_str (fst got) ;;
  Return (firstn i rhythms ++ pair ++ skipn (S i) rhythms, snd got).

(** One turn of the loop on a played token [r], from [n = ref.notes[note_num]]
    to [i += 1]. *)
Definition refine_note (rnd : nat -> Q)
    (pass_func : Z -> Z -> result Q) (aux_func : Z -> result Q)
    (breaks : Biases.t) (st : refine_state) (r : ascii)
  : result refine_state :=
  n <- index (ref_notes st) (note_num st) ;;
  let note_num := S (note_num st) in
  next <- index (ref_notes st) note_num ;;
  if n =? next then
    threshold <- aux_func (reps st) ;;
    if Qlt_le_dec (random rnd (draws st)) threshold then
      let aux := if Qlt_le_dec (1 # 2) (random rnd (S (draws st)))
                 then n + 1 else n - 1 in
      let notes := list_insert (ref_notes st) note_num aux in
      broken <- break_token rnd breaks (ref_rhythms st) (i st) r
                            (S (S (draws st))) ;;
      Return {| ref_notes := notes; ref_rhythms := fst broken;
                reps := 1; steps := steps st; leaps := leaps st;
                note_num := note_num; i := S (i st); draws := snd broken |}
    else
      Return {| ref_notes := ref_notes st; ref_rhythms := ref_rhythms st;
                reps := reps st + 1; steps := steps st; leaps := leaps st;
                note_num := note_num; i := S (i st); draws := S (draws st) |}
  else if Z.abs (n - next) >? 1 then
    threshold <- pass_func (steps st) (leaps st) ;;
    if Qlt_le_dec (random rnd (draws st)) threshold then
      broken <- break_token rnd breaks (ref_rhythms st) (i st) r
                            (S (draws st)) ;;
      let notes := if n >? next
                   then list_insert (ref_notes st) note_num (n - 1)
                   else list_insert (ref_notes st) note_num (n + 1) in
      Return {| ref_notes := notes; ref_rhythms := fst broken;
                reps := 0; steps := steps st + 1; leaps := leaps st;
                note_num := note_num; i := S (i st); draws := snd broken |}
    else
      Return {| ref_notes := ref_notes st; ref_rhythms := ref_rhythms st;
                reps := 0; steps := steps st; leaps := leaps st + 1;
                note_num := note_num; i := S (i st); draws := S (draws st) |}
  else
    Return {| ref_notes := ref_notes st; ref_rhythms := ref_rhythms st;
              reps := 0; steps := steps st + 1; leaps := leaps st;
              note_num := note_num; i := S (i st); draws := draws st |}.

(** [while i < len(ref.rhythms)]. *)
Fixpoint refine_loop (fuel : nat) (rnd : nat -> Q)
    (pass_func : Z -> Z -> result Q) (aux_func : Z -> result Q)
    (breaks : Biases.t) (st : refine_state)
  : option (result refine_state) :=
  match fuel with
  | O => None
  | S fuel' =>
      if (i st <? length (ref_rhythms st))%nat then
        r <~ Some (index (ref_rhythms st) (i st)) ;;
        if (length (ref_notes st) <=? note_num st + 1)%nat then
          Some (Return st)
        else if is_rest r then
          refine_loop fuel' rnd pass_func aux_func breaks
            {| ref_notes := ref_notes st; ref_rhythms := ref_rhythms st;
               reps := reps st; steps := steps st; leaps := leaps st;
               note_num := note_num st; i := S (i st); draws := draws st |}
        else
          st' <~ Some (refine_note rnd pass_func aux_func breaks st r) ;;
          refine_loop fuel' rnd pass_func aux_func breaks st'
      else Some (Return st)
  end.

(** ["qsewh"[" ,.-_".index(r)]] for a rest [r]. *)
Definition rest_to_note (r : ascii) : ascii :=
  match r with
  | " " => "q"
  | "," => "s"
  | "." => "e"
  | "-" => "w"
  | _ => "h"
  end%char.

(** The closing [if end_tonic and (ref.notes[-1]-1) % 7 != 0]. *)
Definition refine_end (rnd : nat -> Q) (end_tonic : bool) (breaks : Biases.t)
    (notes : list Z) (rhythms : list ascii) (draws : nat)
  : result (list Z * list ascii * nat) :=
  if end_tonic then
    final <- index_last notes ;;
    if negb ((final - 1) mod 7 =? 0) then
      let last := (final - 1) mod 7 in
      let nearest := if last <? 4 then final - last else final - last + 7 in
      r <- index_last rhythms ;;
      if is_rest r then
        Return (notes ++ [nearest], removelast rhythms ++ [rest_to_note r],
                draws)
      else
        got <- Biases.get rnd draws breaks Biases.deg_rate_default [Str [r]] ;;
        pair <- as_str (fst got) ;;
        Return (notes ++ [nearest], removelast rhythms ++ pair, snd got)
    else Return (notes, rhythms, draws)
  else Return (notes, rhythms, draws).

(** [Part.refine].  The result is the returned part [ref] together with
    [self] as the call leaves it: [ref] is built on [self.notes] itself when
    that list is not empty, so the insertions show in [self.notes] too,
    while [self.rhythms] stays as it was. *)
Definition refine (fuel : nat) (rnd : nat -> Q)
    (pass_func : Z -> Z -> result Q) (aux_func : Z -> result Q)
    (end_tonic : bool) (breaks : Biases.t) (self : t Z)
  : option (result (t Z * t Z)) :=
  ref <~ Some (__init__ (notes self) (rhythms self) []) ;;
  st <~ refine_loop fuel rnd pass_func aux_func breaks
          {| ref_notes := notes ref; ref_rhythms := rhythms ref;
             reps := 0; steps := 0; leaps := 0;
             note_num := 0; i := 0; draws := 0 |} ;;
  fin <~ Some (refine_end rnd end_tonic breaks (ref_notes st) (ref_rhythms st)
                          (draws st)) ;;
  let '(notes', rhythms', _) := fin in
  Some (Return
    ({| notes := notes'; rhythms := rhythms'; chd_lens := chd_lens ref;
        min_note := min_note ref; max_note := max_note ref |},
     match notes self with
     | [] => self
     | _ :: _ => {| notes := notes'; rhythms := rhythms self;
                    chd_lens := chd_lens self; min_note := min_note self;
                    max_note := max_note self |}
     end)).

(** The default [aux_func], [lambda n: 1 / (6-n)]. *)
Definition aux_func_default (n : Z) : result Q :=
  truediv 1 (inject_Z (6 - n)).

(** *** Part.clip *)

(** [Part.clip]: the part after the call. *)
Definition clip (self : t Z) (min_pitch max_pitch : Z) : result (t Z) :=
  if max_pitch >=? min_pitch + 7 then
    notes' <- map_result (fun p => clip_pitch p min_pitch max_pitch)
                         (notes self) ;;
    Return {| notes := notes'; rhythms := rhythms self;
              chd_lens := chd_lens self; min_note := min_note self;
              max_note := max_note self |}
  else Raise AssertionError.

(** *** Part.measures *)

(** [Part.measures] is a generator: the model gives the measures it yields,
    in order, and how the iteration ends ([Return tt] when the rhythm string
    is exhausted, [Raise e] when the body raises after the last yield
    listed). *)
Fixpoint measures_loop {N : Type} (notes : list N) (meter : Z)
    (rhythms : list ascii) (m_notes : list N) (m_ryth : list ascii) (ni : nat)
  : list (list N * list ascii) * result unit :=
  match rhythms with
  | [] => ([], Return tt)
  | r :: rest =>
      match (if is_rest r then Return (m_notes, ni)
             else n <- index notes ni ;; Return (m_notes ++ [n], S ni)) with
      | Raise e => ([], Raise e)
      | Return (m_notes, ni) =>
          let m_ryth := m_ryth ++ [r] in
          match duration m_ryth with
          | Raise e => ([], Raise e)
          | Return d =>
              if Qle_bool (inject_Z meter) d then
                let (more, fin) := measures_loop notes meter rest [] [] ni in
                ((m_notes, m_ryth) :: more, fin)
              else measures_loop notes meter rest m_notes m_ryth ni
          end
      end
  end.

Definition measures {N : Type} (self : t N) (meter : Z)
  : list (list N * list ascii) * result unit :=
  measures_loop (notes self) meter (rhythms self) [] [] 0.

(** *** The other methods *)

(** [Part.extend(part)]: [self] after the call.  The new [max_note] is the
    [min] of the two, as the code has it. *)
Definition extend {N : Type} (self part : t N) : t N :=
  {| notes := notes self ++ notes part;
     rhythms := rhythms self ++ rhythms part;
     chd_lens := chd_lens self;
     min_note := Z.min (min_note self) (min_note part);
     max_note := Z.min (max_note self) (max_note part) |}.

(** [Part.get_notes] is a generator of pairs of a length and a pitch,
    [None] standing for the empty tuple of a rest; the model gives the pairs
    it yields and how the iteration ends. *)
Fixpoint get_notes_loop {N : Type} (notes : list N) (rhythms : list ascii)
    (n : nat) : list (Q * option N) * result unit :=
  match rhythms with
  | [] => ([], Return tt)
  | r :: rest =>
      match (len <- NOTE_LENS r ;;
             if is_rest r then Return (len, None, n)
             else p <- index notes n ;; Return (len, Some p, S n)) with
      | Raise e => ([], Raise e)
      | Return (len, p, n') =>
          let (more, fin) := get_notes_loop notes rest n' in
          ((len, p) :: more, fin)
      end
  end.

Definition get_notes {N : Type} (self : t N)
  : list (Q * option N) * result unit :=
  get_notes_loop (notes self) (rhythms self) 0.

(** [Part.copy]. *)
Definition copy (self : t Z) : result (t Z) :=
  __init__ (notes self) (rhythms self) [].

(** [Part.transpose(interval)]: [self] after the call. *)
Definition transpose (self : t Z) (interval : Z) : t Z :=
  {| notes := map (fun n => n + interval) (notes self);
     rhythms := rhythms self; chd_lens := chd_lens self;
     min_note := min_note self; max_note := max_note self |}.

End Part.

(** ** class Progression *)

Module Progression.

Record t : Type := { chords : list Chord.t }.

(** The [rhythm] argument: one string, or a sequence of strings. *)
Inductive rhythm_arg : Type :=
| One (rhythm : list ascii)
| Several (rhythms : list (list ascii)).

(** [Progression.chord_background], the body of [for chd in self.chords]
    folded over the chords; the state is [part], [reps] and [i]. *)
Fixpoint chord_background_loop (fuel : nat) (ryths : list (list ascii))
    (min_pitch max_pitch repeat_mode : Z) (chds : list Chord.t)
    (part : Part.t (list Z)) (reps : list nat) (i : nat)
  : option (result (Part.t (list Z))) :=
  match chds with
  | [] => Some (Return part)
  | chd :: rest =>
      reps <~ Some (if (length reps <=? i)%nat
                    then ry <- index ryths i ;;
                         Return (reps ++ [count_notes ry])
                    else Return reps) ;;
      ry <~ Some (index ryths i) ;;
      let rhythms := Part.rhythms part ++ ry in
      voicing <~ Chord.get_pitches fuel chd min_pitch max_pitch repeat_mode ;;
      k <~ Some (index reps i) ;;
      let part := {| Part.notes := Part.notes part ++ repeat voicing k;
                     Part.rhythms := rhythms;
                     Part.chd_lens := Part.chd_lens part;
                     Part.min_note := Part.min_note part;
                     Part.max_note := Part.max_note part |} in
      let i := (S i mod length ryths)%nat in
      chord_background_loop fuel ryths min_pitch max_pitch repeat_mode rest
                            part reps i
  end.

Definition chord_background (fuel : nat) (self : t) (rhythm : rhythm_arg)
    (min_pitch max_pitch repeat_mode : Z)
  : option (result (Part.t (list Z))) :=
  let ryths := match rhythm with
               | One r => [r]
               | Several rs => rs
               end in
  chord_background_loop fuel ryths min_pitch max_pitch repeat_mode
                        (chords self) (Part.empty (list Z)) [] 0.

(** [Progression.get_voice]: the body of [for chd in self.chords]. *)
Fixpoint get_voice_loop (fuel : nat) (voice : Z) (ryths : list (list ascii))
    (tacet : list ascii) (min_pitch max_pitch repeat_mode : Z)
    (chds : list Chord.t) (part : Part.t Z) (reps : list nat) (i : nat)
  : option (result (Part.t Z)) :=
  match chds with
  | [] => Some (Return part)
  | chd :: rest =>
      reps <~ Some (if (length reps <=? i)%nat
                    then ry <- index ryths i ;;
                         Return (reps ++ [count_notes ry])
                    else Return reps) ;;
      pitches <~ Chord.get_pitches fuel chd min_pitch max_pitch repeat_mode ;;
      part <~ Some
        (if voice <? Z.of_nat (length pitches) then
           ry <- index ryths i ;;
           p <- index_z pitches voice ;;
           k <- index reps i ;;
           Return {| Part.notes := Part.notes part ++ repeat p k;
                     Part.rhythms := Part.rhythms part ++ ry;
                     Part.chd_lens := Part.chd_lens part;
                     Part.min_note := Part.min_note part;
                     Part.max_note := Part.max_note part |}
         else
           Return {| Part.notes := Part.notes part;
                     Part.rhythms := Part.rhythms part ++ tacet;
                     Part.chd_lens := Part.chd_lens part;
                     Part.min_note := Part.min_note part;
                     Part.max_note := Part.max_note part |}) ;;
      let i := (S i mod length ryths)%nat in
      get_voice_loop fuel voice ryths tacet min_pitch max_pitch repeat_mode
                     rest part reps i
  end.

Definition get_voice (fuel : nat) (self : t) (voice : Z) (rhythm : rhythm_arg)
    (min_pitch max_pitch repeat_mode : Z) : option (result (Part.t Z)) :=
  let ryths := match rhythm with
               | One r => [r]
               | Several rs => rs
               end in
  ry0 <~ Some (index ryths 0) ;;
  d <~ Some (duration ry0) ;;
  tacet <~ fill_rests fuel d REST_LENS ;;
  get_voice_loop fuel voice ryths tacet min_pitch max_pitch repeat_mode
                 (chords self) (Part.empty Z) [] 0.

(** Python's [==] on lists of keys. *)
Fixpoint values_eqb (l m : list value) : bool :=
  match l, m with
  | [], [] => true
  | x :: l', y :: m' => value_eqb x y && values_eqb l' m'
  | _, _ => false
  end.

(** [res[-n:]]. *)
Definition last_n {A : Type} (res : list A) (n : nat) : list A :=
  match n with
  | O => res
  | S _ => skipn (length res - n) res
  end.

(** [Progression.from_biases], the loop [while True]; the chords are the
    keys of the sampler, whatever they are, and the result is the list
    handed to [Progression]. *)
Fixpoint from_biases_loop (fuel : nat) (rnd : nat -> Q) (biases : Biases.t)
    (min_len : Z) (force_end : list value) (deg_rate : nat -> Q)
    (res : list value) (draws : nat) : option (result (list value)) :=
  match fuel with
  | O => None
  | S fuel' =>
      got <~ Some (Biases.get rnd draws biases deg_rate res) ;;
      let res := res ++ [fst got] in
      if values_eqb (last_n res (length force_end)) force_end
         && (Z.of_nat (length res) >=? min_len)
      then Some (Return res)
      else from_biases_loop fuel' rnd biases min_len force_end deg_rate
                            res (snd got)
  end.

Definition from_biases (fuel : nat) (rnd : nat -> Q) (biases : Biases.t)
    (first : list value) (min_len : Z) (force_end : list value)
    (deg_rate : nat -> Q) : option (result (list value)) :=
  from_biases_loop fuel rnd biases min_len force_end deg_rate first 0.

(** The unary operators of [-+next_interval] and [+next_interval]. *)
Definition pos (x : Z) : Z := x.
Definition neg (x : Z) : Z := - x.

(** The pitch [skeleton] appends for a played token, from [note =
    chd._next_pitch(pre, next_interval)] to the end of the range test. *)
Definition skeleton_note (chd : Chord.t) (pre next_interval : Z)
    (min_pitch max_pitch : Z) : result Z :=
  note <- Chord._next_pitch chd pre next_interval ;;
  if note >? max_pitch then Chord._next_pitch chd pre (neg (pos next_interval))
  else if note <? min_pitch then Chord._next_pitch chd pre (pos next_interval)
  else Return note.

(** The variables of [skeleton] that its loops update. *)
Record skeleton_state : Type := {
  sk_notes : list Z;
  sk_ryth : list ascii;
  sk_pre : Z;
  sk_chd_lens : list value;
  sk_draws : nat
}.

(** [while rem:] for one chord. *)
Fixpoint skeleton_chord (fuel : nat) (rnd : nat -> Q) (chd : Chord.t)
    (ryths interval : Biases.t) (min_pitch max_pitch : Z)
    (intervals : list value) (rem : value) (st : skeleton_state)
  : option (result skeleton_state) :=
  match fuel with
  | O => None
  | S fuel' =>
      if truthy rem then
        got <~ Some (Biases.get rnd (sk_draws st) ryths
                                Biases.deg_rate_default [rem]) ;;
        drawn <~ Some (as_str (fst got)) ;;
        let ryth := sk_ryth st ++ drawn in
        r <~ Some (index_last ryth) ;;
        st <~ Some
          (if negb (is_rest r) then
             got' <- Biases.get rnd (snd got) interval
                                Biases.deg_rate_default intervals ;;
             next_interval <- as_int (fst got') ;;
             note <- skeleton_note chd (sk_pre st) next_interval
                                   min_pitch max_pitch ;;
             Return {| sk_notes := sk_notes st ++ [note]; sk_ryth := ryth;
                       sk_pre := note; sk_chd_lens := sk_chd_lens st;
                       sk_draws := snd got' |}
           else
             Return {| sk_notes := sk_notes st; sk_ryth := ryth;
                       sk_pre := sk_pre st; sk_chd_lens := sk_chd_lens st;
                       sk_draws := snd got |}) ;;
        len <~ Some (NOTE_LENS r) ;;
        q <~ Some (as_num rem) ;;
        skeleton_chord fuel' rnd chd ryths interval min_pitch max_pitch
                       intervals (Num (q - len)) st
      else Some (Return st)
  end.

(** [for chd in self.chords]. *)
Fixpoint skeleton_loop (fuel : nat) (rnd : nat -> Q) (meter : Z)
    (chd_len ryths interval : Biases.t) (min_pitch max_pitch : Z)
    (intervals : list value) (chds : list Chord.t) (st : skeleton_state)
  : option (result skeleton_state) :=
  match chds with
  | [] => Some (Return st)
  | chd :: rest =>
      d <~ Some (duration (sk_ryth st)) ;;
      beat <~ Some (py_mod d (inject_Z meter)) ;;
      got <~ Some (Biases.get rnd (sk_draws st) chd_len
                              Biases.deg_rate_default [Num beat]) ;;
      let rem := fst got in
      let st := {| sk_notes := sk_notes st; sk_ryth := sk_ryth st;
                   sk_pre := sk_pre st;
                   sk_chd_lens := sk_chd_lens st ++ [rem];
                   sk_draws := snd got |} in
      st <~ skeleton_chord fuel rnd chd ryths interval min_pitch max_pitch
                           intervals rem st ;;
      skeleton_loop fuel rnd meter chd_len ryths interval min_pitch max_pitch
                    intervals rest st
  end.

(** [Progression.skeleton]. *)
Definition skeleton (fuel : nat) (rnd : nat -> Q) (self : t) (meter : Z)
    (chd_len ryths : Biases.t) (min_pitch max_pitch : Z)
    (interval : Biases.t) : option (result (Part.t Z)) :=
  let pre := min_pitch + (7 - ((min_pitch - 1) mod 7)) mod 7 in
  let intervals := [N_ 0] in
  st <~ skeleton_loop fuel rnd meter chd_len ryths interval
          min_pitch max_pitch intervals (chords self)
          {| sk_notes := []; sk_ryth := []; sk_pre := pre;
             sk_chd_lens := []; sk_draws := 0 |} ;;
  Some (Part.__init__ (sk_notes st) (sk_ryth st) (sk_chd_lens st)).

End Progression.

End Music.

(** ** io.py: class Score *)

Module Io.

(** A score over parts of type [P] and instruments of type [I]. *)
Record Score (P I : Type) : Type := {
  parts : list P;
  instruments : list I;
  dynamics : list Z
}.

Arguments parts {P I} _.
Arguments instruments {P I} _.
Arguments dynamics {P I} _.

(** [[62] * n] for an integer [n]: empty when [n] is negative. *)
Definition repeat_z (x : Z) (n : Z) : list Z := repeat x (Z.to_nat n).

(** [Score.__init__(parts, instruments, dynamics)]. *)
Definition __init__ {P I : Type} (parts : list P) (instruments : list I)
    (dynamics : option (list Z)) : Score P I :=
  let n := Z.of_nat (length parts) in
  let dyn := match dynamics with
             | None => [80; 70] ++ repeat_z 62 (n - 3) ++ [75]
             | Some d => d ++ repeat_z 62 (n - Z.of_nat (length d))
             end in
  {| parts := parts; instruments := instruments;
     dynamics := firstn (length parts) dyn |}.

(** [Score.add_part(part, instrument, dynamics)]: the score after the
    call. *)
Definition add_part {P I : Type} (self : Score P I) (part : P)
    (instrument : I) (dyn : Z) : Score P I :=
  {| parts := parts self ++ [part];
     instruments := instruments self ++ [instrument];
     dynamics := dynamics self ++ [dyn] |}.

End Io.





(** * Vocabulary of the statements *)

Import Util Music.

(** A sampler whose order-1 table is keyed by tuples, as [add_bias] and the
    lookup of [get] key it. *)
Definition tuple_keyed (self : Biases.t) : Prop :=
  forall t1, nth_error (Biases.biases self) 1 = Some t1 ->
             Forall (fun k => exists l, k = Tup l) (keys t1).

(** The order-0 row of the most recent history element, normalized: the
    distribution [get] would use if no deeper order were consulted. *)
Definition order0_probs (self : Biases.t) (cond : list value)
  : result (dict Q) :=
  match rev cond with
  | [] => Return []
  | e :: _ =>
      t0 <- index (Biases.biases self) 0 ;;
      match lookup t0 e with
      | Some r => Biases.normalized r (sum (values r))
      | None => Return []
      end
  end.

(** A sampler with the order-0 row [1: {"A": 1}] and the order-1 row
    [(1, 1): {"B": 1}]. *)
Definition two_orders : Biases.t :=
  {| Biases.biases := [ [(N_ 1, [(S_ "A", 1%Q)])];
                        [(Tup [N_ 1; N_ 1], [(S_ "B", 1%Q)])] ] |}.

(** Circular scale distance between two pitches, measured modulo 7. *)
Definition circ_dist (a b : Z) : Z := Z.min ((a - b) mod 7) ((b - a) mod 7).

(** The normal form [Chord.__init__] establishes: the first pitch is the
    root and every pitch lies in the octave band that starts there. *)
Definition normal (c : Chord.t) : Prop :=
  exists root rest,
    Chord.pitches c = root :: rest
    /\ Forall (fun p => root <= p < root + 7) (Chord.pitches c)
    /\ StronglySorted Z.le (Chord.pitches c).

(** A rhythm lasts [d]: its duration is defined and equal to [d]. *)
Definition lasts (ry : list ascii) (d : Q) : Prop :=
  exists d', duration ry = Return d' /\ (d' == d)%Q.

(** Two played tokens [a], [b] that together last as long as [r]. *)
Definition good_pair (r a b : ascii) : Prop :=
  is_rest a = false /\ is_rest b = false
  /\ exists dr da db,
       NOTE_LENS r = Return dr /\ NOTE_LENS a = Return da
       /\ NOTE_LENS b = Return db /\ (da + db == dr)%Q.

(** The contract of the [breaks] argument of [refine]: every outcome
    recorded for a token is a pair of played tokens of the same total
    duration. *)
Definition break_table_ok (breaks : Biases.t) : Prop :=
  forall t0 r row v,
    index (Biases.biases breaks) 0 = Return t0 ->
    lookup t0 (Str [r]) = Some row -> In v (keys row) ->
    exists a b, v = Str [a; b] /\ good_pair r a b.

(** The contract of the [ryths] argument of [skeleton]: every outcome is a
    single token. *)
Definition rhythm_table_ok (ryths : Biases.t) : Prop :=
  forall t0 e row v,
    index (Biases.biases ryths) 0 = Return t0 ->
    lookup t0 e = Some row -> In v (keys row) ->
    exists a, v = Str [a].

(** The two ways [refine] changes a line: a played token is split in two
    and a pitch is inserted; or a final rest becomes the note of the same
    length and a pitch is appended. *)
Inductive refine_step : list Z * list ascii -> list Z * list ascii -> Prop :=
| step_split (notes : list Z) (pre post : list ascii) (r a b : ascii)
    (k : nat) (x : Z) :
    is_rest r = false -> good_pair r a b ->
    refine_step (notes, pre ++ r :: post)
                (list_insert notes k x, pre ++ a :: b :: post)
| step_wake (notes : list Z) (pre : list ascii) (r : ascii) (x : Z) :
    is_rest r = true ->
    refine_step (notes, pre ++ [r])
                (notes ++ [x], pre ++ [Part.rest_to_note r]).

(** Any number of such changes. *)
Inductive refine_steps : list Z * list ascii -> list Z * list ascii -> Prop :=
| steps_refl (l : list Z * list ascii) : refine_steps l l
| steps_then (l l' l'' : list Z * list ascii) :
    refine_steps l l' -> refine_step l' l'' -> refine_steps l l''.

(** The tokens [BREAKS] has a row for. *)
Definition break_domain : list ascii := tokens "wHhQqEesGg".

(** A token [refine] can handle: a rest, or a token [BREAKS] can split. *)
Definition breakable (r : ascii) : Prop :=
  is_rest r = true \/ In r break_domain.

(** How many tones [refine] may still insert between two consecutive
    pitches: one auxiliary tone in a repeat, a passing tone for every scale
    degree strictly inside a leap. *)
Definition gap (a b : Z) : nat :=
  if a =? b then 1%nat else Z.to_nat (Z.abs (a - b) - 1).

Fixpoint gaps (l : list Z) : nat :=
  match l with
  | a :: t => match t with
              | b :: _ => (gap a b + gaps t)%nat
              | [] => 0%nat
              end
  | [] => 0%nat
  end.

(** The work left to the loop of [refine]: tokens not yet visited, and
    tones that may still be inserted ahead. *)
Definition work (st : Part.refine_state) : nat :=
  (length (Part.ref_rhythms st) - Part.i st
   + gaps (skipn (Part.note_num st) (Part.ref_notes st)))%nat.

(** [aux_func] does not raise on the repeat counts the loop can reach: a
    count is reached from 0 or 1 by increments that happen only when the
    threshold is below 1. *)
Definition aux_func_ok (aux_func : Z -> result Q) : Prop :=
  exists reach : Z -> Prop,
    reach 0 /\ reach 1
    /\ forall n, reach n ->
                 exists q, aux_func n = Return q
                           /\ ((q < 1)%Q -> reach (n + 1)).

(** [pass_func] does not raise. *)
Definition pass_func_ok (pass_func : Z -> Z -> result Q) : Prop :=
  forall s l, exists q, pass_func s l = Return q.

(** A stream of draws and a line used to run the generators. *)
Definition draws_37 (n : nat) : Q := inject_Z (Z.of_nat n) * (37 # 100).

Definition line_1151 : Part.t Z :=
  {| Part.notes := [1; 1; 5; 1]; Part.rhythms := tokens "qqhw";
     Part.chd_lens := [N_ 4; N_ 4]; Part.min_note := 1; Part.max_note := 5 |}.

Definition progression_I_IV_V : Progression.t :=
  {| Progression.chords := [ {| Chord.pitches := [1; 3; 5] |};
                             {| Chord.pitches := [4; 6; 8] |};
                             {| Chord.pitches := [5; 7; 9] |} ] |}.

(** The line [skeleton] returns on that progression with those draws. *)
Definition skeleton_line : Part.t Z :=
  {| Part.notes := [-2; 1; 1; 1; 2; 2]; Part.rhythms := tokens "qqhwqH";
     Part.chd_lens := [N_ 4; N_ 4; N_ 4];
     Part.min_note := -2; Part.max_note := 2 |}.

(** A rhythm that is pending, not yet a whole measure of [meter] beats. *)
Definition short (meter : Z) (ry : list ascii) : Prop :=
  ry = [] \/ exists d, duration ry = Return d /\ (d < inject_Z meter)%Q.

(** A rhythm that makes a whole measure. *)
Definition whole (meter : Z) (ry : list ascii) : Prop :=
  exists d, duration ry = Return d /\ (inject_Z meter <= d)%Q.

(** In [chord_background], [reps] caches the note counts of the patterns
    used so far. *)
Definition cached (ryths : list (list ascii)) (reps : list nat) (i : nat)
  : Prop :=
  (i <= length reps)%nat
  /\ forall j k, nth_error reps j = Some k ->
                 exists ry, nth_error ryths j = Some ry /\ k = count_notes ry.

(** In [skeleton], as many played tokens as pitches so far. *)
Definition counted (st : Progression.skeleton_state) : Prop :=
  count_notes (Progression.sk_ryth st) = length (Progression.sk_notes st).

(** The tuple that [Chord.__hash__] hashes: the pitches moved so that the
    root is its own class modulo 7. *)
Definition hashed_tuple (c : Chord.t) : list Z :=
  match Chord.pitches c with
  | [] => []
  | p0 :: _ => map (fun p => p + (p0 mod 7 - p0)) (Chord.pitches c)
  end.

(** The pitches among the pairs that [Part.get_notes] yields, in order. *)
Definition pitches_played {N : Type} (ys : list (Q * option N)) : list N :=
  flat_map (fun y => match snd y with Some p => [p] | None => [] end) ys.

(** Which of the yielded pairs stand for a rest. *)
Definition silent {N : Type} (y : Q * option N) : bool :=
  match snd y with None => true | Some _ => false end.

(** A condition of one of the tables [i .. i + count - 1] of a sampler. *)
Definition cond_in (self : Biases.t) (i count : nat) (k : value) : Prop :=
  exists j d, (i <= j < i + count)%nat
              /\ index (Biases.biases self) j = Return d /\ In k (keys d).

(** An outcome of a row of one of the tables [i .. i + count - 1]. *)
Definition bias_in (self : Biases.t) (i count : nat) (k : value) : Prop :=
  exists j d r, (i <= j < i + count)%nat
                /\ index (Biases.biases self) j = Return d
                /\ In r (values d) /\ In k (keys r).

(** The test that ends the loop of [from_biases]. *)
Definition stops (min_len : Z) (force_end res : list value) : bool :=
  Progression.values_eqb (Progression.last_n res (length force_end)) force_end
  && (Z.of_nat (length res) >=? min_len).

(** A rhythm sampler with an outcome of two tokens, a progression of one
    chord, and the line [skeleton] returns on them when every draw is 0. *)
Definition ryths_hh : Biases.t :=
  Biases.__init__ (Some [(N_ 4, [(S_ "hh", 1%Q)]); (N_ 2, [(S_ "h", 1%Q)])]).

Definition progression_I : Progression.t :=
  {| Progression.chords := [ {| Chord.pitches := [1; 3; 5] |} ] |}.

Definition line_hhh : Part.t Z :=
  {| Part.notes := [1; 1]; Part.rhythms := tokens "hhh";
     Part.chd_lens := [N_ 4]; Part.min_note := 1; Part.max_note := 1 |}.



(** [tuple(cond) if len(cond) > 1 else cond[0]], for a condition that is
    not empty: the key that [get_bias] looks up, the element itself when
    there is one, the tuple when there are several. *)
Definition cond_key (cond : list value) : value :=
  match cond with
  | [x] => x
  | _ => Tup cond
  end.

(** * Properties *)

(** ** Results and lists *)

Lemma index_cons_0 {A : Type} (a : A) (l : list A) :
  index (a :: l) 0 = Return a.
Proof. reflexivity. Qed.

Lemma index_last_snoc {A : Type} (l : list A) (a : A) :
  index_last (l ++ [a]) = Return a.
Proof. unfold index_last. now rewrite rev_app_distr. Qed.

Lemma index_last_In {A : Type} (l : list A) (a : A) :
  index_last l = Return a -> exists l', l = l' ++ [a].
Proof.
  unfold index_last. intros H.
  destruct (rev l) as [|b r] eqn:E; [discriminate|].
  injection H as ->. exists (rev r).
  rewrite <- (rev_involutive l), E. reflexivity.
Qed.

(** ** Chord construction (C8) *)

Section ChordInit.

Lemma set_of_nonempty (x : Z) (xs : list Z) : set_of (x :: xs) <> [].
Proof.
  unfold set_of. intros H.
  assert (In x (nodup Z.eq_dec (x :: xs))) as Hin
    by (apply nodup_In; now left).
  rewrite H in Hin. destruct Hin.
Qed.

Lemma init_returns (ps : list Z) :
  ps <> [] -> exists c, Chord.__init__ ps = Return c.
Proof.
  intros Hps. destruct ps as [|x xs]; [contradiction|].
  unfold Chord.__init__.
  destruct (set_of (x :: xs)) as [|y ys] eqn:E.
  - now apply set_of_nonempty in E.
  - cbn [py_min bind]. eexists. reflexivity.
Qed.

(** C8: [Chord.__init__] raises (the [ValueError] of [min] on an empty
    set) when the pitch collection is empty, and returns a chord for every
    non-empty collection. *)
Theorem C8_chord_init_fails_iff_empty (ps : list Z) :
  match ps with
  | [] => Chord.__init__ ps = Raise ValueError
  | _ :: _ => exists c, Chord.__init__ ps = Return c
  end.
Proof.
  destruct ps as [|x xs]; [reflexivity|].
  unfold Chord.__init__.
  destruct (set_of (x :: xs)) as [|y ys] eqn:E.
  - now apply set_of_nonempty in E.
  - cbn [py_min bind]. eexists. reflexivity.
Qed.

End ChordInit.

(** ** Part.clip (C9) *)

Section Clip.

Variables min_pitch max_pitch : Z.

Lemma clip_pitch_in_range (p : Z) :
  min_pitch <= p <= max_pitch -> clip_pitch p min_pitch max_pitch = Return p.
Proof.
  intros [Hlo Hhi]. unfold clip_pitch.
  destruct (Z.ltb_spec p min_pitch); [lia|].
  destruct (Z.gtb_spec p max_pitch); [lia|reflexivity].
Qed.

Lemma clip_pitch_out_of_range (p : Z) :
  p < min_pitch \/ max_pitch < p ->
  clip_pitch p min_pitch max_pitch = Raise NameError.
Proof.
  intros H. unfold clip_pitch, ceil.
  destruct (Z.ltb_spec p min_pitch); [reflexivity|].
  destruct (Z.gtb_spec p max_pitch); [reflexivity|lia].
Qed.

Lemma clip_narrow_range (self : Part.t Z) :
  max_pitch - min_pitch < 7 ->
  Part.clip self min_pitch max_pitch = Raise AssertionError.
Proof.
  intros H. unfold Part.clip.
  destruct (Z.geb_spec max_pitch (min_pitch + 7)); [lia|reflexivity].
Qed.

Lemma clip_notes_in_range (notes : list Z) :
  Forall (fun p => min_pitch <= p <= max_pitch) notes ->
  map_result (fun p => clip_pitch p min_pitch max_pitch) notes = Return notes.
Proof.
  induction 1 as [|p l Hp _ IH]; [reflexivity|].
  cbn. rewrite (clip_pitch_in_range p Hp). cbn. now rewrite IH.
Qed.

Lemma clip_notes_out_of_range (notes : list Z) :
  Exists (fun p => p < min_pitch \/ max_pitch < p) notes ->
  map_result (fun p => clip_pitch p min_pitch max_pitch) notes
  = Raise NameError.
Proof.
  induction notes as [|p l IH]; intros H; [inversion H|].
  cbn. destruct (Z.ltb_spec p min_pitch) as [Hlt|Hge].
  - now rewrite clip_pitch_out_of_range by lia.
  - destruct (Z.ltb_spec max_pitch p) as [Hgt|Hle].
    + now rewrite clip_pitch_out_of_range by lia.
    + rewrite clip_pitch_in_range by lia. cbn.
      rewrite IH; [reflexivity|].
      inversion H; subst; [lia|assumption].
Qed.

(** On a range of at least an octave, [clip] succeeds exactly on the parts
    that are in range already, which it leaves as they are; it folds
    nothing. *)
Lemma clip_wide_range (self : Part.t Z) :
  7 <= max_pitch - min_pitch ->
  (Forall (fun p => min_pitch <= p <= max_pitch) (Part.notes self) ->
   exists p', Part.clip self min_pitch max_pitch = Return p'
              /\ Part.notes p' = Part.notes self) /\
  (Exists (fun p => p < min_pitch \/ max_pitch < p) (Part.notes self) ->
   Part.clip self min_pitch max_pitch = Raise NameError).
Proof.
  intros H. unfold Part.clip.
  destruct (Z.geb_spec max_pitch (min_pitch + 7)); [|lia].
  split; intros Hn.
  - rewrite clip_notes_in_range by assumption. cbn. eexists. split; reflexivity.
  - now rewrite clip_notes_out_of_range.
Qed.

End Clip.

(** C9: on the line [Part([0], "q")], [clip(1, 11)] has a range of more than
    an octave and a pitch one step below it; the call raises [NameError]
    instead of folding the pitch up to 7. *)
Theorem C9_clip_out_of_range_raises :
  (p <- Part.__init__ [0] (tokens "q") [] ;; Part.clip p 1 11)
  = Raise NameError.
Proof. reflexivity. Qed.

(** ** The sampler (C1, C2) *)

Section Sampler.

Lemma tokens_eqb_refl (s : list ascii) : tokens_eqb s s = true.
Proof.
  induction s as [|a s IH]; [reflexivity|].
  cbn. now rewrite Ascii.eqb_refl, IH.
Qed.

Lemma value_eqb_refl : forall v : value, value_eqb v v = true.
Proof.
  fix IH 1. intros [q|s|l]; cbn.
  - apply Qeq_bool_iff. reflexivity.
  - apply tokens_eqb_refl.
  - induction l as [|x l IHl]; [reflexivity|].
    now rewrite (IH x), IHl.
Qed.

(** C2: on a sampler constructed with no recorded biases,
    [add_bias(A, w, X)] raises [KeyError]: the row of [X] is looked up in the
    order-0 table before anything is stored, and the table is empty. *)
Theorem C2_add_bias_on_fresh_sampler_raises (A : value) (w : Q) (X : value) :
  Biases.add_bias (Biases.__init__ None) A w [X]
  = (Biases.__init__ None, Raise KeyError).
Proof. reflexivity. Qed.

(** The sibling [get_bias] does treat a missing row as weight 0. *)
Lemma get_bias_on_fresh_sampler (A X : value) :
  Biases.get_bias (Biases.__init__ None) A [X] = Return 0%Q.
Proof. reflexivity. Qed.

(** [add_bias] stores a weight once the row exists. *)
Lemma add_bias_existing_row (A B X : value) (w w' : Q) :
  value_eqb A B = false ->
  Biases.add_bias (Biases.__init__ (Some [(X, [(A, w)])])) B w' [X]
  = (Biases.__init__ (Some [(X, [(A, w); (B, w')])]), Return tt).
Proof.
  intros H. unfold Biases.add_bias, Biases.__init__. cbn.
  unfold getitem. cbn. rewrite (value_eqb_refl X). cbn.
  rewrite H. reflexivity.
Qed.

(** *** What [get] returns *)

Lemma iadd_raise (probs : Biases.probs_t) (k : value) (e : exn) :
  exists e', Biases.iadd probs k (Raise e) = Raise e'.
Proof.
  unfold Biases.iadd.
  destruct (lookup (Biases.items probs) k); [now exists e|].
  destruct (Biases.is_default probs); [now exists e|now exists KeyError].
Qed.

Lemma blend_plain_empty (d : Biases.table) (tables : list Biases.table)
    (deg total sm : Q) :
  exists e, Biases.blend (d :: tables)
              {| Biases.is_default := false; Biases.items := [] |}
              deg total sm = Raise e.
Proof.
  cbn. destruct (keys d) as [|k [|b [|c l]]]; try (now exists ValueError).
  cbn. now exists KeyError.
Qed.

Lemma blend_tuple_keys (t1 : Biases.table) (rest : list Biases.table)
    (probs : Biases.probs_t) (deg total sm : Q) :
  Forall (fun k => exists l, k = Tup l) (keys t1) ->
  exists e, Biases.blend (t1 :: rest) probs deg total sm = Raise e.
Proof.
  intros Ht. cbn.
  destruct (keys t1) as [|k [|b [|c l]]]; try (now exists ValueError).
  inversion Ht as [|? ? _ Hb]; subst. inversion Hb as [|? ? [lb ->] _]; subst.
  cbn [Biases.blend_term].
  destruct (iadd_raise probs k TypeError) as [e ->]. now exists e.
Qed.

Lemma blend_second_tuple (t0 t1 : Biases.table) (rest : list Biases.table)
    (probs : Biases.probs_t) (deg total sm : Q) :
  Forall (fun k => exists l, k = Tup l) (keys t1) ->
  exists e, Biases.blend (t0 :: t1 :: rest) probs deg total sm = Raise e.
Proof.
  intros Ht. cbn [Biases.blend].
  destruct (keys t0) as [|k [|b [|c l]]]; try (now exists ValueError).
  destruct (Biases.iadd probs k (Biases.blend_term b deg total sm))
    as [probs'|e]; [|now exists e].
  cbn [bind]. apply blend_tuple_keys. assumption.
Qed.

(** Beyond the first history element the loop either leaves [probs] alone
    or raises. *)
Lemma get_loop_deeper (self : Biases.t) (deg_rate : nat -> Q) :
  tuple_keyed self ->
  forall rcond i hist probs total probs',
    (1 <= i)%nat ->
    Biases.get_loop self deg_rate i rcond hist probs total = Return probs' ->
    probs' = probs.
Proof.
  intros Hk. induction rcond as [|e rest IH]; intros i hist probs total probs' Hi H.
  - cbn in H. congruence.
  - cbn [Biases.get_loop] in H.
    destruct (Nat.eqb_spec i 0) as [->|_]; [lia|].
    cbn [bind] in H.
    destruct (Nat.leb_spec (length (Biases.biases self)) i) as [_|Hlen];
      [congruence|].
    unfold index in H.
    destruct (nth_error (Biases.biases self) i) as [ti|] eqn:Ei;
      [|discriminate].
    cbn [bind] in H.
    destruct (lookup ti (Tup (e :: hist))) as [r|].
    + exfalso.
      destruct (Biases.scale_all probs total (deg_rate i)) as [p1|];
        [|discriminate].
      cbn [bind] in H.
      destruct (Biases.biases self) as [|t0 [|t1 rest']] eqn:Eb.
      * cbn in Hlen. lia.
      * cbn in Hlen. lia.
      * destruct (blend_second_tuple t0 t1 rest' p1 (deg_rate i)
                    (total + deg_rate i)%Q (sum (values r)))
          as [ex Hex].
        { apply Hk. rewrite Eb. reflexivity. }
        rewrite Hex in H. discriminate.
    + eapply IH; [|exact H]. lia.
Qed.

(** Whenever [get] reaches [choices], the distribution is the order-0 row
    alone: no deeper row has contributed. *)
Lemma get_probs_order0_only (self : Biases.t) (deg_rate : nat -> Q)
    (cond : list value) (d : dict Q) :
  tuple_keyed self ->
  Biases.get_probs self deg_rate cond = Return d ->
  order0_probs self cond = Return d.
Proof.
  intros Hk. unfold Biases.get_probs, order0_probs.
  destruct (rev cond) as [|e rest].
  - cbn. intros H. exact H.
  - cbn [Biases.get_loop Nat.eqb].
    destruct (Biases.biases self) as [|t0 tables] eqn:Eb;
      [cbn; discriminate|].
    cbn [index nth_error bind length Nat.leb].
    destruct (lookup t0 e) as [r|] eqn:El.
    + destruct (Biases.normalized r (sum (values r))) as [its|];
        [|discriminate].
      cbn [bind].
      destruct (Biases.get_loop self deg_rate 1 rest [e] _ _) as [p|] eqn:Eg;
        [|discriminate].
      apply (get_loop_deeper self deg_rate Hk) in Eg; [|lia].
      subst p. cbn. intros H. exact H.
    + destruct (lookup t0 (Tup [e])) as [r|].
      * cbn [Biases.scale_all Biases.items bind].
        destruct (blend_plain_empty t0 tables (deg_rate 0%nat)
                    (0 + deg_rate 0%nat)%Q (sum (values r))) as [ex ->].
        discriminate.
      * destruct (Biases.get_loop self deg_rate 1 rest [e] _ _) as [p|] eqn:Eg;
          [|discriminate].
        apply (get_loop_deeper self deg_rate Hk) in Eg; [|lia].
        subst p. cbn. intros H. exact H.
Qed.

Lemma index_In {A : Type} (l : list A) (i : nat) (a : A) :
  index l i = Return a -> In a l.
Proof.
  unfold index. destruct (nth_error l i) eqn:E; [|discriminate].
  intros [= ->]. eapply nth_error_In; eassumption.
Qed.

Lemma choices_In {A : Type} (u : Q) (population : list A) (weights : list Q)
    (a : A) :
  choices u population weights = Return a -> In a population.
Proof.
  unfold choices.
  destruct (negb _); [discriminate|].
  destruct (index_last (accumulate weights)); [|discriminate].
  cbn [bind]. destruct (Qle_bool _ _); [discriminate|].
  apply index_In.
Qed.

Lemma normalized_keys (r : Biases.row) (sm : Q) (d : dict Q) :
  Biases.normalized r sm = Return d -> keys d = keys r.
Proof.
  unfold Biases.normalized. revert d.
  induction r as [|[k p] r IH]; intros d H; cbn in H.
  - now injection H as <-.
  - destruct (truediv p sm); [|discriminate]. cbn [bind] in H.
    destruct (map_result _ r) as [d'|]; [|discriminate].
    cbn in H. injection H as <-. cbn. f_equal. now apply IH.
Qed.

(** On a one-element history, a returned outcome is a key of the row of
    that element in the order-0 table, and one draw has been made. *)
Lemma get_single (rnd : nat -> Q) (n : nat) (self : Biases.t)
    (deg_rate : nat -> Q) (e v : value) (n' : nat) :
  Biases.get rnd n self deg_rate [e] = Return (v, n') ->
  exists t0 r, index (Biases.biases self) 0 = Return t0
               /\ lookup t0 e = Some r /\ In v (keys r) /\ n' = S n.
Proof.
  unfold Biases.get, Biases.get_probs. cbn [rev app Biases.get_loop Nat.eqb].
  destruct (Biases.biases self) as [|t0 tables] eqn:Eb; [cbn; discriminate|].
  cbn [index nth_error bind length Nat.leb].
  destruct (lookup t0 e) as [r|] eqn:El.
  - destruct (Biases.normalized r (sum (values r))) as [its|] eqn:En;
      [|discriminate].
    cbn [bind Biases.items].
    destruct (choices _ (keys its) (values its)) as [k|] eqn:Ec;
      [|discriminate].
    cbn [bind]. intros [= -> <-].
    exists t0, r. apply choices_In in Ec.
    rewrite (normalized_keys _ _ _ En) in Ec. auto.
  - destruct (lookup t0 (Tup [e])) as [r|].
    + cbn [Biases.scale_all Biases.items bind].
      destruct (blend_plain_empty t0 tables (deg_rate 0%nat)
                  (0 + deg_rate 0%nat)%Q (sum (values r))) as [ex ->].
      discriminate.
    + cbn. discriminate.
Qed.

(** C1: with an order-0 row and an order-1 row that both match the history
    [(1, 1)], [get] raises [ValueError] whatever the draw: the blending loop
    unpacks the order-0 table, which has one key, into two names.  The
    outcome ["B"] of the deeper row is never returned. *)
Theorem C1_get_raises_on_deeper_match (rnd : nat -> Q) (n : nat) :
  Biases.get rnd n two_orders Biases.deg_rate_default [N_ 1; N_ 1]
  = Raise ValueError.
Proof. reflexivity. Qed.

Lemma two_orders_tuple_keyed : tuple_keyed two_orders.
Proof.
  intros t1 [= <-]. repeat constructor. now eexists.
Qed.

(** Once its row exists, a single-outcome row is drawn with certainty. *)
Lemma get_single_outcome_row (rnd : nat -> Q) (n : nat) (A X : value) (w : Q)
    (deg_rate : nat -> Q) :
  (0 < w)%Q ->
  Biases.get rnd n (Biases.__init__ (Some [(X, [(A, w)])])) deg_rate [X]
  = Return (A, S n).
Proof.
  intros Hw. unfold Biases.get, Biases.get_probs.
  cbn [rev app Biases.get_loop Nat.eqb Biases.__init__ Biases.biases index
       nth_error bind lookup].
  rewrite (value_eqb_refl X).
  cbn [values map snd sum fold_left Biases.normalized map_result fst].
  unfold truediv.
  destruct (Qeq_bool (0 + w) 0) eqn:E.
  - apply Qeq_bool_iff in E. rewrite Qplus_0_l in E. rewrite E in Hw.
    now apply Qlt_irrefl in Hw.
  - cbn [bind Biases.get_loop Biases.items keys values map fst snd].
    unfold choices. cbn [accumulate accumulate_from length Nat.eqb negb
                         index_last rev app bind].
    destruct (Qle_bool (w / (0 + w)) 0) eqn:E'.
    + apply Qle_bool_iff in E'. exfalso.
      assert (w / (0 + w) == 1)%Q as H1.
      { field. intros Hz. rewrite Hz in Hw. now apply Qlt_irrefl in Hw. }
      rewrite H1 in E'. now apply (Qlt_not_le 0 1).
    + reflexivity.
Qed.

End Sampler.

(** ** Chords (C5, C6) *)

Section ChordNormalForm.

Lemma fold_left_min_le (rest : list Z) (x : Z) :
  fold_left Z.min rest x <= x
  /\ Forall (fun y => fold_left Z.min rest x <= y) rest.
Proof.
  revert x. induction rest as [|y rest IH]; intros x; cbn.
  - split; [lia|constructor].
  - destruct (IH (Z.min x y)) as [H1 H2]. split; [lia|].
    constructor; [lia|assumption].
Qed.

Lemma fold_left_min_In (rest : list Z) (x : Z) :
  In (fold_left Z.min rest x) (x :: rest).
Proof.
  revert x. induction rest as [|y rest IH]; intros x; cbn; [now left|].
  destruct (IH (Z.min x y)) as [H|H].
  - destruct (Z.min_spec x y) as [[_ E]|[_ E]]; rewrite E in *; auto.
  - auto.
Qed.

Variable key : Z -> Z.

Lemma insert_by_perm (x : Z) (l : list Z) :
  Permutation (insert_by key x l) (x :: l).
Proof.
  induction l as [|y l IH]; cbn; [reflexivity|].
  destruct (key x <=? key y); [reflexivity|].
  rewrite IH. apply perm_swap.
Qed.

Lemma sorted_by_perm (l : list Z) : Permutation (sorted_by key l) l.
Proof.
  induction l as [|x l IH]; cbn; [reflexivity|].
  rewrite insert_by_perm. now constructor.
Qed.

Lemma insert_by_sorted (x : Z) (l : list Z) :
  StronglySorted (fun a b => key a <= key b) l ->
  StronglySorted (fun a b => key a <= key b) (insert_by key x l).
Proof.
  induction 1 as [|y l Hl IH Hy]; cbn.
  - repeat constructor.
  - destruct (Z.leb_spec (key x) (key y)) as [Hle|Hgt].
    + constructor; [now constructor|].
      constructor; [assumption|].
      eapply Forall_impl; [|exact Hy]. cbn. intros; lia.
    + constructor; [assumption|].
      eapply Permutation_Forall; [symmetry; apply insert_by_perm|].
      constructor; [lia|assumption].
Qed.

Lemma sorted_by_sorted (l : list Z) :
  StronglySorted (fun a b => key a <= key b) (sorted_by key l).
Proof.
  induction l as [|x l IH]; cbn; [constructor|].
  now apply insert_by_sorted.
Qed.

End ChordNormalForm.

Lemma strongly_sorted_map (key : Z -> Z) (f : Z -> Z) (l : list Z) :
  (forall a b, key a <= key b -> f a <= f b) ->
  StronglySorted (fun a b => key a <= key b) l ->
  StronglySorted Z.le (map f l).
Proof.
  intros Hf. induction 1 as [|y l Hl IH Hy]; cbn; constructor.
  - assumption.
  - apply Forall_map. eapply Forall_impl; [|exact Hy]. cbn. auto.
Qed.

(** What [Chord.__init__] returns, as a sorted rearrangement of the
    normalized pitch set. *)
Lemma init_pitches (ps : list Z) (c : Chord.t) :
  Chord.__init__ ps = Return c ->
  exists root,
    py_min (set_of ps) = Return root
    /\ In root (set_of ps)
    /\ Forall (fun p => root <= p) (set_of ps)
    /\ StronglySorted Z.le (Chord.pitches c)
    /\ Permutation (Chord.pitches c)
                   (map (fun p => (p - root) mod 7 + root) (set_of ps)).
Proof.
  unfold Chord.__init__.
  destruct (set_of ps) as [|y ys] eqn:E; [discriminate|].
  cbn [py_min bind]. intros [= <-].
  set (root := fold_left Z.min ys y).
  exists root. split; [reflexivity|].
  split; [apply fold_left_min_In|].
  split.
  { destruct (fold_left_min_le ys y) as [H1 H2]. now constructor. }
  cbn [Chord.pitches]. split.
  - apply (strongly_sorted_map (fun x => (x - root) mod 7)).
    + intros; lia.
    + apply (sorted_by_sorted (fun x => (x - root) mod 7) (y :: ys)).
  - apply Permutation_map.
    apply (sorted_by_perm (fun x => (x - root) mod 7) (y :: ys)).
Qed.

Lemma strongly_sorted_head_min (l : list Z) (a x : Z) :
  StronglySorted Z.le (a :: l) -> In x (a :: l) -> a <= x.
Proof.
  intros H Hin. inversion H as [|? ? _ Hall]; subst.
  destruct Hin as [->|Hin]; [lia|].
  rewrite Forall_forall in Hall. now apply Hall.
Qed.

(** Every constructed chord is in normal form. *)
Lemma init_normal (ps : list Z) (c : Chord.t) :
  Chord.__init__ ps = Return c -> normal c.
Proof.
  intros H. destruct (init_pitches ps c H) as (root & _ & Hin & Hmin & Hs & Hp).
  assert (Forall (fun p => root <= p < root + 7) (Chord.pitches c)) as Hband.
  { eapply Permutation_Forall; [symmetry; exact Hp|].
    apply Forall_map, Forall_forall. intros x _.
    pose proof (Z.mod_pos_bound (x - root) 7 ltac:(lia)). lia. }
  assert (In root (Chord.pitches c)) as Hroot.
  { eapply Permutation_in; [symmetry; exact Hp|].
    apply in_map_iff. exists root. split; [|assumption].
    replace (root - root) with 0 by lia. reflexivity. }
  destruct (Chord.pitches c) as [|a rest] eqn:Ec; [destruct Hroot|].
  assert (a = root) as ->.
  { pose proof (strongly_sorted_head_min rest a root Hs Hroot).
    inversion Hband; subst. lia. }
  exists root, rest. rewrite Ec. auto.
Qed.

Section Nearest.

Lemma min_by_from_spec (key : Z -> Z) (xs : list Z) (best : Z) :
  In (min_by_from key best xs) (best :: xs)
  /\ forall y, In y (best :: xs) -> key (min_by_from key best xs) <= key y.
Proof.
  revert best. induction xs as [|x xs IH]; intros best; cbn [min_by_from].
  - split; [now left|]. intros y [<-|[]]. lia.
  - destruct (IH (if key x <? key best then x else best)) as [Hin Hmin].
    split.
    + destruct Hin as [Hin|Hin]; [|now right; right].
      rewrite <- Hin. destruct (key x <? key best); cbn; auto.
    + intros y Hy.
      assert (key (min_by_from key (if key x <? key best then x else best) xs)
              <= key (if key x <? key best then x else best)) as Hb
        by (apply Hmin; now left).
      destruct Hy as [<-|[<-|Hy]].
      * destruct (Z.ltb_spec (key x) (key best)); lia.
      * destruct (Z.ltb_spec (key x) (key best)); lia.
      * apply Hmin. now right.
Qed.

(** The shift [nearest] adds to [pitch], from the chosen interval [mod_in]
    and the interval [mod_out] of [pitch]. *)
Lemma nearest_normal (c : Chord.t) (p : Z) :
  normal c ->
  exists root mod_in,
    index (Chord.pitches c) 0 = Return root
    /\ In (root + mod_in) (Chord.pitches c)
    /\ 0 <= mod_in < 7
    /\ (forall m, In m (Chord.pitches c) ->
          let mod_out := (p - root) mod 7 in
          Z.min (Z.abs (mod_in - mod_out)) (7 - Z.abs (mod_in - mod_out))
          <= Z.min (Z.abs (m - root - mod_out))
                   (7 - Z.abs (m - root - mod_out)))
    /\ Chord.nearest c p
       = Return (p + (let md := mod_in - (p - root) mod 7 in
                      if 7 <? 2 * Z.abs md then md + 7 else md)).
Proof.
  intros (root & rest & Ec & Hband & _).
  unfold Chord.nearest, Chord.scale_intervals. rewrite Ec.
  cbn [index nth_error bind map min_by].
  set (mod_out := (p - root) mod 7).
  set (key := fun x => Z.min (Z.abs (x - mod_out)) (7 - Z.abs (x - mod_out))).
  destruct (min_by_from_spec key (map (fun q => q - root) rest) (root - root))
    as [Hin Hmin].
  set (mod_in := min_by_from key (root - root) (map (fun q => q - root) rest))
    in *.
  change (root - root :: map (fun q => q - root) rest)
    with (map (fun q => q - root) (root :: rest)) in Hin, Hmin.
  apply in_map_iff in Hin. destruct Hin as (m & Hm & Hmin').
  exists root, mod_in. rewrite <- Ec in *.
  split; [reflexivity|].
  split; [replace (root + mod_in) with m by lia; assumption|].
  split.
  { rewrite Forall_forall in Hband. specialize (Hband m Hmin'). lia. }
  split; [|reflexivity].
  intros m' Hm'. cbn zeta. apply (Hmin (m' - root)).
  apply in_map_iff. now exists m'.
Qed.

End Nearest.

(** C5: for a chord built by the constructor, [nearest(p)] is congruent
    modulo 7 to a member of the chord, no member is circularly closer to
    [p], the shift from [p] is the smallest one in absolute value that
    reaches that pitch class (its size is the circular distance, so it is at
    most 3 and the half-octave case cannot arise on integer pitches), and
    [nearest] is idempotent. *)
Theorem C5_nearest_is_nearest_chord_tone (ps : list Z) (c : Chord.t) (p : Z)
    (Hc : Chord.__init__ ps = Return c) :
  exists r,
    Chord.nearest c p = Return r
    /\ (exists m, In m (Chord.pitches c) /\ (r - m) mod 7 = 0)
    /\ (forall m, In m (Chord.pitches c) -> circ_dist r p <= circ_dist m p)
    /\ Z.abs (r - p) = circ_dist r p
    /\ 2 * Z.abs (r - p) < 7
    /\ Chord.nearest c r = Return r.
Proof.
  pose proof (init_normal ps c Hc) as Hn.
  destruct (nearest_normal c p Hn) as (root & mi & H0 & Hin & Hmi & Hmin & Hr).
  assert (In root (Chord.pitches c)) as Hroot.
  { destruct Hn as (root' & rest & Ec & _). rewrite Ec in *.
    cbn in H0. injection H0 as <-. now left. }
  assert (forall m, In m (Chord.pitches c) -> 0 <= m - root < 7) as Hband.
  { destruct Hn as (root' & rest & Ec & Hb & _). rewrite Ec in H0.
    cbn in H0. injection H0 as <-. rewrite Forall_forall in Hb.
    intros m Hm. specialize (Hb m Hm). lia. }
  pose proof (Hmin root Hroot) as Hmin0. cbn zeta in Hmin0.
  set (mo := (p - root) mod 7) in *.
  assert (0 <= mo < 7) as Hmo by (apply Z.mod_pos_bound; lia).
  set (md := if 7 <? 2 * Z.abs (mi - mo) then mi - mo + 7 else mi - mo) in *.
  assert (-3 <= md <= 3 /\ (md = mi - mo \/ md = mi - mo + 7)
          /\ Z.abs md = Z.min (Z.abs (mi - mo)) (7 - Z.abs (mi - mo)))
    as (Hmd & Hcong & Habs).
  { subst md. destruct (Z.ltb_spec 7 (2 * Z.abs (mi - mo))); lia. }
  exists (p + md). split; [exact Hr|].
  assert ((p + md - root) mod 7 = mi) as Hclass.
  { subst mo. clearbody md. clear - Hmi Hcong.
    Z.to_euclidean_division_equations. lia. }
  assert (circ_dist (p + md) p = Z.abs md) as Hcirc.
  { unfold circ_dist. clear - Hmd. Z.to_euclidean_division_equations. lia. }
  split.
  { exists (root + mi). split; [assumption|].
    clear - Hclass Hmi. Z.to_euclidean_division_equations. lia. }
  split.
  { intros m Hm. rewrite Hcirc, Habs.
    specialize (Hmin m Hm). cbn zeta in Hmin. fold mo in Hmin.
    specialize (Hband m Hm).
    etransitivity; [exact Hmin|].
    unfold circ_dist. subst mo. clear - Hband.
    Z.to_euclidean_division_equations. lia. }
  split; [rewrite Hcirc; f_equal; lia|].
  split; [replace (p + md - p) with md by lia; lia|].
  destruct (nearest_normal c (p + md) Hn)
    as (root' & mi' & H0' & Hin' & Hmi' & Hmin' & Hr').
  rewrite H0 in H0'. injection H0' as <-.
  rewrite Hr'. rewrite Hclass in *.
  specialize (Hmin' (root + mi) Hin). cbn zeta in Hmin'.
  cbn zeta. f_equal. destruct (Z.ltb_spec 7 (2 * Z.abs (mi' - mi))); lia.
Qed.

Lemma C5_witness :
  exists r,
    Chord.nearest {| Chord.pitches := [1; 3; 5] |} 7 = Return r
    /\ (exists m, In m [1; 3; 5] /\ (r - m) mod 7 = 0)
    /\ (forall m, In m [1; 3; 5] -> circ_dist r 7 <= circ_dist m 7)
    /\ Z.abs (r - 7) = circ_dist r 7
    /\ 2 * Z.abs (r - 7) < 7
    /\ Chord.nearest {| Chord.pitches := [1; 3; 5] |} r = Return r.
Proof.
  apply (C5_nearest_is_nearest_chord_tone [5; 1; 3]). reflexivity.
Defined.

Section ChordEquality.

Lemma sorted_perm_unique (l1 l2 : list Z) :
  StronglySorted Z.le l1 -> StronglySorted Z.le l2 -> Permutation l1 l2 ->
  l1 = l2.
Proof.
  revert l2. induction l1 as [|a l1 IH]; intros l2 H1 H2 Hp.
  - now apply Permutation_nil in Hp.
  - destruct l2 as [|b l2].
    + symmetry in Hp. now apply Permutation_nil in Hp.
    + assert (a = b) as ->.
      { assert (In a (b :: l2)) as Ha
          by (eapply Permutation_in; [exact Hp|now left]).
        assert (In b (a :: l1)) as Hb
          by (eapply Permutation_in; [symmetry; exact Hp|now left]).
        pose proof (strongly_sorted_head_min l2 b a H2 Ha).
        pose proof (strongly_sorted_head_min l1 a b H1 Hb). lia. }
      f_equal. apply IH.
      * now inversion H1.
      * now inversion H2.
      * now apply Permutation_cons_inv in Hp.
Qed.

Lemma strongly_sorted_shift (k : Z) (l : list Z) :
  StronglySorted Z.le l -> StronglySorted Z.le (map (fun p => p + k) l).
Proof.
  induction 1 as [|y l Hl IH Hy]; cbn; constructor; [assumption|].
  apply Forall_map. eapply Forall_impl; [|exact Hy]. cbn. intros; lia.
Qed.

Variables (P Q : list Z) (k : Z).
Hypothesis shifted : forall x, In x Q <-> exists y, In y P /\ x = y + 7 * k.

Lemma set_of_shift : Permutation (set_of Q) (map (fun p => p + 7 * k) (set_of P)).
Proof.
  unfold set_of. apply NoDup_Permutation.
  - apply NoDup_nodup.
  - apply Finite.Injective_map_NoDup; [|apply NoDup_nodup].
    intros x y Hxy. lia.
  - intros x. rewrite nodup_In, shifted, in_map_iff. split.
    + intros (y & Hy & ->). exists y. now rewrite nodup_In.
    + intros (y & <- & Hy). exists y. now rewrite nodup_In in Hy.
Qed.

(** An octave shift of the pitch set shifts the normalized pitches. *)
Lemma init_shift (c d : Chord.t) :
  Chord.__init__ P = Return c -> Chord.__init__ Q = Return d ->
  Chord.pitches d = map (fun p => p + 7 * k) (Chord.pitches c).
Proof.
  intros HP HQ.
  destruct (init_pitches P c HP) as (rp & _ & Hinp & Hminp & Hsp & Hpp).
  destruct (init_pitches Q d HQ) as (rq & _ & Hinq & Hminq & Hsq & Hpq).
  pose proof set_of_shift as Hset.
  assert (rq = rp + 7 * k) as ->.
  { rewrite Forall_forall in Hminp, Hminq.
    assert (In (rp + 7 * k) (set_of Q)) as H1.
    { eapply Permutation_in; [symmetry; exact Hset|].
      apply in_map_iff. now exists rp. }
    assert (In rq (map (fun p => p + 7 * k) (set_of P))) as H2
      by (eapply Permutation_in; [exact Hset|assumption]).
    apply in_map_iff in H2. destruct H2 as (y & <- & Hy).
    specialize (Hminp y Hy). specialize (Hminq _ H1). lia. }
  apply sorted_perm_unique.
  - assumption.
  - now apply strongly_sorted_shift.
  - rewrite Hpq, Hpp, Hset, !map_map.
    erewrite map_ext; [reflexivity|].
    intros a. cbv beta.
    replace (a + 7 * k - (rp + 7 * k)) with (a - rp) by lia. lia.
Qed.

End ChordEquality.

Section ChordEq.

Lemma index_middle {A : Type} (pre : list A) (x : A) (post : list A) :
  index (pre ++ x :: post) (length pre) = Return x.
Proof.
  unfold index. rewrite nth_error_app2 by lia.
  now rewrite Nat.sub_diag.
Qed.

(** The generator of [__eq__], from position [length pre_a] on. *)
Lemma all_range_intervals (a0 b0 : Z) :
  forall ta tb pre_a pre_b,
    length pre_a = length pre_b -> length ta = length tb ->
    index (pre_a ++ ta) 0 = Return a0 -> index (pre_b ++ tb) 0 = Return b0 ->
    exists b,
      all_range (fun i => a <- index (pre_a ++ ta) i ;;
                          a0 <- index (pre_a ++ ta) 0 ;;
                          b <- index (pre_b ++ tb) i ;;
                          b0 <- index (pre_b ++ tb) 0 ;;
                          Return (a - a0 =? b - b0))
                (length pre_a) (length ta) = Return b
      /\ (b = true <->
          map (fun p => p - a0) ta = map (fun p => p - b0) tb).
Proof.
  induction ta as [|x ta IH]; intros tb pre_a pre_b Hpre Hlen Ha Hb.
  - destruct tb; [|discriminate]. exists true. cbn. tauto.
  - destruct tb as [|y tb]; [discriminate|].
    cbn [length all_range].
    assert (index (pre_b ++ y :: tb) (length pre_a) = Return y) as Hy
      by (rewrite Hpre; apply index_middle).
    rewrite index_middle, Ha, Hy, Hb. cbn [bind].
    destruct (Z.eqb_spec (x - a0) (y - b0)) as [Heq|Hne].
    + destruct (IH tb (pre_a ++ [x]) (pre_b ++ [y])) as (b & Hb1 & Hb2).
      * rewrite !length_app. cbn. lia.
      * cbn in Hlen. lia.
      * now rewrite <- app_assoc.
      * now rewrite <- app_assoc.
      * exists b. split.
        -- rewrite length_app, Nat.add_1_r, <- !app_assoc in Hb1.
           cbn [app] in Hb1. rewrite Ha, Hb in Hb1. exact Hb1.
        -- rewrite Hb2. cbn. split; [intros ->; now f_equal|].
           now intros [= _ H].
    + exists false. split; [reflexivity|].
      split; [discriminate|]. cbn. intros [= H _]. contradiction.
Qed.

(** [__eq__] on two chords that have pitches. *)
Lemma eq_spec (c d : Chord.t) (a0 b0 : Z) :
  index (Chord.pitches c) 0 = Return a0 ->
  index (Chord.pitches d) 0 = Return b0 ->
  exists b,
    Chord.__eq__ c d = Return b
    /\ (b = true <->
        length (Chord.pitches c) = length (Chord.pitches d)
        /\ a0 mod 7 = b0 mod 7
        /\ Chord.scale_intervals c = Chord.scale_intervals d).
Proof.
  intros Ha Hb. unfold Chord.__eq__, Chord.scale_intervals.
  rewrite Ha, Hb. cbn [bind].
  destruct (Chord.pitches c) as [|a ta] eqn:Ec; [discriminate|].
  destruct (Chord.pitches d) as [|b tb] eqn:Ed; [discriminate|].
  cbn in Ha, Hb. injection Ha as ->. injection Hb as ->.
  destruct (Nat.eqb_spec (length (a0 :: ta)) (length (b0 :: tb))) as [Hl|Hl];
    cbn [negb].
  - destruct (Z.eqb_spec (a0 mod 7) (b0 mod 7)) as [Hm|Hm]; cbn [negb].
    + replace (length (a0 :: ta) - 1)%nat with (length ta) by (cbn; lia).
      destruct (all_range_intervals a0 b0 ta tb [a0] [b0]) as (r & Hr1 & Hr2);
        try reflexivity.
      { cbn in Hl. lia. }
      cbn [app length] in Hr1.
      rewrite (index_cons_0 a0 ta), (index_cons_0 b0 tb) in Hr1.
      cbn [bind] in Hr1. exists r. split; [exact Hr1|].
      rewrite Hr2. cbn [map]. split.
      * intros ->. repeat split; try assumption.
        do 2 f_equal. lia.
      * intros (_ & _ & [= _ H]). exact H.
    + exists false. split; [reflexivity|].
      split; [discriminate|]. intros (_ & H & _). contradiction.
  - exists false. split; [reflexivity|].
    split; [discriminate|]. intros (H & _). contradiction.
Qed.

End ChordEq.

(** C6: two non-empty pitch sets of which one is the other shifted by whole
    octaves give chords that compare equal and hash equal; and two chords
    compare equal exactly when they have as many pitches, roots in one
    pitch class modulo 7, and the same intervals above their roots. *)
Theorem C6_chord_equality_and_hash (tuple_hash : list Z -> Z) (P Q : list Z)
    (HP : P <> []) (HQ : Q <> []) :
  exists c d a0 b0,
    Chord.__init__ P = Return c /\ Chord.__init__ Q = Return d
    /\ index (Chord.pitches c) 0 = Return a0
    /\ index (Chord.pitches d) 0 = Return b0
    /\ (forall k,
          (forall x, In x Q <-> exists y, In y P /\ x = y + 7 * k) ->
          Chord.__eq__ c d = Return true
          /\ Chord.__hash__ tuple_hash c = Chord.__hash__ tuple_hash d)
    /\ (Chord.__eq__ c d = Return true <->
        length (Chord.pitches c) = length (Chord.pitches d)
        /\ a0 mod 7 = b0 mod 7
        /\ Chord.scale_intervals c = Chord.scale_intervals d).
Proof.
  destruct (init_returns P HP) as [c Hc].
  destruct (init_returns Q HQ) as [d Hd].
  destruct (init_normal _ _ Hc) as (a0 & ra & Ea & _).
  destruct (init_normal _ _ Hd) as (b0 & rb & Eb & _).
  assert (index (Chord.pitches c) 0 = Return a0) as Ha by now rewrite Ea.
  assert (index (Chord.pitches d) 0 = Return b0) as Hb by now rewrite Eb.
  destruct (eq_spec c d a0 b0 Ha Hb) as (b & Hb1 & Hb2).
  exists c, d, a0, b0. repeat (split; [assumption|]).
  split.
  - intros k Hk.
    pose proof (init_shift _ _ k Hk c d Hc Hd) as Hs.
    assert (b0 = a0 + 7 * k) as Hb0.
    { rewrite Hs, Ea in Eb. cbn in Eb. now injection Eb as <- _. }
    split.
    + rewrite Hb1. f_equal. apply Hb2.
      split; [rewrite Hs; now rewrite length_map|].
      split; [subst b0; Z.to_euclidean_division_equations; lia|].
      unfold Chord.scale_intervals. rewrite Ha, Hb. cbn [bind].
      f_equal. rewrite Hs, map_map. apply map_ext. intros; lia.
    + unfold Chord.__hash__. rewrite Ha, Hb. cbn [bind]. do 2 f_equal.
      rewrite Hs, map_map. apply map_ext. intros x. subst b0.
      Z.to_euclidean_division_equations. lia.
  - rewrite Hb1. rewrite <- Hb2. split; [now intros [= ->]|now intros ->].
Qed.

Lemma C6_witness :
  [1; 3; 5] <> [] /\ [12; 8; 10] <> [] /\
  exists c d a0 b0,
    Chord.__init__ [1; 3; 5] = Return c
    /\ Chord.__init__ [12; 8; 10] = Return d
    /\ index (Chord.pitches c) 0 = Return a0
    /\ index (Chord.pitches d) 0 = Return b0
    /\ (forall k,
          (forall x, In x [12; 8; 10]
                     <-> exists y, In y [1; 3; 5] /\ x = y + 7 * k) ->
          Chord.__eq__ c d = Return true
          /\ Chord.__hash__ (fold_right Z.add 0) c
             = Chord.__hash__ (fold_right Z.add 0) d)
    /\ (Chord.__eq__ c d = Return true <->
        length (Chord.pitches c) = length (Chord.pitches d)
        /\ a0 mod 7 = b0 mod 7
        /\ Chord.scale_intervals c = Chord.scale_intervals d).
Proof.
  split; [discriminate|]. split; [discriminate|].
  apply C6_chord_equality_and_hash; discriminate.
Defined.

(** The chord depends on the set of pitches alone: neither the order of the
    collection nor the iteration order of the set shows in the result. *)
Lemma init_order_independent (P Q : list Z) (c d : Chord.t) :
  (forall x, In x Q <-> In x P) ->
  Chord.__init__ P = Return c -> Chord.__init__ Q = Return d -> c = d.
Proof.
  intros H HP HQ.
  assert (forall x, In x Q <-> exists y, In y P /\ x = y + 7 * 0) as H'.
  { intros x. rewrite H. split.
    - intros Hx. exists x. split; [assumption|lia].
    - intros (y & Hy & ->). now replace (y + 7 * 0) with y by lia. }
  pose proof (init_shift P Q 0 H' c d HP HQ) as Hs.
  destruct c as [pc], d as [pd]. cbn in Hs. f_equal.
  rewrite Hs. symmetry. erewrite map_ext; [apply map_id|].
  intros; cbv beta; lia.
Qed.

(** ** Progression.skeleton: the range test (C4) *)

Section SkeletonNote.

Variables (chd : Chord.t) (pre next_interval min_pitch max_pitch note : Z).
Hypothesis first_try : Chord._next_pitch chd pre next_interval = Return note.

(** Above the range the interval is negated. *)
Lemma skeleton_note_too_high :
  max_pitch < note ->
  Progression.skeleton_note chd pre next_interval min_pitch max_pitch
  = Chord._next_pitch chd pre (- next_interval).
Proof.
  intros H. unfold Progression.skeleton_note. rewrite first_try. cbn [bind].
  destruct (Z.gtb_spec note max_pitch); [reflexivity|lia].
Qed.

(** Below the range the interval is used as it was drawn, so the pitch
    that was too low is appended. *)
Lemma skeleton_note_too_low :
  note <= max_pitch -> note < min_pitch ->
  Progression.skeleton_note chd pre next_interval min_pitch max_pitch
  = Return note.
Proof.
  intros H1 H2. unfold Progression.skeleton_note. rewrite first_try.
  cbn [bind].
  destruct (Z.gtb_spec note max_pitch); [lia|].
  destruct (Z.ltb_spec note min_pitch); [exact first_try|lia].
Qed.

End SkeletonNote.

(** C4: on the chord of [Chord((1, 3, 5))], from the previous pitch 1 with the
    drawn interval -1 and the range [1, 11], the first pitch is -2, below the
    range; the pitch appended is -2 again, where the flipped interval would
    give 3. *)
Theorem C4_too_low_keeps_the_interval :
  exists chd,
    Chord.__init__ [1; 3; 5] = Return chd
    /\ Chord._next_pitch chd 1 (-1) = Return (-2)
    /\ Progression.skeleton_note chd 1 (-1) 1 11 = Return (-2)
    /\ Chord._next_pitch chd 1 (- (-1)) = Return 3.
Proof. eexists. repeat split. Qed.

(** ** Part.measures (C10) *)

Section Measures.

Context {N : Type}.
Variables (notes : list N) (meter : Z).

Lemma measures_loop_spec :
  forall rhythms m_notes m_ryth ni,
    short meter m_ryth ->
    let out := Part.measures_loop notes meter rhythms m_notes m_ryth ni in
    Forall (fun y => whole meter (snd y)) (fst out)
    /\ exists tail,
         m_ryth ++ rhythms = concat (map snd (fst out)) ++ tail
         /\ (snd out = Return tt -> short meter tail).
Proof.
  induction rhythms as [|r rest IH]; intros m_notes m_ryth ni Hshort; cbn zeta.
  - cbn. split; [constructor|]. exists m_ryth. rewrite app_nil_r. auto.
  - cbn [Part.measures_loop].
    destruct (if is_rest r then Return (m_notes, ni)
              else n <- index notes ni ;; Return (m_notes ++ [n], S ni))
      as [[m_notes' ni']|e].
    2: { cbn. split; [constructor|].
         exists (m_ryth ++ r :: rest). split; [reflexivity|discriminate]. }
    destruct (duration (m_ryth ++ [r])) as [d|e] eqn:Ed.
    2: { cbn. split; [constructor|].
         exists (m_ryth ++ r :: rest). split; [reflexivity|discriminate]. }
    destruct (Qle_bool (inject_Z meter) d) eqn:Ele.
    + specialize (IH [] [] ni' (or_introl eq_refl)). cbn zeta in IH.
      destruct (Part.measures_loop notes meter rest [] [] ni') as [more fin].
      cbn [fst snd] in *. destruct IH as (Hall & tail & Htail & Hfin).
      split.
      * constructor; [|assumption]. exists d. split; [assumption|].
        now apply Qle_bool_iff.
      * exists tail. split; [|assumption].
        cbn [map concat snd]. cbn [app] in Htail.
        rewrite <- !app_assoc, <- Htail. reflexivity.
    + assert (short meter (m_ryth ++ [r])) as Hs.
      { right. exists d. split; [assumption|].
        apply Qnot_le_lt. intros Hle. apply Qle_bool_iff in Hle. congruence. }
      specialize (IH m_notes' (m_ryth ++ [r]) ni' Hs). cbn zeta in IH.
      destruct IH as (Hall & tail & Htail & Hfin).
      split; [assumption|]. exists tail. split; [|assumption].
      rewrite <- Htail, <- app_assoc. reflexivity.
Qed.

End Measures.

(** C10: every rhythm string that [measures(meter)] yields lasts at least
    [meter]; the yielded strings, joined in order, are a prefix of the
    part's rhythm string; and when the iteration ends normally, what is left
    after that prefix is empty or lasts less than [meter]: it is not
    yielded. *)
Theorem C10_measures_are_complete {N : Type} (self : Part.t N) (meter : Z) :
  Forall (fun y => exists d, duration (snd y) = Return d
                             /\ (inject_Z meter <= d)%Q)
         (fst (Part.measures self meter))
  /\ exists tail,
       Part.rhythms self
       = concat (map snd (fst (Part.measures self meter))) ++ tail
       /\ (snd (Part.measures self meter) = Return tt ->
           tail = [] \/ exists d, duration tail = Return d
                                  /\ (d < inject_Z meter)%Q).
Proof.
  unfold Part.measures.
  exact (measures_loop_spec (Part.notes self) meter (Part.rhythms self)
                            [] [] 0%nat (or_introl eq_refl)).
Qed.

(** ** Part.refine (C3, C7) *)

Section BreakTables.

Lemma BREAKS_ok : break_table_ok BREAKS.
Proof.
  intros t0 r row v [= <-] Hl Hin.
  destruct r as [b0 b1 b2 b3 b4 b5 b6 b7].
  destruct b0, b1, b2, b3, b4, b5, b6, b7; cbn in Hl; try discriminate;
    injection Hl as <-; cbn in Hin;
    repeat (destruct Hin as [<-|Hin]; [| ]); try contradiction;
    (eexists _, _; split; [reflexivity|];
     split; [reflexivity|]; split; [reflexivity|];
     eexists _, _, _; repeat split; reflexivity).
Qed.

Lemma RYTH_ok : rhythm_table_ok RYTH.
Proof.
  intros t0 e row v [= <-] Hl Hin.
  cbn in Hl.
  repeat match type of Hl with
         | (if ?c then _ else _) = _ => destruct c
         end; try discriminate;
    injection Hl as <-; cbn in Hin;
    repeat (destruct Hin as [<-|Hin]; [| ]); try contradiction;
    eexists; reflexivity.
Qed.

End BreakTables.

Section Durations.

Lemma duration_from_shift (ry : list ascii) :
  forall acc acc' d,
    duration_from acc ry = Return d ->
    exists d', duration_from acc' ry = Return d'
               /\ (d' - acc' == d - acc)%Q.
Proof.
  induction ry as [|r ry IH]; intros acc acc' d H; cbn in *.
  - injection H as <-. exists acc'. split; [reflexivity|ring].
  - destruct (NOTE_LENS r) as [len|]; [|discriminate]. cbn [bind] in *.
    destruct (IH _ (acc' + len)%Q _ H) as (d' & H1 & H2).
    exists d'. split; [assumption|].
    setoid_replace (d' - acc')%Q with (d' - (acc' + len) + len)%Q by ring.
    rewrite H2. ring.
Qed.

Lemma lasts_nil : lasts [] 0.
Proof. exists 0%Q. split; reflexivity. Qed.

Lemma lasts_eq (ry : list ascii) (d d' : Q) :
  lasts ry d -> (d == d')%Q -> lasts ry d'.
Proof.
  intros (x & H1 & H2) H. exists x. split; [assumption|]. now rewrite H2.
Qed.

Lemma lasts_unique (ry : list ascii) (d d' : Q) :
  lasts ry d -> lasts ry d' -> (d == d')%Q.
Proof.
  intros (x & H1 & H2) (y & H3 & H4). rewrite H1 in H3. injection H3 as <-.
  now rewrite <- H2, <- H4.
Qed.

Lemma lasts_cons (r : ascii) (ry : list ascii) (len d : Q) :
  NOTE_LENS r = Return len -> lasts ry d -> lasts (r :: ry) (len + d).
Proof.
  intros Hr (x & H1 & H2). unfold lasts, duration in *. cbn. rewrite Hr.
  cbn [bind].
  destruct (duration_from_shift ry 0 (0 + len) x H1) as (y & H3 & H4).
  exists y. split; [assumption|].
  setoid_replace y with (y - (0 + len) + len)%Q by ring.
  rewrite H4, <- H2. ring.
Qed.

Lemma lasts_cons_inv (r : ascii) (ry : list ascii) (d : Q) :
  lasts (r :: ry) d ->
  exists len d', NOTE_LENS r = Return len /\ lasts ry d'
                 /\ (d == len + d')%Q.
Proof.
  intros (x & H1 & H2). unfold duration in H1. cbn in H1.
  destruct (NOTE_LENS r) as [len|] eqn:Hr; [|discriminate]. cbn [bind] in H1.
  destruct (duration_from_shift ry (0 + len) 0 x H1) as (y & H3 & H4).
  exists len, y. split; [reflexivity|]. split.
  - exists y. split; [assumption|reflexivity].
  - rewrite <- H2. setoid_replace x with (x - (0 + len) + len)%Q by ring.
    rewrite <- H4. ring.
Qed.

Lemma lasts_app (a b : list ascii) (x y : Q) :
  lasts a x -> lasts b y -> lasts (a ++ b) (x + y).
Proof.
  revert x. induction a as [|r a IH]; intros x Ha Hb; cbn [app].
  - eapply lasts_eq; [exact Hb|].
    rewrite (lasts_unique _ _ _ Ha lasts_nil). ring.
  - apply lasts_cons_inv in Ha. destruct Ha as (len & d' & Hr & Ha & Hx).
    eapply lasts_eq; [apply (lasts_cons r _ len _ Hr (IH d' Ha Hb))|].
    rewrite Hx. ring.
Qed.

Lemma lasts_app_inv (a b : list ascii) (z : Q) :
  lasts (a ++ b) z ->
  exists x y, lasts a x /\ lasts b y /\ (z == x + y)%Q.
Proof.
  revert z. induction a as [|r a IH]; intros z H; cbn [app] in H.
  - exists 0%Q, z. split; [apply lasts_nil|]. split; [assumption|ring].
  - apply lasts_cons_inv in H. destruct H as (len & d' & Hr & H & Hz).
    destruct (IH d' H) as (x & y & Hx & Hy & Hd).
    exists (len + x)%Q, y. split; [now apply lasts_cons|].
    split; [assumption|]. rewrite Hz, Hd. ring.
Qed.

Lemma good_pair_lasts (r a b : ascii) (d : Q) :
  good_pair r a b -> lasts [r] d -> lasts [a; b] d.
Proof.
  intros (_ & _ & dr & da & db & Hr & Ha & Hb & Hsum) Hd.
  assert (lasts [r] (dr + 0)) as Hr' by (apply lasts_cons; [assumption|apply lasts_nil]).
  eapply lasts_eq.
  - apply (lasts_cons a [b] da (db + 0) Ha).
    apply (lasts_cons b [] db 0 Hb). apply lasts_nil.
  - rewrite (lasts_unique _ _ _ Hd Hr'), <- Hsum. ring.
Qed.

Lemma rest_to_note_lasts (r : ascii) (d : Q) :
  is_rest r = true -> lasts [r] d -> lasts [Part.rest_to_note r] d.
Proof.
  intros Hr Hd.
  destruct r as [b0 b1 b2 b3 b4 b5 b6 b7].
  destruct b0, b1, b2, b3, b4, b5, b6, b7; try discriminate Hr;
    destruct Hd as (x & H1 & H2); injection H1 as <-;
    (eexists; split; [reflexivity|]); rewrite <- H2; reflexivity.
Qed.

(** Neither change alters the duration of the rhythm. *)
Lemma refine_step_duration (l l' : list Z * list ascii) (d : Q) :
  refine_step l l' -> lasts (snd l) d -> lasts (snd l') d.
Proof.
  intros [notes pre post r a b k x Hr Hab | notes pre r x Hr]; cbn [snd];
    intros H.
  - apply lasts_app_inv in H. destruct H as (x1 & y1 & Hpre & Hrest & Hd).
    change (r :: post) with ([r] ++ post) in Hrest.
    apply lasts_app_inv in Hrest. destruct Hrest as (x2 & y2 & Hr2 & Hpost & Hd2).
    eapply lasts_eq.
    + apply (lasts_app pre (a :: b :: post) x1 (x2 + y2) Hpre).
      change (a :: b :: post) with ([a; b] ++ post).
      apply lasts_app; [|assumption].
      eapply good_pair_lasts; eassumption.
    + rewrite Hd, Hd2. reflexivity.
  - apply lasts_app_inv in H. destruct H as (x1 & y1 & Hpre & Hr1 & Hd).
    eapply lasts_eq.
    + apply (lasts_app pre _ x1 y1 Hpre).
      now apply rest_to_note_lasts.
    + now rewrite Hd.
Qed.

Lemma refine_steps_duration (l l' : list Z * list ascii) (d : Q) :
  refine_steps l l' -> lasts (snd l) d -> lasts (snd l') d.
Proof.
  induction 1 as [|l l' l'' _ IH Hstep]; intros H; [assumption|].
  eapply refine_step_duration; eauto.
Qed.

End Durations.

Section Counts.

Lemma count_notes_app (a b : list ascii) :
  count_notes (a ++ b) = (count_notes a + count_notes b)%nat.
Proof.
  unfold count_notes. now rewrite map_app, list_sum_app.
Qed.

Lemma count_notes_cons (r : ascii) (a : list ascii) :
  count_notes (r :: a)
  = ((if is_rest r then 0 else 1) + count_notes a)%nat.
Proof. reflexivity. Qed.

Lemma length_list_insert {A : Type} (l : list A) (k : nat) (x : A) :
  length (list_insert l k x) = S (length l).
Proof.
  unfold list_insert. rewrite length_app. cbn [length].
  rewrite Nat.add_succ_r, <- length_app, firstn_skipn. reflexivity.
Qed.

Lemma rest_to_note_played (r : ascii) :
  is_rest r = true -> is_rest (Part.rest_to_note r) = false.
Proof.
  destruct r as [b0 b1 b2 b3 b4 b5 b6 b7].
  destruct b0, b1, b2, b3, b4, b5, b6, b7; try discriminate; reflexivity.
Qed.

(** Both changes add one played token and one pitch. *)
Lemma refine_step_count (l l' : list Z * list ascii) :
  refine_step l l' ->
  count_notes (snd l') = S (count_notes (snd l))
  /\ length (fst l') = S (length (fst l)).
Proof.
  intros [notes pre post r a b k x Hr (Ha & Hb & _) | notes pre r x Hr];
    cbn [fst snd].
  - rewrite !count_notes_app, !count_notes_cons, Hr, Ha, Hb.
    rewrite length_list_insert. lia.
  - rewrite !count_notes_app, !count_notes_cons, Hr.
    rewrite (rest_to_note_played r Hr), length_app. cbn. lia.
Qed.

Lemma refine_steps_count (l l' : list Z * list ascii) :
  refine_steps l l' ->
  count_notes (snd l) = length (fst l) ->
  count_notes (snd l') = length (fst l').
Proof.
  induction 1 as [|l l' l'' _ IH Hstep]; intros H; [assumption|].
  destruct (refine_step_count _ _ Hstep) as [H1 H2].
  rewrite H1, H2. f_equal. now apply IH.
Qed.

End Counts.

Lemma refine_steps_trans (l l' l'' : list Z * list ascii) :
  refine_steps l l' -> refine_steps l' l'' -> refine_steps l l''.
Proof.
  intros H1 H2. induction H2 as [|l' m m' _ IH Hs]; [assumption|].
  eapply steps_then; [apply IH; assumption|exact Hs].
Qed.

Lemma refine_steps_one (l l' : list Z * list ascii) :
  refine_step l l' -> refine_steps l l'.
Proof. intros H. eapply steps_then; [apply steps_refl|exact H]. Qed.

Section RefineSteps.

Variables (rnd : nat -> Q) (pass_func : Z -> Z -> result Q)
          (aux_func : Z -> result Q) (breaks : Biases.t).
Hypothesis breaks_ok : break_table_ok breaks.

Lemma firstn_length_app {A : Type} (l1 l2 : list A) :
  firstn (length l1) (l1 ++ l2) = l1.
Proof. induction l1 as [|a l1 IH]; cbn; [now destruct l2|now rewrite IH]. Qed.

Lemma skipn_length_app {A : Type} (l1 l2 : list A) :
  skipn (length l1) (l1 ++ l2) = l2.
Proof. induction l1 as [|a l1 IH]; cbn; [reflexivity|exact IH]. Qed.

Lemma skipn_middle {A : Type} (l1 : list A) (a : A) (l2 : list A) :
  skipn (S (length l1)) (l1 ++ a :: l2) = l2.
Proof. induction l1 as [|x l1 IH]; [reflexivity|exact IH]. Qed.

Lemma index_split {A : Type} (l : list A) (i : nat) (a : A) :
  index l i = Return a ->
  exists pre post, l = pre ++ a :: post /\ length pre = i.
Proof.
  unfold index. destruct (nth_error l i) as [x|] eqn:E; [|discriminate].
  intros [= ->]. now apply nth_error_split.
Qed.

(** What [breaks.get(r)] returns under the contract. *)
Lemma breaks_get (n : nat) (r : ascii) (v : value) (n' : nat) :
  Biases.get rnd n breaks Biases.deg_rate_default [Str [r]] = Return (v, n') ->
  exists a b, v = Str [a; b] /\ good_pair r a b.
Proof.
  intros H. apply get_single in H.
  destruct H as (t0 & row & H0 & Hl & Hin & _).
  eapply breaks_ok; eassumption.
Qed.

Lemma break_token_spec (rhythms : list ascii) (i : nat) (r : ascii)
    (draws : nat) (rhythms' : list ascii) (draws' : nat) :
  index rhythms i = Return r ->
  Part.break_token rnd breaks rhythms i r draws = Return (rhythms', draws') ->
  exists pre post a b,
    rhythms = pre ++ r :: post /\ rhythms' = pre ++ a :: b :: post
    /\ good_pair r a b.
Proof.
  intros Hi. unfold Part.break_token.
  destruct (index_split _ _ _ Hi) as (pre & post & -> & <-).
  rewrite firstn_length_app, skipn_middle.
  destruct (Biases.get rnd draws breaks _ _) as [[v n']|] eqn:Eg;
    [|discriminate].
  cbn [bind fst snd]. apply breaks_get in Eg.
  destruct Eg as (a & b & -> & Hab). cbn [as_str bind].
  intros [= <- <-].
  exists pre, post, a, b. auto.
Qed.

(** One turn of the loop on a played token leaves the line alone or makes
    one change. *)
Lemma refine_note_step (st st' : Part.refine_state) (r : ascii) :
  index (Part.ref_rhythms st) (Part.i st) = Return r ->
  is_rest r = false ->
  Part.refine_note rnd pass_func aux_func breaks st r = Return st' ->
  (Part.ref_notes st', Part.ref_rhythms st')
  = (Part.ref_notes st, Part.ref_rhythms st)
  \/ refine_step (Part.ref_notes st, Part.ref_rhythms st)
                 (Part.ref_notes st', Part.ref_rhythms st').
Proof.
  intros Hi Hr. unfold Part.refine_note.
  destruct (index (Part.ref_notes st) (Part.note_num st)) as [n|];
    [|discriminate].
  cbn [bind].
  destruct (index (Part.ref_notes st) (S (Part.note_num st))) as [next|];
    [|discriminate].
  cbn [bind].
  destruct (n =? next).
  - destruct (aux_func (Part.reps st)) as [threshold|]; [|discriminate].
    cbn [bind]. destruct (Qlt_le_dec _ threshold).
    + destruct (Part.break_token rnd breaks _ _ r _) as [[rh' d']|] eqn:Eb;
        [|discriminate].
      cbn [bind fst snd]. intros [= <-].
      cbn [Part.ref_notes Part.ref_rhythms]. right.
      destruct (break_token_spec _ _ _ _ _ _ Hi Eb)
        as (pre & post & a & b & -> & -> & Hab).
      now apply step_split.
    + intros [= <-]. now left.
  - destruct (Z.abs (n - next) >? 1).
    + destruct (pass_func _ _) as [threshold|]; [|discriminate].
      cbn [bind]. destruct (Qlt_le_dec _ threshold).
      * destruct (Part.break_token rnd breaks _ _ r _) as [[rh' d']|] eqn:Eb;
          [|discriminate].
        cbn [bind fst snd]. intros [= <-].
      cbn [Part.ref_notes Part.ref_rhythms]. right.
        destruct (break_token_spec _ _ _ _ _ _ Hi Eb)
          as (pre & post & a & b & -> & -> & Hab).
        destruct (n >? next); now apply step_split.
      * intros [= <-]. now left.
    + intros [= <-]. now left.
Qed.

Lemma refine_loop_steps (fuel : nat) :
  forall st st',
    Part.refine_loop fuel rnd pass_func aux_func breaks st
    = Some (Return st') ->
    refine_steps (Part.ref_notes st, Part.ref_rhythms st)
                 (Part.ref_notes st', Part.ref_rhythms st').
Proof.
  induction fuel as [|fuel IH]; intros st st' H; [discriminate|].
  cbn [Part.refine_loop] in H.
  destruct (Part.i st <? length (Part.ref_rhythms st))%nat.
  2: { injection H as <-. constructor. }
  destruct (index (Part.ref_rhythms st) (Part.i st)) as [r|] eqn:Hi;
    [|discriminate].
  cbn [bind_fuel] in H.
  destruct (length (Part.ref_notes st) <=? Part.note_num st + 1)%nat.
  { injection H as <-. constructor. }
  destruct (is_rest r) eqn:Hr.
  - apply IH in H. exact H.
  - destruct (Part.refine_note rnd pass_func aux_func breaks st r)
      as [st1|] eqn:En; [|discriminate].
    cbn [bind_fuel] in H. apply IH in H.
    destruct (refine_note_step st st1 r Hi Hr En) as [E|Hstep].
    + now rewrite <- E.
    + eapply refine_steps_trans; [apply refine_steps_one; exact Hstep|].
      exact H.
Qed.

Lemma refine_end_steps (end_tonic : bool) (notes : list Z)
    (rhythms : list ascii) (draws : nat) (notes' : list Z)
    (rhythms' : list ascii) (draws' : nat) :
  Part.refine_end rnd end_tonic breaks notes rhythms draws
  = Return (notes', rhythms', draws') ->
  refine_steps (notes, rhythms) (notes', rhythms').
Proof.
  unfold Part.refine_end. destruct end_tonic.
  2: { intros [= <- <- _]. constructor. }
  destruct (index_last notes) as [final|]; [|discriminate]. cbn [bind].
  destruct (negb _).
  2: { intros [= <- <- _]. constructor. }
  destruct (index_last rhythms) as [r|] eqn:Hl; [|discriminate]. cbn [bind].
  apply index_last_In in Hl. destruct Hl as [pre ->].
  rewrite removelast_last.
  destruct (is_rest r) eqn:Hr.
  - intros [= <- <- _].
    eapply steps_then; [apply steps_refl|]. now apply step_wake.
  - destruct (Biases.get rnd draws breaks _ _) as [[v n']|] eqn:Eg;
      [|discriminate].
    cbn [bind fst snd]. apply breaks_get in Eg.
    destruct Eg as (a & b & -> & Hab). cbn [as_str bind].
    intros [= <- <- _].
    eapply steps_then; [apply steps_refl|].
    replace (notes ++ [_]) with
      (list_insert notes (length notes)
         (if (final - 1) mod 7 <? 4 then final - (final - 1) mod 7
          else final - (final - 1) mod 7 + 7)).
    + now apply step_split.
    + unfold list_insert. now rewrite firstn_all, skipn_all.
Qed.

End RefineSteps.

Lemma part_init_fields (notes : list Z) (rhythms : list ascii)
    (chd_lens : list value) (p : Part.t Z) :
  Part.__init__ notes rhythms chd_lens = Return p ->
  Part.notes p = notes /\ Part.rhythms p = rhythms.
Proof.
  unfold Part.__init__.
  destruct (match chd_lens with [] => _ | _ :: _ => _ end); [|discriminate].
  cbn [bind]. intros [= <-]. split; reflexivity.
Qed.

(** [refine] returns the line after a number of changes; [self] keeps its
    rhythm string, and shares the pitch list of the result unless that
    list was empty. *)
Lemma refine_changes (fuel : nat) (rnd : nat -> Q)
    (pass_func : Z -> Z -> result Q) (aux_func : Z -> result Q)
    (end_tonic : bool) (breaks : Biases.t) (self ref self' : Part.t Z) :
  break_table_ok breaks ->
  Part.refine fuel rnd pass_func aux_func end_tonic breaks self
  = Some (Return (ref, self')) ->
  refine_steps (Part.notes self, Part.rhythms self)
               (Part.notes ref, Part.rhythms ref)
  /\ (exists d, duration (Part.rhythms self) = Return d)
  /\ Part.rhythms self' = Part.rhythms self
  /\ (Part.notes self <> [] -> Part.notes self' = Part.notes ref).
Proof.
  intros Hok. unfold Part.refine.
  destruct (Part.__init__ (Part.notes self) (Part.rhythms self) [])
    as [p0|] eqn:E0; [|discriminate].
  cbn [bind_fuel].
  destruct (part_init_fields _ _ _ _ E0) as [Hn Hr]. rewrite Hn, Hr.
  destruct (Part.refine_loop fuel rnd pass_func aux_func breaks _)
    as [[st|]|] eqn:El; try discriminate.
  cbn [bind_fuel].
  destruct (Part.refine_end rnd end_tonic breaks _ _ _)
    as [[[notes' rhythms'] draws']|] eqn:Ee; [|discriminate].
  cbn [bind_fuel]. intros [= <- <-]. cbn [Part.notes Part.rhythms].
  apply (refine_loop_steps rnd pass_func aux_func breaks Hok) in El.
  apply (refine_end_steps rnd breaks Hok) in Ee. cbn in El.
  split.
  - eapply refine_steps_trans; eassumption.
  - split.
    + unfold Part.__init__ in E0.
      destruct (duration (Part.rhythms self)) as [d|]; [|discriminate].
      now exists d.
    + destruct (Part.notes self); [split; [reflexivity|congruence]|].
      split; reflexivity.
Qed.

(** ** The note-count invariant (C7) *)

Section ChordBackground.

Variables (fuel : nat) (ryths : list (list ascii))
          (min_pitch max_pitch repeat_mode : Z).

Lemma chord_background_loop_invariant :
  forall chds part reps i p,
    Part.invariant part -> cached ryths reps i ->
    Progression.chord_background_loop fuel ryths min_pitch max_pitch
      repeat_mode chds part reps i = Some (Return p) ->
    Part.invariant p.
Proof.
  induction chds as [|chd rest IH]; intros part reps i p Hinv [Hi Hreps] H.
  - cbn in H. now injection H as <-.
  - cbn [Progression.chord_background_loop] in H.
    destruct (index ryths i) as [ry|] eqn:Ery.
    2: { destruct (length reps <=? i)%nat; discriminate. }
    assert (exists reps',
               (if (length reps <=? i)%nat
                then ry0 <- Return ry ;; Return (reps ++ [count_notes ry0])
                else Return reps) = Return reps'
               /\ cached ryths reps' (S i)
               /\ index reps' i = Return (count_notes ry))
      as (reps' & E & Hc' & Hk).
    { unfold index in Ery.
      destruct (nth_error ryths i) as [ry'|] eqn:En; [|discriminate].
      injection Ery as ->.
      destruct (Nat.leb_spec (length reps) i) as [Hle|Hgt].
      - assert (i = length reps) as -> by lia.
        exists (reps ++ [count_notes ry]). split; [reflexivity|]. split.
        + split; [rewrite length_app; cbn; lia|].
          intros j k Hj. destruct (Nat.lt_ge_cases j (length reps)) as [Hlt|Hge].
          * rewrite nth_error_app1 in Hj by assumption. now apply Hreps.
          * rewrite nth_error_app2 in Hj by assumption.
            destruct (j - length reps)%nat as [|m] eqn:Ej; cbn in Hj.
            -- injection Hj as <-. assert (j = length reps) as -> by lia.
               now exists ry.
            -- now destruct m.
        + unfold index. rewrite nth_error_app2, Nat.sub_diag by lia.
          reflexivity.
      - exists reps. split; [reflexivity|]. split; [split; [lia|assumption]|].
        unfold index. destruct (nth_error reps i) as [k|] eqn:Ek.
        + destruct (Hreps _ _ Ek) as (ry' & Hry' & ->).
          rewrite En in Hry'. now injection Hry' as <-.
        + apply nth_error_None in Ek. lia. }
    rewrite E in H. cbn [bind_fuel] in H.
    destruct (Chord.get_pitches fuel chd min_pitch max_pitch repeat_mode)
      as [[voicing|]|]; try discriminate.
    cbn [bind_fuel] in H. rewrite Hk in H. cbn [bind_fuel] in H.
    eapply IH; [| |exact H].
    + unfold Part.invariant in *. cbn [Part.notes Part.rhythms].
      rewrite count_notes_app, length_app, repeat_length. lia.
    + destruct Hc' as [Hlen Hall]. split; [|assumption].
      destruct (length ryths) as [|n] eqn:El.
      * cbn. lia.
      * pose proof (Nat.mod_upper_bound (S i) (S n) ltac:(lia)).
        pose proof (Nat.Div0.mod_le (S i) (S n)). lia.
Qed.

End ChordBackground.

Section Skeleton.

Variables (rnd : nat -> Q) (ryths interval : Biases.t)
          (min_pitch max_pitch : Z) (intervals : list value).
Hypothesis ryths_ok : rhythm_table_ok ryths.

Lemma skeleton_chord_invariant (chd : Chord.t) (fuel : nat) :
  forall rem st st',
    counted st ->
    Progression.skeleton_chord fuel rnd chd ryths interval min_pitch max_pitch
      intervals rem st = Some (Return st') ->
    counted st'.
Proof.
  induction fuel as [|fuel IH]; intros rem st st' Hc H; [discriminate|].
  cbn [Progression.skeleton_chord] in H.
  destruct (truthy rem); [|now injection H as <-].
  destruct (Biases.get rnd _ ryths _ [rem]) as [[v n']|] eqn:Eg;
    [|discriminate].
  cbn [bind_fuel fst snd] in H.
  apply get_single in Eg. destruct Eg as (t0 & row & H0 & Hl & Hin & _).
  destruct (ryths_ok t0 rem row v H0 Hl Hin) as [a ->].
  cbn [as_str bind_fuel] in H.
  rewrite index_last_snoc in H. cbn [bind_fuel] in H.
  destruct (is_rest a) eqn:Ha; cbn [negb] in H.
  - cbn [bind_fuel] in H.
    destruct (NOTE_LENS a); [|discriminate]. cbn [bind_fuel] in H.
    destruct (as_num rem); [|discriminate]. cbn [bind_fuel] in H.
    eapply IH; [|exact H].
    unfold counted in *. cbn [Progression.sk_ryth Progression.sk_notes].
    rewrite count_notes_app, count_notes_cons, Ha. cbn. lia.
  - destruct (Biases.get rnd n' interval _ intervals) as [[w n'']|];
      [|discriminate].
    cbn [bind fst snd] in H.
    destruct (as_int w) as [next_interval|]; [|discriminate].
    cbn [bind] in H.
    destruct (Progression.skeleton_note chd _ next_interval _ _) as [note|];
      [|discriminate].
    cbn [bind bind_fuel] in H.
    destruct (NOTE_LENS a); [|discriminate]. cbn [bind_fuel] in H.
    destruct (as_num rem); [|discriminate]. cbn [bind_fuel] in H.
    eapply IH; [|exact H].
    unfold counted in *. cbn [Progression.sk_ryth Progression.sk_notes].
    rewrite count_notes_app, count_notes_cons, Ha, length_app. cbn. lia.
Qed.

Lemma skeleton_loop_invariant (fuel : nat) (meter : Z) (chd_len : Biases.t) :
  forall chds st st',
    counted st ->
    Progression.skeleton_loop fuel rnd meter chd_len ryths interval
      min_pitch max_pitch intervals chds st = Some (Return st') ->
    counted st'.
Proof.
  induction chds as [|chd rest IH]; intros st st' Hc H.
  - cbn in H. now injection H as <-.
  - cbn [Progression.skeleton_loop] in H.
    destruct (duration (Progression.sk_ryth st)); [|discriminate].
    cbn [bind_fuel] in H.
    destruct (py_mod _ _); [|discriminate]. cbn [bind_fuel] in H.
    destruct (Biases.get rnd _ chd_len _ _) as [[rem n']|]; [|discriminate].
    cbn [bind_fuel fst snd] in H.
    destruct (Progression.skeleton_chord fuel rnd chd ryths interval _ _ _ _ _)
      as [[st1|]|] eqn:Ec; try discriminate.
    cbn [bind_fuel] in H.
    apply skeleton_chord_invariant in Ec; [|exact Hc].
    eapply IH; eassumption.
Qed.

End Skeleton.

(** [skeleton] under the contract of its rhythm sampler. *)
Lemma skeleton_invariant (fuel : nat) (rnd : nat -> Q) (self : Progression.t)
    (meter : Z) (chd_len ryths : Biases.t) (min_pitch max_pitch : Z)
    (interval : Biases.t) (p : Part.t Z) :
  rhythm_table_ok ryths ->
  Progression.skeleton fuel rnd self meter chd_len ryths min_pitch max_pitch
    interval = Some (Return p) ->
  Part.invariant p.
Proof.
  intros Hok. unfold Progression.skeleton.
  destruct (Progression.skeleton_loop _ _ _ _ _ _ _ _ _ _ _)
    as [[st|]|] eqn:El; try discriminate.
  cbn [bind_fuel]. intros [= H].
  apply part_init_fields in H. destruct H as [Hn Hr].
  unfold Part.invariant. rewrite Hn, Hr.
  eapply skeleton_loop_invariant in El; [exact El|exact Hok|reflexivity].
Qed.

(** [refine] under the contract of its break table. *)
Lemma refine_invariant (fuel : nat) (rnd : nat -> Q)
    (pass_func : Z -> Z -> result Q) (aux_func : Z -> result Q)
    (end_tonic : bool) (breaks : Biases.t) (self ref self' : Part.t Z) :
  break_table_ok breaks -> Part.invariant self ->
  Part.refine fuel rnd pass_func aux_func end_tonic breaks self
  = Some (Return (ref, self')) ->
  Part.invariant ref.
Proof.
  intros Hok Hinv H.
  destruct (refine_changes _ _ _ _ _ _ _ _ _ Hok H) as (Hs & _).
  apply refine_steps_count in Hs; assumption.
Qed.

(** C7: a part returned by [chord_background], a part returned by
    [skeleton] with a rhythm sampler whose outcomes are single tokens, and
    the part returned by [refine], with a break table whose outcomes are
    pairs of played tokens of the same total duration, from a part that
    satisfies it, all satisfy the invariant: as many played tokens in the
    rhythm string as entries in [notes].  The module's tables [RYTH] and
    [BREAKS] are such tables. *)
Theorem C7_played_tokens_match_notes :
  (forall fuel self rhythm min_pitch max_pitch repeat_mode p,
      Progression.chord_background fuel self rhythm min_pitch max_pitch
        repeat_mode = Some (Return p) ->
      Part.invariant p)
  /\ (forall fuel rnd self meter chd_len ryths min_pitch max_pitch interval p,
         rhythm_table_ok ryths ->
         Progression.skeleton fuel rnd self meter chd_len ryths
           min_pitch max_pitch interval = Some (Return p) ->
         Part.invariant p)
  /\ (forall fuel rnd pass_func aux_func end_tonic breaks self ref self',
         break_table_ok breaks ->
         Part.invariant self ->
         Part.refine fuel rnd pass_func aux_func end_tonic breaks self
         = Some (Return (ref, self')) ->
         Part.invariant ref)
  /\ rhythm_table_ok RYTH
  /\ break_table_ok BREAKS.
Proof.
  split; [|split; [|split; [|split]]].
  - intros fuel self rhythm min_pitch max_pitch repeat_mode p H.
    unfold Progression.chord_background in H.
    eapply chord_background_loop_invariant; [| |exact H].
    + reflexivity.
    + split; [cbn; lia|]. intros [|j] k Hj; discriminate.
  - intros. eapply skeleton_invariant; eassumption.
  - intros. eapply refine_invariant; eassumption.
  - exact RYTH_ok.
  - exact BREAKS_ok.
Qed.

(** ** Part.refine returns (C3) *)

Section Choices.

Lemma bisect_le (a : list Q) (x : Q) (hi : nat) : (bisect a x hi <= hi)%nat.
Proof.
  revert a. induction hi as [|hi IH]; intros [|y a]; cbn; try lia.
  destruct (Qlt_le_dec x y); [lia|]. specialize (IH a). lia.
Qed.

Lemma choices_total {A : Type} (u : Q) (population : list A)
    (weights : list Q) (total : Q) :
  (length (accumulate weights) =? length population)%nat = true ->
  index_last (accumulate weights) = Return total ->
  Qle_bool total 0 = false ->
  population <> [] ->
  exists a, choices u population weights = Return a.
Proof.
  intros Hlen Hlast Htot Hne. unfold choices.
  rewrite Hlen, Hlast. cbn [negb bind]. rewrite Htot.
  unfold index.
  destruct (nth_error population _) as [a|] eqn:E; [now exists a|].
  apply nth_error_None in E.
  pose proof (bisect_le (accumulate weights) (u * total)
                        (length population - 1)).
  destruct population; [contradiction|]. cbn [length] in *. lia.
Qed.

Lemma random_lt_1 (rnd : nat -> Q) (n : nat) : (random rnd n < 1)%Q.
Proof.
  unfold random.
  pose proof (Qlt_floor (rnd n)) as H.
  rewrite inject_Z_plus in H.
  apply (Qplus_lt_l _ _ (inject_Z (Qfloor (rnd n)))).
  ring_simplify. exact H.
Qed.

End Choices.

Section BreaksTotal.

Lemma BREAKS_closed : forall t0 r row v,
    index (Biases.biases BREAKS) 0 = Return t0 ->
    lookup t0 (Str [r]) = Some row -> In v (keys row) ->
    exists a b, v = Str [a; b] /\ In a break_domain /\ In b break_domain.
Proof.
  intros t0 r row v [= <-] Hl Hin.
  destruct r as [b0 b1 b2 b3 b4 b5 b6 b7].
  destruct b0, b1, b2, b3, b4, b5, b6, b7; cbn in Hl; try discriminate;
    injection Hl as <-; cbn in Hin;
    repeat (destruct Hin as [<-|Hin]; [| ]); try contradiction;
    (eexists _, _; split; [reflexivity|]; split; cbn; tauto).
Qed.

(** On a token of its domain, [BREAKS.get] returns a pair of tokens of the
    domain, whatever the draw. *)
Lemma BREAKS_get_total (rnd : nat -> Q) (n : nat) (r : ascii) :
  In r break_domain ->
  exists a b,
    Biases.get rnd n BREAKS Biases.deg_rate_default [Str [r]]
    = Return (Str [a; b], S n)
    /\ In a break_domain /\ In b break_domain.
Proof.
  intros Hr.
  assert (exists v, Biases.get rnd n BREAKS Biases.deg_rate_default [Str [r]]
                    = Return (v, S n)) as [v Hv].
  { unfold Biases.get.
    cbn in Hr.
    repeat (destruct Hr as [<-|Hr]; [| ]); try contradiction;
      (match goal with
       | |- context [Biases.get_probs ?s ?d ?c] =>
           let p := eval vm_compute in (Biases.get_probs s d c) in
           change (Biases.get_probs s d c) with p
       end);
      cbn [bind];
      (match goal with
       | |- context [choices ?u ?pop ?w] =>
           destruct (choices_total u pop w
                       (match index_last (accumulate w) with
                        | Return t => t
                        | Raise _ => 0%Q
                        end))
             as [a Ha];
           [reflexivity|reflexivity|reflexivity|discriminate|]
       end);
      rewrite Ha; cbn [bind]; eexists; reflexivity. }
  pose proof Hv as Hv'. apply get_single in Hv'.
  destruct Hv' as (t0 & row & H0 & Hl & Hin & _).
  destruct (BREAKS_closed t0 r row v H0 Hl Hin) as (a & b & -> & Ha & Hb).
  now exists a, b.
Qed.

Lemma breakable_duration (ry : list ascii) :
  Forall breakable ry -> exists d, duration ry = Return d.
Proof.
  assert (forall acc, Forall breakable ry ->
                      exists d, duration_from acc ry = Return d) as H.
  { induction ry as [|r ry IH]; intros acc Hall; cbn.
    - now exists acc.
    - inversion Hall as [|? ? Hr Hrest]; subst.
      assert (exists len, NOTE_LENS r = Return len) as [len ->].
      { destruct Hr as [Hr|Hr].
        - destruct r as [b0 b1 b2 b3 b4 b5 b6 b7].
          destruct b0, b1, b2, b3, b4, b5, b6, b7; try discriminate Hr;
            eexists; reflexivity.
        - cbn in Hr.
          repeat (destruct Hr as [<-|Hr]; [eexists; reflexivity|]).
          contradiction. }
      cbn [bind]. now apply IH. }
  apply H.
Qed.

End BreaksTotal.

Section RefineTotal.

Variables (rnd : nat -> Q) (pass_func : Z -> Z -> result Q)
          (aux_func : Z -> result Q) (reach : Z -> Prop).
Hypothesis pass_ok : pass_func_ok pass_func.
Hypothesis reach_0 : reach 0.
Hypothesis reach_1 : reach 1.
Hypothesis reach_next :
  forall n, reach n ->
            exists q, aux_func n = Return q /\ ((q < 1)%Q -> reach (n + 1)).

Lemma two_ahead {A : Type} (l : list A) (k : nat) :
  (k + 1 < length l)%nat ->
  exists front a b back, l = front ++ a :: b :: back /\ length front = k.
Proof.
  intros H.
  destruct (nth_error l k) as [a|] eqn:Ea;
    [|apply nth_error_None in Ea; lia].
  apply nth_error_split in Ea. destruct Ea as (front & rest & -> & Hk).
  destruct rest as [|b back].
  - rewrite length_app in H. cbn in H. lia.
  - now exists front, a, b, back.
Qed.

Lemma index_middle_next {A : Type} (pre : list A) (x y : A) (post : list A) :
  index (pre ++ x :: y :: post) (S (length pre)) = Return y.
Proof.
  change (pre ++ x :: y :: post) with (pre ++ [x] ++ y :: post).
  rewrite app_assoc.
  replace (S (length pre)) with (length (pre ++ [x]))
    by (rewrite length_app; cbn; lia).
  apply index_middle.
Qed.

Lemma insert_middle {A : Type} (pre : list A) (x y z : A) (post : list A) :
  list_insert (pre ++ x :: y :: post) (S (length pre)) z
  = (pre ++ [x]) ++ z :: y :: post.
Proof.
  unfold list_insert.
  change (pre ++ x :: y :: post) with (pre ++ [x] ++ y :: post).
  rewrite app_assoc.
  replace (S (length pre)) with (length (pre ++ [x]))
    by (rewrite length_app; cbn; lia).
  now rewrite firstn_length_app, skipn_length_app.
Qed.

Lemma gap_passing (n next : Z) :
  1 < Z.abs (n - next) ->
  (gap (if n >? next then n - 1 else n + 1) next < gap n next)%nat.
Proof.
  intros H. unfold gap.
  destruct (Z.eqb_spec n next) as [->|_]; [lia|].
  destruct (Z.gtb_spec n next).
  - destruct (Z.eqb_spec (n - 1) next); lia.
  - destruct (Z.eqb_spec (n + 1) next); lia.
Qed.

Lemma gap_auxiliary (n x : Z) :
  x = n + 1 \/ x = n - 1 -> (gap x n < gap n n)%nat.
Proof.
  intros H. unfold gap. rewrite Z.eqb_refl.
  destruct (Z.eqb_spec x n); lia.
Qed.

Lemma break_token_total (rhythms : list ascii) (i : nat) (r : ascii)
    (draws : nat) :
  index rhythms i = Return r -> In r break_domain ->
  Forall breakable rhythms ->
  exists rhythms',
    Part.break_token rnd BREAKS rhythms i r draws
    = Return (rhythms', S draws)
    /\ Forall breakable rhythms'
    /\ length rhythms' = S (length rhythms).
Proof.
  intros Hi Hr Hall. unfold Part.break_token.
  destruct (index_split _ _ _ Hi) as (pre & post & -> & <-).
  rewrite firstn_length_app, skipn_middle.
  destruct (BREAKS_get_total rnd draws r Hr) as (a & b & -> & Ha & Hb).
  cbn [bind fst snd as_str].
  eexists. split; [reflexivity|].
  apply Forall_app in Hall. destruct Hall as [Hpre Hpost].
  inversion Hpost; subst. split.
  - apply Forall_app. split; [assumption|].
    cbn [app]. constructor; [now right|].
    constructor; [now right|assumption].
  - rewrite !length_app. cbn. lia.
Qed.

(** A turn on a played token returns, and leaves less work. *)
Lemma refine_note_total (st : Part.refine_state) (r : ascii) :
  index (Part.ref_rhythms st) (Part.i st) = Return r ->
  In r break_domain ->
  Forall breakable (Part.ref_rhythms st) ->
  (Part.note_num st + 1 < length (Part.ref_notes st))%nat ->
  reach (Part.reps st) ->
  exists st',
    Part.refine_note rnd pass_func aux_func BREAKS st r = Return st'
    /\ Forall breakable (Part.ref_rhythms st')
    /\ reach (Part.reps st')
    /\ (work st' < work st)%nat.
Proof.
  intros Hi Hr Hall Hlen Hreach.
  assert (Part.i st < length (Part.ref_rhythms st))%nat as Hilt.
  { unfold index in Hi.
    destruct (nth_error (Part.ref_rhythms st) (Part.i st)) eqn:E;
      [|discriminate].
    apply nth_error_Some. congruence. }
  destruct (two_ahead _ _ Hlen) as (front & n & next & back & Hnotes & Hk).
  unfold Part.refine_note, work.
  rewrite Hnotes, <- Hk, index_middle, index_middle_next. cbn [bind].
  assert (skipn (length front) (front ++ n :: next :: back)
          = n :: next :: back) as Hskip by apply skipn_length_app.
  assert (skipn (S (length front)) (front ++ n :: next :: back)
          = next :: back) as Hskip' by apply skipn_middle.
  assert (forall z,
             skipn (S (length front)) ((front ++ [n]) ++ z :: next :: back)
             = z :: next :: back) as Hskip''.
  { intros z. replace (S (length front)) with (length (front ++ [n]))
      by (rewrite length_app; cbn; lia).
    apply skipn_length_app. }
  rewrite Hskip.
  destruct (Z.eqb_spec n next) as [->|Hne].
  - destruct (reach_next _ Hreach) as (q & -> & Hq). cbn [bind].
    destruct (Qlt_le_dec (random rnd (Part.draws st)) q) as [Hlt|Hge].
    + destruct (break_token_total _ _ _ (S (S (Part.draws st))) Hi Hr Hall)
        as (rh' & -> & Hall' & Hlen').
      cbn [bind fst snd]. eexists. split; [reflexivity|].
      cbn [Part.ref_rhythms Part.ref_notes Part.reps Part.i Part.note_num].
      split; [assumption|]. split; [assumption|].
      rewrite insert_middle, Hskip'', Hlen'.
      set (x := if Qlt_le_dec (1 # 2) (random rnd (S (Part.draws st)))
                then next + 1 else next - 1).
      assert (gap x next < gap next next)%nat as Hg.
      { apply gap_auxiliary. subst x.
        destruct (Qlt_le_dec _ _); [now left|now right]. }
      cbn [gaps]. cbn [gaps] in Hg. lia.
    + eexists. split; [reflexivity|].
      cbn [Part.ref_rhythms Part.ref_notes Part.reps Part.i Part.note_num].
      split; [assumption|]. split.
      * apply Hq. eapply Qle_lt_trans; [exact Hge|apply random_lt_1].
      * rewrite Hskip'. cbn [gaps]. lia.
  - destruct (Z.gtb_spec (Z.abs (n - next)) 1) as [Hleap|Hstep].
    + destruct (pass_ok (Part.steps st) (Part.leaps st)) as [q ->].
      cbn [bind].
      destruct (Qlt_le_dec (random rnd (Part.draws st)) q) as [Hlt|Hge].
      * destruct (break_token_total _ _ _ (S (Part.draws st)) Hi Hr Hall)
          as (rh' & -> & Hall' & Hlen').
        cbn [bind fst snd]. eexists. split; [reflexivity|].
        cbn [Part.ref_rhythms Part.ref_notes Part.reps Part.i Part.note_num].
        split; [assumption|]. split; [assumption|].
        pose proof (gap_passing n next ltac:(lia)) as Hg.
        destruct (n >? next); rewrite insert_middle, Hskip'', Hlen';
          cbn [gaps]; lia.
      * eexists. split; [reflexivity|].
        cbn [Part.ref_rhythms Part.ref_notes Part.reps Part.i Part.note_num].
        split; [assumption|]. split; [assumption|].
        rewrite Hskip'. cbn [gaps]. lia.
    + eexists. split; [reflexivity|].
      cbn [Part.ref_rhythms Part.ref_notes Part.reps Part.i Part.note_num].
      split; [assumption|]. split; [assumption|].
      rewrite Hskip'. cbn [gaps]. lia.
Qed.

(** With more fuel than work, the loop returns. *)
Lemma refine_loop_total (fuel : nat) :
  forall st,
    (work st < fuel)%nat ->
    Forall breakable (Part.ref_rhythms st) ->
    reach (Part.reps st) ->
    exists st',
      Part.refine_loop fuel rnd pass_func aux_func BREAKS st
      = Some (Return st')
      /\ Forall breakable (Part.ref_rhythms st').
Proof.
  induction fuel as [|fuel IH]; intros st Hw Hall Hreach; [lia|].
  cbn [Part.refine_loop].
  destruct (Nat.ltb_spec (Part.i st) (length (Part.ref_rhythms st)))
    as [Hi|Hi]; [|now exists st].
  unfold index.
  destruct (nth_error (Part.ref_rhythms st) (Part.i st)) as [r|] eqn:Er;
    [|apply nth_error_None in Er; lia].
  cbn [bind_fuel].
  destruct (Nat.leb_spec (length (Part.ref_notes st)) (Part.note_num st + 1))
    as [Hn|Hn]; [now exists st|].
  destruct (is_rest r) eqn:Hr.
  - apply IH; cbn [Part.ref_rhythms Part.reps]; try assumption.
    unfold work in *.
    cbn [Part.ref_rhythms Part.ref_notes Part.i Part.note_num]. lia.
  - assert (In r break_domain) as Hdom.
    { rewrite Forall_forall in Hall.
      destruct (Hall r (nth_error_In _ _ Er)) as [H|H]; [congruence|exact H]. }
    assert (index (Part.ref_rhythms st) (Part.i st) = Return r) as Hidx
      by (unfold index; now rewrite Er).
    destruct (refine_note_total st r Hidx Hdom Hall Hn Hreach)
      as (st1 & -> & Hall1 & Hreach1 & Hw1).
    cbn [bind_fuel]. apply IH; try assumption. lia.
Qed.

(** The closing step returns on a line that has a pitch and a token. *)
Lemma refine_end_total (end_tonic : bool) (notes : list Z)
    (rhythms : list ascii) (draws : nat) :
  notes <> [] -> rhythms <> [] -> Forall breakable rhythms ->
  exists out, Part.refine_end rnd end_tonic BREAKS notes rhythms draws
              = Return out.
Proof.
  intros Hn Hr Hall. unfold Part.refine_end.
  destruct end_tonic; [|eexists; reflexivity].
  destruct (exists_last Hn) as (ns & final & ->).
  rewrite index_last_snoc. cbn [bind].
  destruct (negb _); [|eexists; reflexivity].
  destruct (exists_last Hr) as (rs & r & ->).
  rewrite index_last_snoc. cbn [bind].
  destruct (is_rest r) eqn:Hrest; [eexists; reflexivity|].
  apply Forall_app in Hall. destruct Hall as [_ Hlast].
  inversion Hlast as [|? ? [H|H] _]; subst; [congruence|].
  destruct (BREAKS_get_total rnd draws r H) as (a & b & -> & _).
  cbn [bind fst snd as_str]. eexists; reflexivity.
Qed.

End RefineTotal.

Lemma refine_steps_nonempty (l l' : list Z * list ascii) :
  refine_steps l l' -> fst l <> [] -> snd l <> [] ->
  fst l' <> [] /\ snd l' <> [].
Proof.
  induction 1 as [|l l' l'' _ IH Hstep]; intros Hn Hr; [now split|].
  destruct (refine_step_count _ _ Hstep) as [H1 H2].
  split.
  - intros E. rewrite E in H2. discriminate.
  - intros E. rewrite E in H1. discriminate.
Qed.

(** The default [aux_func] is never called on 6: at 5 its threshold is 1
    and a tone is inserted, which sets the count back to 1. *)
Lemma aux_func_default_ok : aux_func_ok Part.aux_func_default.
Proof.
  exists (fun n => 0 <= n <= 5). split; [lia|]. split; [lia|].
  intros n Hn.
  assert (n = 0 \/ n = 1 \/ n = 2 \/ n = 3 \/ n = 4 \/ n = 5)
    as [->|[->|[->|[->|[->| ->]]]]] by lia;
    (eexists; split; [reflexivity|]); intros Hq; try lia.
  compute in Hq. discriminate.
Qed.

(** [refine] returns, given enough fuel, on a line of breakable tokens that
    has a pitch and a token. *)
Lemma refine_total (rnd : nat -> Q) (pass_func : Z -> Z -> result Q)
    (aux_func : Z -> result Q) (end_tonic : bool) (self : Part.t Z) :
  Forall breakable (Part.rhythms self) ->
  Part.notes self <> [] -> Part.rhythms self <> [] ->
  pass_func_ok pass_func -> aux_func_ok aux_func ->
  exists fuel ref self',
    Part.refine fuel rnd pass_func aux_func end_tonic BREAKS self
    = Some (Return (ref, self')).
Proof.
  intros Hall Hn Hr Hpass (reach & H0 & H1 & Hnext).
  destruct (breakable_duration _ Hall) as [d Hd].
  set (st0 := {| Part.ref_notes := Part.notes self;
                 Part.ref_rhythms := Part.rhythms self;
                 Part.reps := 0; Part.steps := 0; Part.leaps := 0;
                 Part.note_num := 0; Part.i := 0; Part.draws := 0 |}).
  set (fuel := S (work st0)).
  destruct (refine_loop_total rnd pass_func aux_func reach Hpass H0 H1 Hnext
              fuel st0) as (st & Hloop & Hall');
    [subst fuel st0; unfold work; cbn; lia|exact Hall|exact H0|].
  pose proof (refine_loop_steps rnd pass_func aux_func BREAKS BREAKS_ok
                fuel st0 st Hloop) as Hsteps.
  destruct (refine_steps_nonempty _ _ Hsteps Hn Hr) as [Hn' Hr'].
  cbn [fst snd] in Hn', Hr'.
  destruct (refine_end_total rnd end_tonic (Part.ref_notes st)
              (Part.ref_rhythms st) (Part.draws st) Hn' Hr' Hall')
    as [[[notes' rhythms'] draws'] Hend].
  exists fuel. unfold Part.refine, Part.__init__. rewrite Hd.
  cbn [bind bind_fuel Part.notes Part.rhythms].
  fold st0. rewrite Hloop. cbn [bind_fuel]. rewrite Hend. cbn [bind_fuel].
  eexists _, _. reflexivity.
Qed.

(** C3: with the module's break table, whenever [refine] returns a part
    its rhythm lasts exactly as long as the rhythm of the original part,
    whatever the draws; and it does return, given enough fuel, on every
    line that has a pitch and a token and whose tokens are rests or lie in
    the domain of the break table, when [pass_func] and [aux_func] do not
    raise. *)
Theorem C3_refine_keeps_duration (rnd : nat -> Q)
    (pass_func : Z -> Z -> result Q) (aux_func : Z -> result Q)
    (end_tonic : bool) (self : Part.t Z) :
  (forall fuel ref self',
      Part.refine fuel rnd pass_func aux_func end_tonic BREAKS self
      = Some (Return (ref, self')) ->
      exists d, lasts (Part.rhythms self) d /\ lasts (Part.rhythms ref) d)
  /\ (Forall breakable (Part.rhythms self) ->
      Part.notes self <> [] -> Part.rhythms self <> [] ->
      pass_func_ok pass_func -> aux_func_ok aux_func ->
      exists fuel ref self',
        Part.refine fuel rnd pass_func aux_func end_tonic BREAKS self
        = Some (Return (ref, self'))).
Proof.
  split.
  - intros fuel ref self' H.
    destruct (refine_changes _ _ _ _ _ _ _ _ _ BREAKS_ok H)
      as (Hsteps & [d Hd] & _).
    assert (lasts (Part.rhythms self) d) as Hl
      by (exists d; split; [assumption|reflexivity]).
    exists d. split; [assumption|].
    apply (refine_steps_duration _ _ d Hsteps Hl).
  - apply refine_total.
Qed.

Lemma C3_witness :
  exists ref self',
    Part.refine 40 draws_37 (fun _ _ => Return 1%Q) Part.aux_func_default
                true BREAKS line_1151 = Some (Return (ref, self'))
    /\ exists d, lasts (Part.rhythms line_1151) d
                 /\ lasts (Part.rhythms ref) d.
Proof.
  eexists _, _. split; [vm_compute; reflexivity|].
  eapply (proj1 (C3_refine_keeps_duration draws_37 (fun _ _ => Return 1%Q)
                   Part.aux_func_default true line_1151) 40%nat).
  vm_compute. reflexivity.
Defined.

Lemma C7_witness :
  exists ref self',
    Progression.skeleton 30 draws_37 progression_I_IV_V 4 CHD_LEN RYTH 1 11
                         INTERVALS = Some (Return skeleton_line)
    /\ Part.invariant skeleton_line
    /\ Part.refine 60 draws_37 (fun _ _ => Return 1%Q) Part.aux_func_default
                   true BREAKS skeleton_line = Some (Return (ref, self'))
    /\ Part.invariant ref.
Proof.
  destruct C7_played_tokens_match_notes as (_ & Hsk & Href & Hry & Hbr).
  assert (Progression.skeleton 30 draws_37 progression_I_IV_V 4 CHD_LEN RYTH
            1 11 INTERVALS = Some (Return skeleton_line)) as Erun
    by (vm_compute; reflexivity).
  pose proof (Hsk _ _ _ _ _ _ _ _ _ _ Hry Erun) as Hinv.
  eexists _, _.
  split; [exact Erun|]. split; [exact Hinv|].
  split; [vm_compute; reflexivity|].
  eapply (Href 60%nat draws_37 (fun _ _ => Return 1%Q) Part.aux_func_default
               true BREAKS skeleton_line); [exact Hbr|exact Hinv|].
  vm_compute. reflexivity.
Defined.

(** C7, as the claim words it, fails twice.  With a rhythm sampler that
    has an outcome of two tokens, [skeleton] adds one pitch for the two and
    returns three played tokens with two pitches.  And [refine] leaves the
    part it is called on with its old rhythm string and the pitch list of
    the result: four played tokens with eleven pitches. *)
Lemma C7_counterexample :
  (Progression.skeleton 10 (fun _ => 0%Q) progression_I 4 CHD_LEN ryths_hh
     1 11 INTERVALS = Some (Return line_hhh)
   /\ ~ Part.invariant line_hhh)
  /\ (exists ref self',
        Part.refine 40 draws_37 (fun _ _ => Return 1%Q) Part.aux_func_default
          true BREAKS line_1151 = Some (Return (ref, self'))
        /\ Part.invariant line_1151
        /\ count_notes (Part.rhythms self') = 4%nat
        /\ length (Part.notes self') = 11%nat
        /\ ~ Part.invariant self').
Proof.
  split.
  - split; [vm_compute; reflexivity|]. unfold Part.invariant. cbn. lia.
  - eexists _, _. split; [vm_compute; reflexivity|].
    split; [reflexivity|]. split; [reflexivity|]. split; [reflexivity|].
    unfold Part.invariant. cbn. lia.
Qed.

(** * Further properties of the code *)

(** ** Chord: normal form, equality and hashing *)

(** X1: the constructor puts a chord in normal form.  The first pitch is
    the least pitch of the collection, every pitch lies in the octave that
    starts there, the pitches ascend, and the scale intervals start at 0,
    stay below 7 and ascend. *)
Theorem chord_init_normal_form (ps : list Z) (c : Chord.t)
    (Hc : Chord.__init__ ps = Return c) :
  exists root rest ivs,
    Chord.pitches c = root :: rest
    /\ In root ps /\ Forall (fun p => root <= p) ps
    /\ Forall (fun p => root <= p < root + 7) (Chord.pitches c)
    /\ StronglySorted Z.le (Chord.pitches c)
    /\ Chord.scale_intervals c = Return (0 :: ivs)
    /\ Forall (fun x => 0 <= x < 7) (0 :: ivs)
    /\ StronglySorted Z.le (0 :: ivs).
Proof.
  destruct (init_pitches ps c Hc) as (root & _ & Hin & Hmin & _ & Hp).
  destruct (init_normal ps c Hc) as (root' & rest & Ec & Hband & Hs).
  assert (root' = root) as ->.
  { assert (In root (Chord.pitches c)) as H1.
    { eapply Permutation_in; [symmetry; exact Hp|].
      apply in_map_iff. exists root. split; [|assumption].
      replace (root - root) with 0 by lia. reflexivity. }
    assert (In root' (map (fun p => (p - root) mod 7 + root) (set_of ps)))
      as H2 by (eapply Permutation_in; [exact Hp|rewrite Ec; now left]).
    apply in_map_iff in H2. destruct H2 as (x & Hx & _).
    pose proof (Z.mod_pos_bound (x - root) 7 ltac:(lia)).
    rewrite Ec in H1, Hs.
    pose proof (strongly_sorted_head_min rest root' root Hs H1). lia. }
  exists root, rest, (map (fun p => p - root) rest).
  split; [exact Ec|].
  split; [unfold set_of in Hin; now apply nodup_In in Hin|].
  split.
  { apply Forall_forall. intros p Hp'. rewrite Forall_forall in Hmin.
    apply Hmin. unfold set_of. now apply nodup_In. }
  split; [exact Hband|]. split; [exact Hs|].
  split.
  { unfold Chord.scale_intervals. rewrite Ec. cbn [index nth_error bind map].
    now replace (root - root) with 0 by lia. }
  rewrite Ec in Hband, Hs.
  replace (0 :: map (fun p => p - root) rest)
    with (map (fun p => p + - root) (root :: rest)).
  - split.
    + apply Forall_map. eapply Forall_impl; [|exact Hband]. cbn. intros; lia.
    + now apply strongly_sorted_shift.
  - cbn [map]. replace (root + - root) with 0 by lia.
    f_equal.
Qed.

Lemma chord_init_normal_form_witness :
  Chord.__init__ [10; 1; 5; 8] = Return {| Chord.pitches := [1; 1; 3; 5] |}
  /\ exists root rest ivs,
       [1; 1; 3; 5] = root :: rest
       /\ In root [10; 1; 5; 8] /\ Forall (fun p => root <= p) [10; 1; 5; 8]
       /\ Forall (fun p => root <= p < root + 7) [1; 1; 3; 5]
       /\ StronglySorted Z.le [1; 1; 3; 5]
       /\ Chord.scale_intervals {| Chord.pitches := [1; 1; 3; 5] |}
          = Return (0 :: ivs)
       /\ Forall (fun x => 0 <= x < 7) (0 :: ivs)
       /\ StronglySorted Z.le (0 :: ivs).
Proof.
  split; [reflexivity|].
  apply (chord_init_normal_form [10; 1; 5; 8]
                                {| Chord.pitches := [1; 1; 3; 5] |}).
  reflexivity.
Defined.

(** X2: the constructor keeps the pitch classes and the number of distinct
    pitches.  Every pitch of the collection has an octave equivalent in the
    chord and conversely; the chord has one pitch for each distinct pitch
    of the collection, so two pitches an octave apart give a repeated
    pitch. *)
Theorem chord_init_keeps_pitch_classes (ps : list Z) (c : Chord.t)
    (Hc : Chord.__init__ ps = Return c) :
  (forall p, In p ps -> exists q, In q (Chord.pitches c) /\ (q - p) mod 7 = 0)
  /\ (forall q, In q (Chord.pitches c) ->
                exists p, In p ps /\ (q - p) mod 7 = 0)
  /\ length (Chord.pitches c) = length (set_of ps).
Proof.
  destruct (init_pitches ps c Hc) as (root & _ & _ & _ & _ & Hp).
  split; [|split].
  - intros p Hin.
    exists ((p - root) mod 7 + root). split.
    + eapply Permutation_in; [symmetry; exact Hp|].
      apply in_map_iff. exists p. split; [reflexivity|].
      unfold set_of. now apply nodup_In.
    + Z.to_euclidean_division_equations. lia.
  - intros q Hq.
    apply (Permutation_in _ Hp) in Hq. apply in_map_iff in Hq.
    destruct Hq as (p & <- & Hin). exists p. split.
    + unfold set_of in Hin. now apply nodup_In in Hin.
    + Z.to_euclidean_division_equations. lia.
  - rewrite (Permutation_length Hp). apply length_map.
Qed.

Lemma chord_init_keeps_pitch_classes_witness :
  Chord.__init__ [1; 8] = Return {| Chord.pitches := [1; 1] |}
  /\ (forall p, In p [1; 8] -> exists q, In q [1; 1] /\ (q - p) mod 7 = 0)
  /\ (forall q, In q [1; 1] -> exists p, In p [1; 8] /\ (q - p) mod 7 = 0)
  /\ length [1; 1] = length (set_of [1; 8]).
Proof.
  split; [reflexivity|].
  apply (chord_init_keeps_pitch_classes [1; 8] {| Chord.pitches := [1; 1] |}).
  reflexivity.
Defined.

Section ChordHash.

Variables (c d : Chord.t) (a0 b0 : Z).
Hypothesis Ha : index (Chord.pitches c) 0 = Return a0.
Hypothesis Hb : index (Chord.pitches d) 0 = Return b0.

Lemma hashed_tuple_eq :
  hashed_tuple c = hashed_tuple d <->
  length (Chord.pitches c) = length (Chord.pitches d)
  /\ a0 mod 7 = b0 mod 7
  /\ Chord.scale_intervals c = Chord.scale_intervals d.
Proof.
  unfold hashed_tuple, Chord.scale_intervals. rewrite Ha, Hb. cbn [bind].
  destruct (Chord.pitches c) as [|a ta]; [discriminate|].
  destruct (Chord.pitches d) as [|b tb]; [discriminate|].
  cbn in Ha, Hb. injection Ha as ->. injection Hb as ->.
  split.
  - intros H.
    assert (a0 mod 7 = b0 mod 7) as Hm.
    { cbn [map] in H. injection H as H _. lia. }
    split; [|split; [exact Hm|]].
    + apply (f_equal (@length Z)) in H. now rewrite !length_map in H.
    + f_equal.
      apply (f_equal (map (fun x => x - a0 mod 7))) in H.
      rewrite !map_map in H.
      erewrite map_ext in H; [rewrite H|intros; cbv beta; lia].
      apply map_ext. intros; lia.
  - intros (_ & Hm & H0).
    assert (map (fun p => p - a0) (a0 :: ta)
            = map (fun p => p - b0) (b0 :: tb)) as H by congruence.
    apply (f_equal (map (fun x => x + a0 mod 7))) in H.
    rewrite !map_map in H.
    erewrite map_ext; [rewrite H|intros; cbv beta; lia].
    apply map_ext. intros; lia.
Qed.

Lemma hash_of_tuple (tuple_hash : list Z -> Z) :
  Chord.__hash__ tuple_hash c = Return (tuple_hash (hashed_tuple c)).
Proof.
  unfold Chord.__hash__, hashed_tuple. rewrite Ha. cbn [bind].
  destruct (Chord.pitches c); [discriminate|].
  cbn in Ha. now injection Ha as ->.
Qed.

Lemma eq_iff_hashed :
  Chord.__eq__ c d = Return true <-> hashed_tuple c = hashed_tuple d.
Proof.
  destruct (eq_spec c d a0 b0 Ha Hb) as (b & Hb1 & Hb2).
  rewrite hashed_tuple_eq, <- Hb2, Hb1.
  split; [now intros [= ->]|now intros ->].
Qed.

End ChordHash.

(** X3: equality and hashing agree.  Two chords that have pitches compare
    equal exactly when the tuples that [__hash__] hashes are the same
    tuple; so chords that compare equal hash equal, whatever the hash of a
    tuple is. *)
Theorem chord_eq_iff_same_hashed_tuple (tuple_hash : list Z -> Z)
    (c d : Chord.t) (a0 b0 : Z)
    (Ha : index (Chord.pitches c) 0 = Return a0)
    (Hb : index (Chord.pitches d) 0 = Return b0) :
  (Chord.__eq__ c d = Return true <-> hashed_tuple c = hashed_tuple d)
  /\ (Chord.__eq__ c d = Return true ->
      Chord.__hash__ tuple_hash c = Chord.__hash__ tuple_hash d)
  /\ (exists b, Chord.__eq__ c d = Return b).
Proof.
  destruct (eq_spec c d a0 b0 Ha Hb) as (b & Hb1 & _).
  pose proof (eq_iff_hashed c d a0 b0 Ha Hb) as Hiff.
  split; [exact Hiff|]. split; [|now exists b].
  intros H. apply Hiff in H.
  rewrite (hash_of_tuple c a0 Ha), (hash_of_tuple d b0 Hb). now rewrite H.
Qed.

Lemma chord_eq_iff_same_hashed_tuple_witness :
  index [2; 4; 6] 0 = Return 2 /\ index [9; 11; 13] 0 = Return 9
  /\ (Chord.__eq__ {| Chord.pitches := [2; 4; 6] |}
                   {| Chord.pitches := [9; 11; 13] |} = Return true
      <-> hashed_tuple {| Chord.pitches := [2; 4; 6] |}
          = hashed_tuple {| Chord.pitches := [9; 11; 13] |})
  /\ (Chord.__eq__ {| Chord.pitches := [2; 4; 6] |}
                   {| Chord.pitches := [9; 11; 13] |} = Return true ->
      Chord.__hash__ (fold_right Z.add 0) {| Chord.pitches := [2; 4; 6] |}
      = Chord.__hash__ (fold_right Z.add 0)
                       {| Chord.pitches := [9; 11; 13] |})
  /\ (exists b, Chord.__eq__ {| Chord.pitches := [2; 4; 6] |}
                             {| Chord.pitches := [9; 11; 13] |} = Return b).
Proof.
  split; [reflexivity|]. split; [reflexivity|].
  apply (chord_eq_iff_same_hashed_tuple _ _ _ 2 9); reflexivity.
Defined.

(** X4: on chords that have pitches, [__eq__] is an equivalence: every
    chord equals itself, and equality is symmetric and transitive. *)
Theorem chord_eq_is_equivalence (c d e : Chord.t) (a0 b0 c0 : Z)
    (Ha : index (Chord.pitches c) 0 = Return a0)
    (Hb : index (Chord.pitches d) 0 = Return b0)
    (Hc : index (Chord.pitches e) 0 = Return c0) :
  Chord.__eq__ c c = Return true
  /\ (Chord.__eq__ c d = Return true -> Chord.__eq__ d c = Return true)
  /\ (Chord.__eq__ c d = Return true -> Chord.__eq__ d e = Return true ->
      Chord.__eq__ c e = Return true).
Proof.
  pose proof (eq_iff_hashed c c a0 a0 Ha Ha) as Hcc.
  pose proof (eq_iff_hashed c d a0 b0 Ha Hb) as Hcd.
  pose proof (eq_iff_hashed d c b0 a0 Hb Ha) as Hdc.
  pose proof (eq_iff_hashed d e b0 c0 Hb Hc) as Hde.
  pose proof (eq_iff_hashed c e a0 c0 Ha Hc) as Hce.
  split; [now apply Hcc|]. split.
  - intros H. apply Hdc. symmetry. now apply Hcd.
  - intros H1 H2. apply Hce.
    transitivity (hashed_tuple d); [now apply Hcd|now apply Hde].
Qed.

Lemma chord_eq_is_equivalence_witness :
  index [1; 3; 5] 0 = Return 1 /\ index [8; 10; 12] 0 = Return 8
  /\ index [15; 17; 19] 0 = Return 15
  /\ Chord.__eq__ {| Chord.pitches := [1; 3; 5] |}
                  {| Chord.pitches := [1; 3; 5] |} = Return true
  /\ (Chord.__eq__ {| Chord.pitches := [1; 3; 5] |}
                   {| Chord.pitches := [8; 10; 12] |} = Return true ->
      Chord.__eq__ {| Chord.pitches := [8; 10; 12] |}
                   {| Chord.pitches := [1; 3; 5] |} = Return true)
  /\ (Chord.__eq__ {| Chord.pitches := [1; 3; 5] |}
                   {| Chord.pitches := [8; 10; 12] |} = Return true ->
      Chord.__eq__ {| Chord.pitches := [8; 10; 12] |}
                   {| Chord.pitches := [15; 17; 19] |} = Return true ->
      Chord.__eq__ {| Chord.pitches := [1; 3; 5] |}
                   {| Chord.pitches := [15; 17; 19] |} = Return true).
Proof.
  split; [reflexivity|]. split; [reflexivity|]. split; [reflexivity|].
  apply (chord_eq_is_equivalence _ _ _ 1 8 15); reflexivity.
Defined.

(** ** Chord._next_pitch *)

Section NextPitch.

Lemma list_index_In (xs : list Z) (v : Z) :
  In v xs ->
  exists i, list_index xs v = Return i /\ nth_error xs i = Some v.
Proof.
  induction xs as [|x xs IH]; intros Hin; [destruct Hin|].
  cbn [list_index]. destruct (Z.eqb_spec x v) as [->|Hne].
  - now exists 0%nat.
  - destruct Hin as [->|Hin]; [contradiction|].
    destruct (IH Hin) as (i & -> & Hi). now exists (S i).
Qed.

Lemma list_index_nodup (xs : list Z) (i : nat) (v : Z) :
  NoDup xs -> nth_error xs i = Some v -> list_index xs v = Return i.
Proof.
  revert i. induction xs as [|x xs IH]; intros i Hnd Hi.
  - now destruct i.
  - inversion Hnd as [|? ? Hx Hnd']; subst. cbn [list_index].
    destruct i as [|i]; cbn in Hi.
    + injection Hi as ->. now rewrite Z.eqb_refl.
    + destruct (Z.eqb_spec x v) as [->|_].
      * apply nth_error_In in Hi. contradiction.
      * now rewrite (IH i Hnd' Hi).
Qed.

Variable c : Chord.t.
Hypothesis Hn : normal c.

(** [nearest] returns a pitch whose interval above the root is an interval
    of the chord. *)
Lemma nearest_lands (p : Z) :
  exists root r mi,
    index (Chord.pitches c) 0 = Return root
    /\ Chord.nearest c p = Return r
    /\ In (root + mi) (Chord.pitches c) /\ 0 <= mi < 7
    /\ (r - root) mod 7 = mi.
Proof.
  destruct (nearest_normal c p Hn) as (root & mi & H0 & Hin & Hmi & Hmin & Hr).
  assert (In root (Chord.pitches c)) as Hroot.
  { destruct Hn as (root' & rest & Ec & _). rewrite Ec in *.
    cbn in H0. injection H0 as <-. now left. }
  pose proof (Hmin root Hroot) as Hmin0. cbn zeta in Hmin0.
  set (mo := (p - root) mod 7) in *.
  assert (0 <= mo < 7) as Hmo by (apply Z.mod_pos_bound; lia).
  exists root, (p + (if 7 <? 2 * Z.abs (mi - mo) then mi - mo + 7
                     else mi - mo)), mi.
  repeat (split; [assumption || lia|]).
  assert ((if 7 <? 2 * Z.abs (mi - mo) then mi - mo + 7 else mi - mo)
          = mi - mo
          \/ (if 7 <? 2 * Z.abs (mi - mo) then mi - mo + 7 else mi - mo)
             = mi - mo + 7) as Hcong
    by (destruct (7 <? 2 * Z.abs (mi - mo)); auto).
  subst mo. clear - Hmi Hcong.
  destruct Hcong as [-> | ->]; Z.to_euclidean_division_equations; lia.
Qed.

(** [nearest] leaves a pitch of a chord class where it is. *)
Lemma nearest_fixed (root r mi : Z) :
  index (Chord.pitches c) 0 = Return root ->
  In (root + mi) (Chord.pitches c) -> 0 <= mi < 7 ->
  (r - root) mod 7 = mi ->
  Chord.nearest c r = Return r.
Proof.
  intros H0 Hin Hmi Hclass.
  destruct (nearest_normal c r Hn)
    as (root' & mi' & H0' & Hin' & Hmi' & Hmin' & Hr').
  rewrite H0 in H0'. injection H0' as <-.
  rewrite Hr'. specialize (Hmin' (root + mi) Hin). cbn zeta in Hmin'.
  rewrite Hclass in *. cbn zeta. f_equal.
  destruct (Z.ltb_spec 7 (2 * Z.abs (mi' - mi))); lia.
Qed.

(** [_next_pitch] computed from the position of the snapped pitch. *)
Lemma next_pitch_at (p k root r mi d : Z) (ix : nat) :
  index (Chord.pitches c) 0 = Return root ->
  Chord.nearest c p = Return r ->
  (r - root) mod 7 = mi ->
  list_index (map (fun q => q - root) (Chord.pitches c)) mi = Return ix ->
  index (map (fun q => q - root) (Chord.pitches c))
        (Z.to_nat ((Z.of_nat ix + k)
                   mod Z.of_nat (length (Chord.pitches c)))) = Return d ->
  Chord._next_pitch c p k
  = Return (d + r - mi
            + 7 * ((Z.of_nat ix + k) / Z.of_nat (length (Chord.pitches c)))).
Proof.
  intros H0 Hr Hclass Hix Hd.
  unfold Chord._next_pitch, Chord.scale_intervals.
  rewrite Hr, H0. cbn [bind]. rewrite Hclass, Hix. cbn [bind].
  rewrite length_map, Hd. reflexivity.
Qed.

End NextPitch.

(** X5: on a constructed chord [_next_pitch] never raises and always lands
    on a chord tone: the result is congruent modulo 7 to a pitch of the
    chord; and a step of 0 is [nearest]. *)
Theorem next_pitch_lands_on_chord_tone (ps : list Z) (c : Chord.t)
    (previous change : Z) (Hc : Chord.__init__ ps = Return c) :
  (exists r m, Chord._next_pitch c previous change = Return r
               /\ In m (Chord.pitches c) /\ (r - m) mod 7 = 0)
  /\ Chord._next_pitch c previous 0 = Chord.nearest c previous.
Proof.
  pose proof (init_normal ps c Hc) as Hn.
  destruct (nearest_lands c Hn previous)
    as (root & r & mi & H0 & Hr & Hin & Hmi & Hclass).
  set (deltas := map (fun q => q - root) (Chord.pitches c)).
  assert (In mi deltas) as Hmi_in.
  { apply in_map_iff. exists (root + mi). split; [lia|assumption]. }
  destruct (list_index_In deltas mi Hmi_in) as (ix & Hix & Hnth).
  assert (ix < length (Chord.pitches c))%nat as Hlt.
  { assert (nth_error deltas ix <> None) as H by congruence.
    apply nth_error_Some in H. subst deltas. now rewrite length_map in H. }
  set (n := Z.of_nat (length (Chord.pitches c))) in *.
  assert (0 < n) as Hpos by lia.
  assert (forall k, exists d m,
             index deltas (Z.to_nat ((Z.of_nat ix + k) mod n)) = Return d
             /\ In m (Chord.pitches c) /\ d = m - root) as Hsel.
  { intros k. pose proof (Z.mod_pos_bound (Z.of_nat ix + k) n Hpos) as Hb.
    unfold index.
    destruct (nth_error deltas (Z.to_nat ((Z.of_nat ix + k) mod n)))
      as [d|] eqn:Ed.
    - apply nth_error_In in Ed. apply in_map_iff in Ed.
      destruct Ed as (m & <- & Hm). now exists (m - root), m.
    - apply nth_error_None in Ed. subst deltas. rewrite length_map in Ed.
      lia. }
  split.
  - destruct (Hsel change) as (d & m & Hd & Hm & ->).
    exists (m - root + r - mi + 7 * ((Z.of_nat ix + change) / n)), m.
    split; [|split; [exact Hm|]].
    + now apply (next_pitch_at c previous change root r mi (m - root) ix).
    + clear - Hclass Hmi. Z.to_euclidean_division_equations. lia.
  - rewrite Hr.
    rewrite (next_pitch_at c previous 0 root r mi mi ix H0 Hr Hclass Hix).
    + f_equal. fold n. rewrite Z.add_0_r, Z.div_small by lia. lia.
    + fold n. rewrite Z.add_0_r, Z.mod_small, Nat2Z.id by lia.
      unfold index. fold deltas. now rewrite Hnth.
Qed.

Lemma next_pitch_lands_on_chord_tone_witness :
  Chord.__init__ [1; 3; 5] = Return {| Chord.pitches := [1; 3; 5] |}
  /\ (exists r m,
         Chord._next_pitch {| Chord.pitches := [1; 3; 5] |} 2 (-4) = Return r
         /\ In m [1; 3; 5] /\ (r - m) mod 7 = 0)
  /\ Chord._next_pitch {| Chord.pitches := [1; 3; 5] |} 2 0
     = Chord.nearest {| Chord.pitches := [1; 3; 5] |} 2.
Proof.
  split; [reflexivity|].
  apply (next_pitch_lands_on_chord_tone [1; 3; 5]
           {| Chord.pitches := [1; 3; 5] |}).
  reflexivity.
Defined.

(** X6: on a constructed chord without repeated pitches, steps compose:
    stepping [a] chord tones and then [b] from the result is stepping
    [a + b] at once. *)
Theorem next_pitch_steps_compose (ps : list Z) (c : Chord.t)
    (previous a b r : Z)
    (Hc : Chord.__init__ ps = Return c)
    (Hnd : NoDup (Chord.pitches c))
    (Hr : Chord._next_pitch c previous a = Return r) :
  Chord._next_pitch c r b = Chord._next_pitch c previous (a + b).
Proof.
  pose proof (init_normal ps c Hc) as Hn.
  destruct (nearest_lands c Hn previous)
    as (root & r0 & mi & H0 & Hr0 & Hin & Hmi & Hclass).
  set (deltas := map (fun q => q - root) (Chord.pitches c)).
  assert (NoDup deltas) as Hnd'.
  { apply Finite.Injective_map_NoDup; [|assumption]. intros x y Hxy. lia. }
  assert (forall m, In m (Chord.pitches c) -> 0 <= m - root < 7) as Hband.
  { destruct Hn as (root' & rest & Ec & Hb & _). rewrite Ec in H0.
    cbn in H0. injection H0 as <-. rewrite Forall_forall in Hb.
    intros m Hm. specialize (Hb m Hm). lia. }
  assert (In mi deltas) as Hmi_in.
  { apply in_map_iff. exists (root + mi). split; [lia|assumption]. }
  destruct (list_index_In deltas mi Hmi_in) as (ix & Hix & Hnth).
  assert (ix < length (Chord.pitches c))%nat as Hlt.
  { assert (nth_error deltas ix <> None) as H by congruence.
    apply nth_error_Some in H. subst deltas. now rewrite length_map in H. }
  set (n := Z.of_nat (length (Chord.pitches c))) in *.
  assert (0 < n) as Hpos by lia.
  assert (forall j, 0 <= j < n ->
             exists d, nth_error deltas (Z.to_nat j) = Some d
                       /\ In (root + d) (Chord.pitches c) /\ 0 <= d < 7)
    as Hsel.
  { intros j Hj.
    destruct (nth_error deltas (Z.to_nat j)) as [d|] eqn:Ed.
    - exists d. split; [reflexivity|].
      apply nth_error_In in Ed. apply in_map_iff in Ed.
      destruct Ed as (m & <- & Hm).
      split; [now replace (root + (m - root)) with m by lia|now apply Hband].
    - apply nth_error_None in Ed. subst deltas. rewrite length_map in Ed.
      lia. }
  set (j1 := (Z.of_nat ix + a) mod n).
  assert (0 <= j1 < n) as Hj1 by (apply Z.mod_pos_bound; lia).
  destruct (Hsel j1 Hj1) as (d1 & Hd1 & Hin1 & Hb1).
  assert (r = d1 + r0 - mi + 7 * ((Z.of_nat ix + a) / n)) as Er.
  { rewrite (next_pitch_at c previous a root r0 mi d1 ix H0 Hr0 Hclass Hix)
      in Hr.
    - now injection Hr as <-.
    - fold n. fold j1. unfold index. fold deltas. now rewrite Hd1. }
  assert ((r - root) mod 7 = d1) as Hclass1.
  { rewrite Er. clear - Hclass Hb1. Z.to_euclidean_division_equations. lia. }
  pose proof (nearest_fixed c Hn root r d1 H0 Hin1 Hb1 Hclass1) as Hfix.
  pose proof (list_index_nodup deltas (Z.to_nat j1) d1 Hnd' Hd1) as Hix1.
  set (j2 := (Z.of_nat ix + (a + b)) mod n).
  assert (0 <= j2 < n) as Hj2 by (apply Z.mod_pos_bound; lia).
  destruct (Hsel j2 Hj2) as (d2 & Hd2 & _ & _).
  assert ((Z.of_nat (Z.to_nat j1) + b) mod n = j2) as Hmod.
  { rewrite Z2Nat.id by lia. subst j1 j2.
    rewrite Zplus_mod_idemp_l. f_equal. lia. }
  assert ((Z.of_nat ix + a) / n + (Z.of_nat (Z.to_nat j1) + b) / n
          = (Z.of_nat ix + (a + b)) / n) as Hdiv.
  { rewrite Z2Nat.id by lia. subst j1.
    pose proof (Z.div_mod (Z.of_nat ix + a) n ltac:(lia)) as Hdm.
    replace (Z.of_nat ix + (a + b))
      with ((Z.of_nat ix + a) / n * n + ((Z.of_nat ix + a) mod n + b))
      by lia.
    rewrite Z.div_add_l by lia. reflexivity. }
  rewrite (next_pitch_at c r b root r d1 d2 (Z.to_nat j1) H0 Hfix Hclass1 Hix1).
  - rewrite (next_pitch_at c previous (a + b) root r0 mi d2 ix H0 Hr0 Hclass
               Hix).
    + f_equal. fold n. rewrite Er at 1. rewrite <- Hdiv. lia.
    + fold n. fold j2. unfold index. fold deltas. now rewrite Hd2.
  - fold n. rewrite Hmod. unfold index. fold deltas. now rewrite Hd2.
Qed.

Lemma next_pitch_steps_compose_witness :
  Chord.__init__ [1; 3; 5] = Return {| Chord.pitches := [1; 3; 5] |}
  /\ NoDup [1; 3; 5]
  /\ Chord._next_pitch {| Chord.pitches := [1; 3; 5] |} 2 4 = Return 10
  /\ Chord._next_pitch {| Chord.pitches := [1; 3; 5] |} 10 (-6)
     = Chord._next_pitch {| Chord.pitches := [1; 3; 5] |} 2 (4 + -6).
Proof.
  split; [reflexivity|].
  assert (NoDup [1; 3; 5]) as Hnd.
  { repeat constructor; cbn; intros H; repeat destruct H as [H|H];
      try discriminate; assumption. }
  split; [exact Hnd|]. split; [reflexivity|].
  apply (next_pitch_steps_compose [1; 3; 5] {| Chord.pitches := [1; 3; 5] |});
    [reflexivity|exact Hnd|reflexivity].
Defined.

(** ** Chord.get_pitches *)

Section GetPitches.

Variables (self : Chord.t) (p0 min_pitch max_pitch repeat_mode : Z).
Hypothesis root_first : index (Chord.pitches self) 0 = Return p0.
Hypothesis root_least : Forall (fun p => p0 <= p < p0 + 7) (Chord.pitches self).

Lemma index_z_In {A : Type} (l : list A) (i : Z) (a : A) :
  index_z l i = Return a -> In a l.
Proof.
  unfold index_z. destruct (i <? 0).
  - destruct (i + Z.of_nat (length l) <? 0); [discriminate|apply index_In].
  - apply index_In.
Qed.

Lemma removelast_snoc {A : Type} (l : list A) (a : A) :
  removelast (l ++ [a]) = l.
Proof. apply removelast_last. Qed.

(** The ascending loop keeps the first pitch, keeps every pitch at or above
    [min_pitch], and lets only the last pitch reach its bound. *)
Lemma get_pitches_up_spec (bound : Z) (fuel : nat) :
  forall i md res out,
    Chord.get_pitches_up fuel self repeat_mode bound i md res
    = Some (Return out) ->
    min_pitch <= p0 + md ->
    Forall (fun p => min_pitch <= p) res ->
    Forall (fun p => p < bound) (removelast res) ->
    Forall (fun p => min_pitch <= p) out
    /\ Forall (fun p => p < bound) (removelast out)
    /\ hd_error out = hd_error res.
Proof.
  induction fuel as [|fuel IH]; intros i md res out H Hmd Hlo Hhi;
    [discriminate|].
  cbn [Chord.get_pitches_up] in H.
  destruct (index_last res) as [last|] eqn:El; [|discriminate].
  cbn [bind_fuel] in H.
  apply index_last_In in El. destruct El as [l ->].
  rewrite removelast_snoc in Hhi.
  destruct (Z.ltb_spec last bound) as [Hlt|Hge].
  2: { injection H as <-. rewrite removelast_snoc. auto. }
  destruct ((Z.land repeat_mode 3 =? 0)
            && (i + 1 =? Z.of_nat (length (Chord.pitches self)))).
  { injection H as <-. rewrite removelast_snoc. auto. }
  destruct ((Z.land repeat_mode 2 =? 0)
            && (i + 1 >? Z.of_nat (length (Chord.pitches self)))).
  { injection H as <-. rewrite removelast_snoc. auto. }
  rewrite root_first in H. cbn [bind_fuel] in H.
  match type of H with
  | context [index (Chord.pitches self) ?k] =>
      destruct (index (Chord.pitches self) k) as [p|] eqn:Ep; [|discriminate]
  end.
  cbn [bind_fuel] in H.
  apply index_In in Ep.
  rewrite Forall_forall in root_least. specialize (root_least p Ep).
  assert (min_pitch <= last) as Hlast.
  { rewrite Forall_forall in Hlo. apply Hlo. apply in_or_app. right. now left. }
  apply IH in H.
  - destruct H as (H1 & H2 & H3). split; [assumption|]. split; [assumption|].
    rewrite H3. now destruct l.
  - destruct ((i + 1) mod Z.of_nat (length (Chord.pitches self)) =? 0).
    + pose proof (Z.mod_pos_bound ((p0 - 1) mod 7 - (last - 1) mod 7) 7
                    ltac:(lia)). lia.
    + exact Hmd.
  - apply Forall_app. split; [assumption|]. constructor; [|constructor].
    destruct ((i + 1) mod Z.of_nat (length (Chord.pitches self)) =? 0).
    + pose proof (Z.mod_pos_bound ((p0 - 1) mod 7 - (last - 1) mod 7) 7
                    ltac:(lia)). lia.
    + lia.
  - rewrite removelast_snoc. apply Forall_app. split; [assumption|].
    now constructor.
Qed.

(** The popping loop returns what is left of the list from the far end. *)
Lemma get_pitches_pop_spec :
  forall rres out,
    Chord.get_pitches_pop self repeat_mode p0 rres = Return out ->
    exists dropped, rres = dropped ++ out.
Proof.
  induction rres as [|last rest IH]; intros out H;
    cbn [Chord.get_pitches_pop] in H.
  - destruct (Z.land repeat_mode 3 =? 3); [discriminate|].
    injection H as <-. now exists [].
  - destruct (Z.land repeat_mode 3 =? 3).
    + match type of H with
      | (if ?b then _ else _) = _ => destruct b
      end.
      * destruct (IH out H) as [dropped ->]. now exists (last :: dropped).
      * injection H as <-. now exists [].
    + injection H as <-. now exists [].
Qed.

(** The descending loop keeps every pitch at or below the upper bound and
    lets only the first pitch fall below [min_pitch]. *)
Lemma get_pitches_down_spec (bass : Z) (fuel : nat) :
  bass - 1 <= max_pitch ->
  forall i res out,
    Chord.get_pitches_down fuel self repeat_mode min_pitch bass p0 i res
    = Some (Return out) ->
    Forall (fun p => p <= max_pitch) res ->
    Forall (fun p => min_pitch <= p) (tl res) ->
    (exists x, hd_error res = Some x /\ min_pitch <= x) \/ tl res <> [] ->
    Forall (fun p => p <= max_pitch) out
    /\ Forall (fun p => min_pitch <= p) (tl out)
    /\ ((exists x, hd_error out = Some x /\ min_pitch <= x) \/ tl out <> []).
Proof.
  intros Hbass.
  induction fuel as [|fuel IH]; intros i res out H Hhi Hlo Hne;
    [discriminate|].
  cbn [Chord.get_pitches_down] in H.
  destruct (Z.land repeat_mode 4 =? 0); [injection H as <-; auto|].
  destruct res as [|first res']; [discriminate|].
  cbn [index nth_error bind_fuel] in H.
  destruct (Z.gtb_spec first min_pitch) as [Hgt|Hle];
    [|injection H as <-; auto].
  destruct (index_z (Chord.pitches self) i) as [p|] eqn:Ep; [|discriminate].
  cbn [bind_fuel] in H. apply index_z_In in Ep.
  rewrite Forall_forall in root_least. specialize (root_least p Ep).
  apply IH in H; [exact H| | |].
  - constructor; [lia|assumption].
  - cbn [tl] in *. constructor; [lia|assumption].
  - right. cbn. discriminate.
Qed.

End GetPitches.

(** X7: a voicing stays in its range.  Whenever [get_pitches] returns on a
    constructed chord, the list is not empty and every pitch of it lies in
    [min_pitch, max_pitch], whatever the repeat mode. *)
Theorem get_pitches_in_range (ps : list Z) (c : Chord.t) (fuel : nat)
    (min_pitch max_pitch repeat_mode : Z) (res : list Z)
    (Hc : Chord.__init__ ps = Return c)
    (Hres : Chord.get_pitches fuel c min_pitch max_pitch repeat_mode
            = Some (Return res)) :
  res <> [] /\ Forall (fun p => min_pitch <= p <= max_pitch) res.
Proof.
  destruct (init_normal ps c Hc) as (p0 & rest & Ec & Hband & _).
  assert (index (Chord.pitches c) 0 = Return p0) as H0 by now rewrite Ec.
  unfold Chord.get_pitches in Hres. rewrite H0 in Hres.
  cbn [bind_fuel] in Hres.
  set (bass := ((p0 - 1) mod 7 - (min_pitch - 1) mod 7) mod 7 + min_pitch)
    in *.
  assert (min_pitch <= bass < min_pitch + 7) as Hbass.
  { subst bass.
    pose proof (Z.mod_pos_bound ((p0 - 1) mod 7 - (min_pitch - 1) mod 7) 7
                  ltac:(lia)). lia. }
  destruct (index_last (Chord.pitches c)) as [top|]; [|discriminate].
  cbn [bind_fuel] in Hres.
  set (bound := if Z.land repeat_mode 3 =? 0
                then Z.min max_pitch (top + (bass - p0))
                else if Z.land repeat_mode 3 =? 1
                     then Z.min max_pitch
                            ((p0 - top) mod 7 + top + (bass - p0))
                     else max_pitch) in *.
  assert (bound <= max_pitch) as Hbound.
  { subst bound. destruct (Z.land repeat_mode 3 =? 0); [lia|].
    destruct (Z.land repeat_mode 3 =? 1); lia. }
  destruct (Chord.get_pitches_up fuel c repeat_mode bound 0 (bass - p0) [bass])
    as [[up|]|] eqn:Eup; try discriminate.
  cbn [bind_fuel] in Hres.
  destruct (get_pitches_up_spec c p0 min_pitch repeat_mode H0 Hband bound fuel
              0 (bass - p0) [bass] up Eup)
    as (Hup_lo & Hup_hi & Hup_hd); [lia|repeat constructor; lia|constructor|].
  destruct (index_last up) as [last|] eqn:El; [|discriminate].
  cbn [bind_fuel] in Hres.
  apply index_last_In in El. destruct El as [l ->].
  rewrite removelast_snoc in Hup_hi.
  set (res1 := if last >? bound then removelast (l ++ [last])
               else l ++ [last]) in *.
  assert (Forall (fun p => min_pitch <= p <= max_pitch) res1
          /\ (res1 = [] \/ hd_error res1 = Some bass)) as [Hres1 Hhd1].
  { apply Forall_app in Hup_lo. destruct Hup_lo as [Hl Hlast].
    inversion Hlast as [|? ? Hlast' _]; subst.
    assert (Forall (fun p => min_pitch <= p <= max_pitch) l) as Hl'.
    { rewrite Forall_forall in *. intros x Hx.
      specialize (Hl x Hx). specialize (Hup_hi x Hx). lia. }
    subst res1. destruct (Z.gtb_spec last bound).
    - rewrite removelast_snoc. split; [assumption|].
      destruct l; [now left|right; exact Hup_hd].
    - split; [|right; exact Hup_hd].
      apply Forall_app. split; [assumption|]. repeat constructor; lia. }
  destruct (Chord.get_pitches_pop c repeat_mode p0 (rev res1)) as [rres|] eqn:Ep;
    [|discriminate].
  cbn [bind_fuel] in Hres.
  destruct (get_pitches_pop_spec c p0 repeat_mode (rev res1) rres Ep)
    as [dropped Hd].
  assert (res1 = rev rres ++ rev dropped) as Eres1.
  { rewrite <- (rev_involutive res1), Hd, rev_app_distr. reflexivity. }
  destruct (Chord.get_pitches_down fuel c repeat_mode min_pitch bass p0 (-1)
              (rev rres)) as [[down|]|] eqn:Ed; try discriminate.
  cbn [bind_fuel] in Hres.
  destruct down as [|first down']; [discriminate|].
  cbn [index nth_error bind_fuel] in Hres.
  assert (Forall (fun p => min_pitch <= p <= max_pitch) (rev rres)) as Hres2.
  { rewrite Eres1 in Hres1. now apply Forall_app in Hres1. }
  assert (rev rres <> []) as Hne2.
  { intros E. rewrite E in Ed. destruct fuel; [discriminate|].
    cbn in Ed. destruct (Z.land repeat_mode 4 =? 0); discriminate. }
  assert (hd_error (rev rres) = Some bass) as Hhd2.
  { destruct Hhd1 as [E|Hhd1].
    - rewrite E in Eres1. symmetry in Eres1.
      apply app_eq_nil in Eres1. destruct Eres1. contradiction.
    - rewrite Eres1 in Hhd1. destruct (rev rres); [contradiction|].
      exact Hhd1. }
  assert (bass - 1 <= max_pitch) as Hbm.
  { destruct (rev rres) as [|x xs]; [discriminate|].
    injection Hhd2 as ->. inversion Hres2; subst. lia. }
  destruct (get_pitches_down_spec c p0 min_pitch max_pitch repeat_mode Hband
              bass fuel Hbm (-1) (rev rres) (first :: down') Ed)
    as (Hhi & Hlo & Hne).
  - eapply Forall_impl; [|exact Hres2]. cbn. intros; lia.
  - destruct (rev rres) as [|x xs]; [constructor|].
    inversion Hres2 as [|? ? _ Hxs]; subst. cbn [tl].
    eapply Forall_impl; [|exact Hxs]. cbn. intros; lia.
  - left. exists bass. split; [assumption|lia].
  - cbn [tl hd_error] in *. injection Hres as <-.
    inversion Hhi as [|? ? Hfirst Hhi']; subst.
    destruct (Z.ltb_spec first min_pitch) as [Hlt|Hge].
    + cbn [tl]. split.
      * destruct Hne as [(x & [= <-] & Hx)|Hne]; [lia|assumption].
      * rewrite Forall_forall in *. intros x Hx.
        specialize (Hlo x Hx). specialize (Hhi' x Hx). lia.
    + split; [discriminate|].
      constructor; [lia|].
      rewrite Forall_forall in *. intros x Hx.
      specialize (Hlo x Hx). specialize (Hhi' x Hx). lia.
Qed.

Lemma get_pitches_in_range_witness :
  Chord.__init__ [1; 3; 5] = Return {| Chord.pitches := [1; 3; 5] |}
  /\ Chord.get_pitches 20 {| Chord.pitches := [1; 3; 5] |} (-16) (-6) 1
     = Some (Return [-13; -11; -9; -6])
  /\ [-13; -11; -9; -6] <> []
  /\ Forall (fun p => -16 <= p <= -6) [-13; -11; -9; -6].
Proof.
  split; [reflexivity|]. split; [reflexivity|].
  apply (get_pitches_in_range [1; 3; 5] {| Chord.pitches := [1; 3; 5] |}
                              20%nat (-16) (-6) 1); reflexivity.
Defined.

(** X8: a range that cannot hold the bass is an error.  The bass is the
    root moved to the lowest octave at or above [min_pitch]; when
    [max_pitch] is below it, and so whenever [max_pitch < min_pitch],
    [get_pitches] raises [IndexError] in every repeat mode. *)
Theorem get_pitches_range_too_small (c : Chord.t) (p0 : Z) (fuel : nat)
    (min_pitch max_pitch repeat_mode : Z)
    (H0 : index (Chord.pitches c) 0 = Return p0)
    (Hmax : max_pitch
            < ((p0 - 1) mod 7 - (min_pitch - 1) mod 7) mod 7 + min_pitch
            \/ max_pitch < min_pitch) :
  Chord.get_pitches (S fuel) c min_pitch max_pitch repeat_mode
  = Some (Raise IndexError).
Proof.
  unfold Chord.get_pitches. rewrite H0. cbn [bind_fuel].
  set (bass := ((p0 - 1) mod 7 - (min_pitch - 1) mod 7) mod 7 + min_pitch)
    in *.
  assert (max_pitch < bass) as Hlt.
  { subst bass.
    pose proof (Z.mod_pos_bound ((p0 - 1) mod 7 - (min_pitch - 1) mod 7) 7
                  ltac:(lia)). lia. }
  destruct (index_last (Chord.pitches c)) as [top|] eqn:Etop.
  2: { unfold index_last in Etop. unfold index in H0.
       destruct (Chord.pitches c) as [|x xs]; [discriminate|].
       cbn in Etop. destruct (rev xs ++ [x]) eqn:E; [|discriminate].
       now apply app_eq_nil in E. }
  cbn [bind_fuel].
  set (bound := if Z.land repeat_mode 3 =? 0
                then Z.min max_pitch (top + (bass - p0))
                else if Z.land repeat_mode 3 =? 1
                     then Z.min max_pitch
                            ((p0 - top) mod 7 + top + (bass - p0))
                     else max_pitch).
  assert (bound < bass) as Hbound.
  { subst bound. destruct (Z.land repeat_mode 3 =? 0); [lia|].
    destruct (Z.land repeat_mode 3 =? 1); lia. }
  cbn [Chord.get_pitches_up index_last rev app bind_fuel].
  destruct (Z.ltb_spec bass bound); [lia|]. cbn [bind_fuel index_last rev app].
  destruct (Z.gtb_spec bass bound); [|lia].
  cbn [removelast rev Chord.get_pitches_pop].
  destruct (Z.land repeat_mode 3 =? 3); [reflexivity|].
  cbn [bind_fuel rev Chord.get_pitches_down].
  destruct (Z.land repeat_mode 4 =? 0); reflexivity.
Qed.

Lemma get_pitches_range_too_small_witness :
  index [1; 3; 5] 0 = Return 1
  /\ (2 < ((1 - 1) mod 7 - (3 - 1) mod 7) mod 7 + 3 \/ 2 < 3)
  /\ Chord.get_pitches 1 {| Chord.pitches := [1; 3; 5] |} 3 2 0
     = Some (Raise IndexError).
Proof.
  split; [reflexivity|].
  assert (2 < ((1 - 1) mod 7 - (3 - 1) mod 7) mod 7 + 3 \/ 2 < 3) as H
    by (right; lia).
  split; [exact H|].
  apply (get_pitches_range_too_small {| Chord.pitches := [1; 3; 5] |} 1 0%nat
                                     3 2 0); [reflexivity|exact H].
Defined.

(** ** fill_rests *)

Section FillRests.

Lemma Qle_bool_false (a b : Q) : Qle_bool a b = false -> (b < a)%Q.
Proof.
  intros H. apply Qnot_le_lt. intros Hle.
  apply Qle_bool_iff in Hle. congruence.
Qed.

(** Every entry of [REST_LENS] is a rest of the length it is filed under. *)
Lemma rest_of_REST_LENS (key : Q) (r : list ascii) :
  rest_of REST_LENS key = Return r ->
  count_notes r = 0%nat /\ lasts r key.
Proof.
  unfold REST_LENS. cbn [rest_of].
  repeat match goal with
         | |- (if Qeq_bool ?k key then _ else _) = _ -> _ =>
             destruct (Qeq_bool k key) eqn:E;
             [apply Qeq_bool_iff in E; intros [= <-];
              split; [reflexivity|];
              eexists; split; [reflexivity|exact E]
             |clear E]
         end.
  discriminate.
Qed.

Lemma fill_longest_rests (key beats : Q) (fuel : nat) :
  forall res time out,
    fill_longest fuel REST_LENS key beats res time = Some (Return out) ->
    count_notes res = 0%nat -> lasts res time ->
    count_notes (fst out) = 0%nat /\ lasts (fst out) (snd out)
    /\ (time <= snd out)%Q
    /\ ((time <= beats)%Q -> (snd out <= beats)%Q)
    /\ ((0 <= key)%Q -> (beats < snd out + key)%Q).
Proof.
  induction fuel as [|fuel IH]; intros res time out H Hc Hl; [discriminate|].
  cbn [fill_longest] in H.
  destruct (Qle_bool (time + key) beats) eqn:E.
  - destruct (rest_of REST_LENS key) as [r|] eqn:Er; [|discriminate].
    cbn [bind_fuel] in H.
    destruct (rest_of_REST_LENS key r Er) as [Hr1 Hr2].
    apply IH in H.
    + destruct H as (H1 & H2 & H3 & H4 & H5).
      apply Qle_bool_iff in E.
      assert (0 <= key)%Q as Hk.
      { destruct Hr2 as (d & Hd & Hd').
        clear - Er. unfold REST_LENS in Er. cbn [rest_of] in Er.
        repeat match type of Er with
               | (if Qeq_bool ?k key then _ else _) = _ =>
                   destruct (Qeq_bool k key) eqn:E;
                   [apply Qeq_bool_iff in E; rewrite <- E; discriminate
                   |clear E]
               end.
        discriminate. }
      repeat split; try assumption; try lra.
    + rewrite count_notes_app. lia.
    + now apply lasts_app.
  - injection H as <-. cbn [fst snd].
    apply Qle_bool_false in E.
    repeat split; try assumption; try lra.
Qed.

Lemma fill_shorter_rests (beats : Q) (keys : list Q) :
  forall res time out,
    fill_shorter REST_LENS keys beats res time = Return out ->
    count_notes res = 0%nat -> count_notes out = 0%nat.
Proof.
  induction keys as [|key keys IH]; intros res time out H Hc;
    cbn [fill_shorter] in H.
  - now injection H as <-.
  - destruct (Qle_bool (time + key) beats).
    + destruct (rest_of REST_LENS key) as [r|] eqn:Er; [|discriminate].
      cbn [bind] in H. destruct (rest_of_REST_LENS key r Er) as [Hr _].
      eapply IH; [exact H|]. rewrite count_notes_app. lia.
    + eapply IH; eassumption.
Qed.

(** One step of the second loop: a rest of length [key] is taken when it
    fits, and then less than [key] is left when less than twice [key] was. *)
Lemma fill_shorter_halve (key : Q) (r : list ascii) (keys : list Q)
    (beats time : Q) (res : list ascii) :
  rest_of REST_LENS key = Return r ->
  lasts res time -> (time <= beats)%Q -> (beats < time + 2 * key)%Q ->
  exists res' time',
    fill_shorter REST_LENS (key :: keys) beats res time
    = fill_shorter REST_LENS keys beats res' time'
    /\ lasts res' time' /\ (time' <= beats)%Q /\ (beats < time' + key)%Q.
Proof.
  intros Er Hl Hlo Hhi. cbn [fill_shorter]. rewrite Er. cbn [bind].
  destruct (rest_of_REST_LENS key r Er) as [_ Hr].
  destruct (Qle_bool (time + key) beats) eqn:E.
  - apply Qle_bool_iff in E.
    exists (res ++ r), (time + key)%Q.
    repeat split; [now apply lasts_app|exact E|lra].
  - apply Qle_bool_false in E.
    exists res, time. repeat split; assumption.
Qed.

(** The shorter rests, taken greedily, fill what is left up to a quarter
    of a beat. *)
Lemma fill_shorter_default (beats time : Q) (res : list ascii) :
  lasts res time -> (time <= beats)%Q -> (beats < time + 4)%Q ->
  exists out d,
    fill_shorter REST_LENS [2; 1; 1 # 2; 1 # 4]%Q beats res time = Return out
    /\ lasts out d /\ (d <= beats)%Q /\ (beats < d + (1 # 4))%Q.
Proof.
  intros Hl Hlo Hhi.
  destruct (fill_shorter_halve 2 ["_"%char] [1; 1 # 2; 1 # 4]%Q
              beats time res eq_refl Hl Hlo ltac:(lra))
    as (r1 & t1 & -> & Hl1 & Hlo1 & Hhi1).
  destruct (fill_shorter_halve 1 [" "%char] [1 # 2; 1 # 4]%Q
              beats t1 r1 eq_refl Hl1 Hlo1 ltac:(lra))
    as (r2 & t2 & -> & Hl2 & Hlo2 & Hhi2).
  destruct (fill_shorter_halve (1 # 2) ["."%char] [1 # 4]%Q
              beats t2 r2 eq_refl Hl2 Hlo2 ltac:(lra))
    as (r3 & t3 & -> & Hl3 & Hlo3 & Hhi3).
  destruct (fill_shorter_halve (1 # 4) [","%char] []
              beats t3 r3 eq_refl Hl3 Hlo3 ltac:(lra))
    as (r4 & t4 & -> & Hl4 & Hlo4 & Hhi4).
  exists r4, t4. repeat split; assumption.
Qed.

(** The first loop ends once the fuel exceeds the whole notes that fit. *)
Lemma fill_longest_returns (beats : Q) (fuel : nat) :
  forall res time,
    (beats < time + 4 * inject_Z (Z.of_nat (S fuel)))%Q ->
    exists out, fill_longest (S fuel) REST_LENS 4 beats res time
                = Some (Return out).
Proof.
  induction fuel as [|fuel IH]; intros res time H.
  - cbn [fill_longest].
    destruct (Qle_bool (time + 4) beats) eqn:E.
    + apply Qle_bool_iff in E.
      change (inject_Z (Z.of_nat 1)) with 1%Q in H. lra.
    + eexists. reflexivity.
  - remember (S fuel) as n eqn:En. cbn [fill_longest].
    destruct (Qle_bool (time + 4) beats) eqn:E.
    + cbn [rest_of REST_LENS Qeq_bool]. cbn [bind_fuel]. subst n.
      apply IH.
      rewrite Nat2Z.inj_succ in H. unfold Z.succ in H.
      rewrite inject_Z_plus in H. change (inject_Z 1) with 1%Q in H.
      generalize dependent (inject_Z (Z.of_nat (S fuel))). intros q _ H.
      lra.
    + eexists. reflexivity.
Qed.

End FillRests.

Section FillRestsDefault.

Lemma fill_rests_default (fuel : nat) (beats : Q) :
  fill_rests fuel beats REST_LENS
  = (filled <~ fill_longest fuel REST_LENS 4 beats [] 0 ;;
     Some (fill_shorter REST_LENS [2; 1; 1 # 2; 1 # 4]%Q beats
             (fst filled) (snd filled))).
Proof. reflexivity. Qed.

Lemma fuel_covers (beats : Q) :
  (beats < 0 + 4 * inject_Z (Z.of_nat (S (Z.to_nat (Qceiling beats)))))%Q.
Proof.
  pose proof (Qle_ceiling beats) as Hc.
  assert (Qceiling beats + 1 <= Z.of_nat (S (Z.to_nat (Qceiling beats))))%Z
    as Hz by lia.
  assert (1 <= Z.of_nat (S (Z.to_nat (Qceiling beats))))%Z as Hp by lia.
  rewrite Zle_Qle in Hz, Hp. rewrite inject_Z_plus in Hz.
  change (inject_Z 1) with 1%Q in Hz, Hp.
  revert Hz Hp.
  generalize (inject_Z (Z.of_nat (S (Z.to_nat (Qceiling beats))))).
  revert Hc. generalize (inject_Z (Qceiling beats)).
  intros c Hc q Hq Hp. lra.
Qed.

Lemma fill_rests_returned (fuel : nat) (beats : Q) (res : list ascii) :
  fill_rests fuel beats REST_LENS = Some (Return res) ->
  exists out,
    fill_longest fuel REST_LENS 4 beats [] 0 = Some (Return out)
    /\ fill_shorter REST_LENS [2; 1; 1 # 2; 1 # 4]%Q beats
         (fst out) (snd out) = Return res.
Proof.
  rewrite fill_rests_default.
  destruct (fill_longest fuel REST_LENS 4 beats [] 0) as [[out|e]|];
    [|discriminate|discriminate].
  cbn [bind_fuel]. intros H. exists out. split; [reflexivity|congruence].
Qed.

End FillRestsDefault.

(** X9: whatever the number of beats, the rhythm that [fill_rests] builds
    from the default rests holds rests only: it has no played note. *)
Theorem fill_rests_only_rests (fuel : nat) (beats : Q) (res : list ascii)
    (H : fill_rests fuel beats REST_LENS = Some (Return res)) :
  count_notes res = 0%nat.
Proof.
  destruct (fill_rests_returned fuel beats res H) as (out & E & H').
  destruct (fill_longest_rests 4 beats fuel [] 0%Q out E eq_refl lasts_nil)
    as (Hc & _).
  exact (fill_shorter_rests beats _ _ _ _ H' Hc).
Qed.

Lemma fill_rests_only_rests_witness :
  fill_rests 3 (11 # 2) REST_LENS = Some (Return (tokens "- ."))
  /\ count_notes (tokens "- .") = 0%nat.
Proof.
  split; [reflexivity|].
  apply (fill_rests_only_rests 3 (11 # 2) (tokens "- .")). reflexivity.
Defined.

(** X10: for a number of beats that is not negative, [fill_rests] with
    the default rests ends, and the rhythm it returns is at most [beats]
    long and less than a quarter of a beat (the shortest rest) short of
    it. *)
Theorem fill_rests_fills (beats : Q) (H : (0 <= beats)%Q) :
  (exists fuel res, fill_rests fuel beats REST_LENS = Some (Return res))
  /\ forall fuel res,
       fill_rests fuel beats REST_LENS = Some (Return res) ->
       exists d, duration res = Return d
                 /\ (d <= beats)%Q /\ (beats < d + (1 # 4))%Q.
Proof.
  assert (forall fuel out,
             fill_longest fuel REST_LENS 4 beats [] 0 = Some (Return out) ->
             exists res d,
               fill_shorter REST_LENS [2; 1; 1 # 2; 1 # 4]%Q beats
                 (fst out) (snd out) = Return res
               /\ duration res = Return d
               /\ (d <= beats)%Q /\ (beats < d + (1 # 4))%Q) as Hstep.
  { intros fuel out E.
    destruct (fill_longest_rests 4 beats fuel [] 0%Q out E eq_refl lasts_nil)
      as (_ & Hl & _ & Hlo & Hhi).
    destruct (fill_shorter_default beats (snd out) (fst out) Hl (Hlo H)
                (Hhi ltac:(lra)))
      as (res & d & Hres & (d' & Hd & Hdd) & Hle & Hlt).
    exists res, d'. repeat split; [exact Hres|exact Hd|lra|lra]. }
  split.
  - destruct (fill_longest_returns beats (Z.to_nat (Qceiling beats)) [] 0%Q
                (fuel_covers beats)) as (out & E).
    destruct (Hstep _ _ E) as (res & _ & Hres & _).
    exists (S (Z.to_nat (Qceiling beats))), res.
    rewrite fill_rests_default, E. cbn [bind_fuel]. now rewrite Hres.
  - intros fuel res H0.
    destruct (fill_rests_returned fuel beats res H0) as (out & E & H').
    destruct (Hstep _ _ E) as (res' & d & Hres & Hd).
    assert (res' = res) as -> by congruence.
    exists d. exact Hd.
Qed.

Lemma fill_rests_fills_witness :
  (0 <= 11 # 2)%Q
  /\ ((exists fuel res,
          fill_rests fuel (11 # 2) REST_LENS = Some (Return res))
      /\ forall fuel res,
           fill_rests fuel (11 # 2) REST_LENS = Some (Return res) ->
           exists d, duration res = Return d
                     /\ (d <= 11 # 2)%Q /\ (11 # 2 < d + (1 # 4))%Q).
Proof.
  assert (0 <= 11 # 2)%Q as H by discriminate.
  split; [exact H|]. apply (fill_rests_fills (11 # 2) H).
Defined.

(** X11: when not even the shortest rest fits, that is for fewer than a
    quarter of a beat and for a negative number of beats, [fill_rests]
    returns the empty rhythm. *)
Theorem fill_rests_nothing_fits (fuel : nat) (beats : Q)
    (H : (beats < 1 # 4)%Q) :
  fill_rests (S fuel) beats REST_LENS = Some (Return []).
Proof.
  rewrite fill_rests_default. cbn [fill_longest].
  assert (forall k, (1 # 4 <= k)%Q -> Qle_bool (0 + k) beats = false) as Hk.
  { intros k Hk. destruct (Qle_bool (0 + k) beats) eqn:E; [|reflexivity].
    apply Qle_bool_iff in E. lra. }
  rewrite (Hk 4%Q) by discriminate. cbn [bind_fuel fst snd fill_shorter].
  rewrite (Hk 2%Q), (Hk 1%Q), (Hk (1 # 2)), (Hk (1 # 4)) by discriminate.
  reflexivity.
Qed.

Lemma fill_rests_nothing_fits_witness :
  (- (3) < 1 # 4)%Q /\ fill_rests 1 (- (3)) REST_LENS = Some (Return []).
Proof.
  assert (- (3) < 1 # 4)%Q as H by reflexivity.
  split; [exact H|]. apply (fill_rests_nothing_fits 0 (- (3)) H).
Defined.

(** ** Part.extend, Part.get_notes, Part.measures, Part.transpose *)

Section PartLines.

Context {N : Type}.

Lemma fold_left_max_ge (rest : list Z) (x : Z) :
  x <= fold_left Z.max rest x
  /\ Forall (fun y => y <= fold_left Z.max rest x) rest.
Proof.
  revert x. induction rest as [|y rest IH]; intros x; cbn.
  - split; [lia|constructor].
  - destruct (IH (Z.max x y)) as [H1 H2]. split; [lia|].
    constructor; [lia|assumption].
Qed.

Lemma fold_left_max_In (rest : list Z) (x : Z) :
  In (fold_left Z.max rest x) (x :: rest).
Proof.
  revert x. induction rest as [|y rest IH]; intros x; cbn; [now left|].
  destruct (IH (Z.max x y)) as [H|H].
  - destruct (Z.max_spec x y) as [[_ E]|[_ E]]; rewrite E in *; auto.
  - auto.
Qed.

Lemma index_skipn (l : list N) (n : nat) (p : N) :
  index l n = Return p -> skipn n l = p :: skipn (S n) l.
Proof.
  intros H. destruct (index_split l n p H) as (pre & post & -> & <-).
  now rewrite skipn_middle, skipn_length_app.
Qed.

Lemma index_in_range (l : list N) (n : nat) :
  (n < length l)%nat -> exists p, index l n = Return p.
Proof.
  intros H. unfold index. destruct (nth_error l n) as [p|] eqn:E.
  - now exists p.
  - apply nth_error_None in E. lia.
Qed.

Lemma index_out_of_range (l : list N) (n : nat) :
  (length l <= n)%nat -> index l n = Raise IndexError.
Proof.
  intros H. unfold index. apply nth_error_None in H. now rewrite H.
Qed.

Lemma firstn_snoc_index (l : list N) (n : nat) (p : N) :
  index l n = Return p ->
  firstn (S n) l = firstn n l ++ [p] /\ (S n <= length l)%nat.
Proof.
  intros H. destruct (index_split l n p H) as (pre & post & -> & <-).
  split; [|rewrite length_app; cbn; lia].
  rewrite firstn_length_app.
  replace (pre ++ p :: post) with ((pre ++ [p]) ++ post)
    by now rewrite <- app_assoc.
  replace (S (length pre)) with (length (pre ++ [p]))
    by (rewrite length_app; cbn; lia).
  apply firstn_length_app.
Qed.

End PartLines.

Section EighthsOfABeat.



End EighthsOfABeat.



(** X13: after [extend] on two parts made from pitch lists that are not
    empty, [min_note] is a lower bound of the notes, but [max_note], set
    with [min], is the smaller of the two highest notes: when these differ
    a note of the part lies above [max_note]. *)
Theorem extend_note_bounds (notes1 notes2 : list Z) (ry1 ry2 : list ascii)
    (cl1 cl2 : list value) (p1 p2 : Part.t Z)
    (H1 : Part.__init__ notes1 ry1 cl1 = Return p1)
    (H2 : Part.__init__ notes2 ry2 cl2 = Return p2)
    (Hn1 : notes1 <> []) (Hn2 : notes2 <> []) :
  let e := Part.extend p1 p2 in
  Forall (fun n => Part.min_note e <= n) (Part.notes e)
  /\ In (Part.max_note e) (Part.notes e)
  /\ (Part.max_note p1 <> Part.max_note p2 ->
      exists n, In n (Part.notes e) /\ Part.max_note e < n).
Proof.
  unfold Part.__init__ in H1, H2.
  destruct (match cl1 with [] => _ | _ :: _ => _ end) as [c1|];
    [|discriminate].
  destruct (match cl2 with [] => _ | _ :: _ => _ end) as [c2|];
    [|discriminate].
  cbn [bind] in H1, H2. injection H1 as <-. injection H2 as <-.
  destruct notes1 as [|x xs]; [congruence|].
  destruct notes2 as [|y ys]; [congruence|].
  cbn [Part.extend Part.notes Part.min_note Part.max_note].
  destruct (fold_left_min_le xs x) as [Hx Hxs].
  destruct (fold_left_min_le ys y) as [Hy Hys].
  pose proof (fold_left_max_In xs x) as Mx.
  pose proof (fold_left_max_In ys y) as My.
  repeat split.
  - apply Forall_app. split.
    + constructor; [lia|].
      eapply Forall_impl; [|exact Hxs]. cbn. intros; lia.
    + constructor; [lia|].
      eapply Forall_impl; [|exact Hys]. cbn. intros; lia.
  - apply in_or_app.
    destruct (Z.min_spec (fold_left Z.max xs x) (fold_left Z.max ys y))
      as [[_ ->]|[_ ->]]; [left|right]; assumption.
  - intros Hne.
    destruct (Z.min_spec (fold_left Z.max xs x) (fold_left Z.max ys y))
      as [[Hlt ->]|[Hle ->]].
    + exists (fold_left Z.max ys y). split; [|exact Hlt].
      apply in_or_app. now right.
    + exists (fold_left Z.max xs x). split; [|lia].
      apply in_or_app. now left.
Qed.

Lemma extend_note_bounds_witness :
  exists p1 p2,
    Part.__init__ [1; 3] (tokens "qq") [] = Return p1
    /\ Part.__init__ [5] (tokens "h") [] = Return p2
    /\ Part.max_note (Part.extend p1 p2) = 3
    /\ In 5 (Part.notes (Part.extend p1 p2))
    /\ In (Part.max_note (Part.extend p1 p2))
          (Part.notes (Part.extend p1 p2)).
Proof.
  eexists. eexists.
  split; [reflexivity|]. split; [reflexivity|].
  split; [reflexivity|]. split; [cbn; auto|].
  refine (proj1 (proj2 (extend_note_bounds [1; 3] [5] (tokens "qq")
                          (tokens "h") [] [] _ _ eq_refl eq_refl _ _)));
    discriminate.
Defined.

Section GetNotes.

Context {N : Type}.
Variable notes : list N.

Lemma get_notes_loop_spec :
  forall rhythms n d,
    duration rhythms = Return d ->
    (count_notes rhythms + n <= length notes)%nat ->
    let out := Part.get_notes_loop notes rhythms n in
    snd out = Return tt
    /\ map_result NOTE_LENS rhythms = Return (map fst (fst out))
    /\ map silent (fst out) = map is_rest rhythms
    /\ pitches_played (fst out)
       = firstn (count_notes rhythms) (skipn n notes).
Proof.
  induction rhythms as [|r rest IH]; intros n d Hd Hc; cbn zeta.
  - cbn. auto.
  - destruct (lasts_cons_inv r rest d) as (len & d' & Hr & (x & Hx & _) & _).
    { exists d. split; [exact Hd|reflexivity]. }
    rewrite count_notes_cons in Hc |- *.
    cbn [Part.get_notes_loop map_result]. rewrite Hr. cbn [bind].
    destruct (is_rest r) eqn:Er.
    + specialize (IH n x Hx ltac:(lia)). cbn zeta in IH.
      destruct (Part.get_notes_loop notes rest n) as [more fin].
      cbn [fst snd] in *. destruct IH as (H1 & H2 & H3 & H4).
      rewrite H2. cbn [bind map fst]. unfold silent at 1. cbn [snd].
      rewrite H3, Er. unfold pitches_played in *. cbn [flat_map snd app].
      rewrite H4. auto.
    + destruct (index_in_range notes n ltac:(lia)) as (p & Hp).
      rewrite Hp. cbn [bind].
      specialize (IH (S n) x Hx ltac:(lia)). cbn zeta in IH.
      destruct (Part.get_notes_loop notes rest (S n)) as [more fin].
      cbn [fst snd] in *. destruct IH as (H1 & H2 & H3 & H4).
      rewrite H2. cbn [bind map fst]. unfold silent at 1. cbn [snd].
      rewrite H3, Er. unfold pitches_played in *. cbn [flat_map snd app].
      rewrite H4, (index_skipn notes n p Hp). auto.
Qed.

Lemma get_notes_loop_short :
  forall rhythms n d,
    duration rhythms = Return d ->
    (n <= length notes < count_notes rhythms + n)%nat ->
    let out := Part.get_notes_loop notes rhythms n in
    snd out = Raise IndexError
    /\ pitches_played (fst out) = skipn n notes.
Proof.
  induction rhythms as [|r rest IH]; intros n d Hd Hc; cbn zeta.
  - cbn in Hc. lia.
  - destruct (lasts_cons_inv r rest d) as (len & d' & Hr & (x & Hx & _) & _).
    { exists d. split; [exact Hd|reflexivity]. }
    rewrite count_notes_cons in Hc.
    cbn [Part.get_notes_loop]. rewrite Hr. cbn [bind].
    destruct (is_rest r) eqn:Er.
    + specialize (IH n x Hx ltac:(lia)). cbn zeta in IH.
      destruct (Part.get_notes_loop notes rest n) as [more fin].
      cbn [fst snd] in *. destruct IH as (H1 & H2).
      split; [exact H1|]. unfold pitches_played in *.
      cbn [flat_map snd app]. exact H2.
    + destruct (Nat.eq_dec n (length notes)) as [->|Hne].
      * rewrite (index_out_of_range notes _ (Nat.le_refl _)).
        cbn. now rewrite skipn_all.
      * destruct (index_in_range notes n ltac:(lia)) as (p & Hp).
        rewrite Hp. cbn [bind].
        specialize (IH (S n) x Hx ltac:(lia)). cbn zeta in IH.
        destruct (Part.get_notes_loop notes rest (S n)) as [more fin].
        cbn [fst snd] in *. destruct IH as (H1 & H2).
        split; [exact H1|]. unfold pitches_played in *.
        cbn [flat_map snd app]. now rewrite H2, (index_skipn notes n p Hp).
Qed.

End GetNotes.

(** X14: on a part whose rhythm holds known tokens only and which has at
    least one pitch per played token, [get_notes] ends normally after one
    pair per token: the lengths are those of the tokens, the rests and
    only they come with no pitch, and the pitches yielded are the first
    pitches of [notes], as many as there are played tokens. *)
Theorem get_notes_walks_the_line {N : Type} (self : Part.t N) (d : Q)
    (Hd : duration (Part.rhythms self) = Return d)
    (Hc : (count_notes (Part.rhythms self) <= length (Part.notes self))%nat) :
  let out := Part.get_notes self in
  snd out = Return tt
  /\ map_result NOTE_LENS (Part.rhythms self) = Return (map fst (fst out))
  /\ map silent (fst out) = map is_rest (Part.rhythms self)
  /\ pitches_played (fst out)
     = firstn (count_notes (Part.rhythms self)) (Part.notes self).
Proof.
  apply (get_notes_loop_spec (Part.notes self) (Part.rhythms self) 0%nat d Hd).
  lia.
Qed.

Lemma get_notes_walks_the_line_witness :
  let self := {| Part.notes := [1; 3; 5]; Part.rhythms := tokens "q q";
                 Part.chd_lens := []; Part.min_note := 1;
                 Part.max_note := 5 |} in
  Part.get_notes self
  = ([(1%Q, Some 1); (1%Q, None); (1%Q, Some 3)], Return tt)
  /\ pitches_played (fst (Part.get_notes self))
     = firstn (count_notes (Part.rhythms self)) (Part.notes self).
Proof.
  intros self. split; [reflexivity|].
  apply (get_notes_walks_the_line self 3); [reflexivity|cbn; lia].
Defined.

(** X15: with known tokens but fewer pitches than played tokens,
    [get_notes] yields all the pitches of [notes] and then raises
    [IndexError]. *)
Theorem get_notes_runs_out {N : Type} (self : Part.t N) (d : Q)
    (Hd : duration (Part.rhythms self) = Return d)
    (Hc : (length (Part.notes self) < count_notes (Part.rhythms self))%nat) :
  snd (Part.get_notes self) = Raise IndexError
  /\ pitches_played (fst (Part.get_notes self)) = Part.notes self.
Proof.
  apply (get_notes_loop_short (Part.notes self) (Part.rhythms self) 0%nat d Hd).
  lia.
Qed.

Lemma get_notes_runs_out_witness :
  let self := {| Part.notes := [1]; Part.rhythms := tokens "q q";
                 Part.chd_lens := []; Part.min_note := 1;
                 Part.max_note := 1 |} in
  Part.get_notes self = ([(1%Q, Some 1); (1%Q, None)], Raise IndexError)
  /\ pitches_played (fst (Part.get_notes self)) = Part.notes self.
Proof.
  intros self. split; [reflexivity|].
  apply (get_notes_runs_out self 3); [reflexivity|cbn; lia].
Defined.

Section MeasureNotes.

Context {N : Type}.
Variables (notes : list N) (meter : Z).

Lemma firstn_prefix (pre rest : list N) (ni : nat) :
  firstn ni notes = pre ++ rest -> exists k, pre ++ [] = firstn k notes.
Proof.
  intros H. exists (Nat.min (length pre) ni).
  rewrite <- firstn_firstn, H, firstn_length_app. apply app_nil_r.
Qed.

Lemma measures_loop_notes :
  forall rhythms m_notes m_ryth ni pre,
    count_notes m_ryth = length m_notes ->
    firstn ni notes = pre ++ m_notes ->
    let out := Part.measures_loop notes meter rhythms m_notes m_ryth ni in
    Forall (fun y => count_notes (snd y) = length (fst y)) (fst out)
    /\ exists k, pre ++ concat (map fst (fst out)) = firstn k notes.
Proof.
  induction rhythms as [|r rest IH]; intros m_notes m_ryth ni pre Hc Hpre;
    cbn zeta.
  - cbn. split; [constructor|]. exact (firstn_prefix _ _ _ Hpre).
  - cbn [Part.measures_loop].
    assert (exists m_notes' ni',
               (if is_rest r then Return (m_notes, ni)
                else n <- index notes ni ;; Return (m_notes ++ [n], S ni))
               = Return (m_notes', ni')
               /\ count_notes (m_ryth ++ [r]) = length m_notes'
               /\ firstn ni' notes = pre ++ m_notes'
             \/ exists e,
               (if is_rest r then Return (m_notes, ni)
                else n <- index notes ni ;; Return (m_notes ++ [n], S ni))
               = Raise e) as Hstep.
    { rewrite count_notes_app, count_notes_cons.
      change (count_notes []) with 0%nat.
      destruct (is_rest r).
      - exists m_notes, ni. left. repeat split; [lia|exact Hpre].
      - destruct (index notes ni) as [n|e] eqn:En.
        + exists (m_notes ++ [n]), (S ni). left. cbn [bind].
          destruct (firstn_snoc_index notes ni n En) as [Hf _].
          repeat split.
          * rewrite length_app. cbn. lia.
          * now rewrite Hf, Hpre, app_assoc.
        + exists m_notes, ni. right. now exists e. }
    destruct Hstep as (m_notes' & ni' & [(-> & Hc' & Hpre')|(e & ->)]).
    2: { cbn. split; [constructor|]. exact (firstn_prefix _ _ _ Hpre). }
    destruct (duration (m_ryth ++ [r])) as [d|e].
    2: { cbn. split; [constructor|]. exact (firstn_prefix _ _ _ Hpre). }
    destruct (Qle_bool (inject_Z meter) d).
    + specialize (IH [] [] ni' (pre ++ m_notes') eq_refl).
      rewrite app_nil_r in IH. specialize (IH Hpre'). cbn zeta in IH.
      destruct (Part.measures_loop notes meter rest [] [] ni') as [more fin].
      cbn [fst snd] in *. destruct IH as (Hall & k & Hk).
      split; [constructor; assumption|].
      exists k. cbn [map concat fst]. now rewrite app_assoc.
    + exact (IH m_notes' (m_ryth ++ [r]) ni' pre Hc' Hpre').
Qed.

End MeasureNotes.

(** X16: every measure that [measures] yields carries one pitch per played
    token of its rhythm, and the pitches of the measures yielded, put
    end to end, are an initial segment of [notes]. *)
Theorem measures_carry_their_notes {N : Type} (self : Part.t N) (meter : Z) :
  let out := Part.measures self meter in
  Forall (fun y => count_notes (snd y) = length (fst y)) (fst out)
  /\ exists k, concat (map fst (fst out)) = firstn k (Part.notes self).
Proof.
  exact (measures_loop_notes (Part.notes self) meter (Part.rhythms self)
           [] [] 0%nat [] eq_refl eq_refl).
Qed.

(** ** Progression.get_voice *)

Section GetVoice.

Variables (fuel : nat) (voice : Z) (ryths : list (list ascii))
          (tacet : list ascii) (min_pitch max_pitch repeat_mode : Z).
Hypothesis tacet_silent : count_notes tacet = 0%nat.

(** The cache [reps] after the first statement of the loop body. *)
Lemma reps_step (reps : list nat) (i : nat) (ry : list ascii) :
  cached ryths reps i -> index ryths i = Return ry ->
  exists reps',
    (if (length reps <=? i)%nat
     then ry0 <- index ryths i ;; Return (reps ++ [count_notes ry0])
     else Return reps) = Return reps'
    /\ cached ryths reps' (S i mod length ryths)
    /\ index reps' i = Return (count_notes ry).
Proof.
  intros [Hi Hreps] Ery. rewrite Ery. unfold index in Ery.
  destruct (nth_error ryths i) as [ry'|] eqn:En; [|discriminate].
  injection Ery as ->.
  assert (forall reps' : list nat, (S i <= length reps')%nat ->
                        (S i mod length ryths <= length reps')%nat) as Hmod.
  { intros reps' Hlen. pose proof (Nat.Div0.mod_le (S i) (length ryths)).
    lia. }
  destruct (Nat.leb_spec (length reps) i) as [Hle|Hgt].
  - assert (i = length reps) as -> by lia.
    exists (reps ++ [count_notes ry]). split; [reflexivity|]. split.
    + split; [apply Hmod; rewrite length_app; cbn; lia|].
      intros j k Hj. destruct (Nat.lt_ge_cases j (length reps)) as [Hlt|Hge].
      * rewrite nth_error_app1 in Hj by assumption. now apply Hreps.
      * rewrite nth_error_app2 in Hj by assumption.
        destruct (j - length reps)%nat as [|m] eqn:Ej; cbn in Hj.
        -- injection Hj as <-. assert (j = length reps) as -> by lia.
           now exists ry.
        -- now destruct m.
    + unfold index. rewrite nth_error_app2, Nat.sub_diag by lia.
      reflexivity.
  - exists reps. split; [reflexivity|].
    split; [split; [apply Hmod; lia|assumption]|].
    unfold index. destruct (nth_error reps i) as [k|] eqn:Ek.
    + destruct (Hreps _ _ Ek) as (ry' & Hry' & ->).
      rewrite En in Hry'. now injection Hry' as <-.
    + apply nth_error_None in Ek. lia.
Qed.

Lemma get_voice_loop_invariant :
  forall chds part reps i p,
    Part.invariant part -> cached ryths reps i ->
    Progression.get_voice_loop fuel voice ryths tacet min_pitch max_pitch
      repeat_mode chds part reps i = Some (Return p) ->
    Part.invariant p.
Proof.
  induction chds as [|chd rest IH]; intros part reps i p Hinv Hc H.
  - cbn in H. now injection H as <-.
  - cbn [Progression.get_voice_loop] in H.
    destruct (index ryths i) as [ry|] eqn:Ery.
    + destruct (reps_step reps i ry Hc Ery) as (reps' & E & Hc' & Hk).
      rewrite Ery in E. rewrite E in H. cbn [bind_fuel] in H.
      destruct (Chord.get_pitches fuel chd min_pitch max_pitch repeat_mode)
        as [[pitches|]|]; try discriminate.
      cbn [bind_fuel] in H.
      destruct (voice <? Z.of_nat (length pitches)).
      * cbn [bind] in H.
        destruct (index_z pitches voice) as [pv|]; [|discriminate].
        cbn [bind] in H. rewrite Hk in H. cbn [bind bind_fuel] in H.
        eapply IH; [| exact Hc' |exact H].
        unfold Part.invariant in *. cbn [Part.notes Part.rhythms].
        rewrite count_notes_app, length_app, repeat_length. lia.
      * cbn [bind_fuel] in H.
        eapply IH; [| exact Hc' |exact H].
        unfold Part.invariant in *. cbn [Part.notes Part.rhythms].
        rewrite count_notes_app. lia.
    + destruct Hc as [Hi Hreps].
      destruct (Nat.leb_spec (length reps) i) as [Hle|Hgt].
      * discriminate.
      * exfalso. unfold index in Ery.
        destruct (nth_error reps i) as [k|] eqn:Ek.
        -- destruct (Hreps _ _ Ek) as (ry' & Hry' & _).
           now rewrite Hry' in Ery.
        -- apply nth_error_None in Ek. lia.
Qed.

End GetVoice.

(** X17: a part returned by [get_voice] has one pitch per played token of
    its rhythm, the measures of rests of a missing voice included. *)
Theorem get_voice_invariant (fuel : nat) (self : Progression.t) (voice : Z)
    (rhythm : Progression.rhythm_arg) (min_pitch max_pitch repeat_mode : Z)
    (p : Part.t Z)
    (H : Progression.get_voice fuel self voice rhythm min_pitch max_pitch
           repeat_mode = Some (Return p)) :
  Part.invariant p.
Proof.
  unfold Progression.get_voice in H.
  set (ryths := match rhythm with
                | Progression.One r => [r]
                | Progression.Several rs => rs
                end) in H.
  destruct (index ryths 0) as [ry0|]; [|discriminate].
  cbn [bind_fuel] in H.
  destruct (duration ry0) as [d|]; [|discriminate].
  cbn [bind_fuel] in H.
  destruct (fill_rests fuel d REST_LENS) as [[tacet|]|] eqn:Et;
    try discriminate.
  cbn [bind_fuel] in H.
  assert (count_notes tacet = 0%nat) as Hsilent.
  { destruct (fill_rests_returned fuel d tacet Et) as (out & E & H').
    destruct (fill_longest_rests 4 d fuel [] 0%Q out E eq_refl lasts_nil)
      as (Hc & _).
    exact (fill_shorter_rests d _ _ _ _ H' Hc). }
  eapply (get_voice_loop_invariant fuel voice ryths tacet min_pitch max_pitch
            repeat_mode Hsilent); [| |exact H].
  - reflexivity.
  - split; [cbn; lia|]. intros [|j] k Hj; discriminate.
Qed.

Lemma get_voice_invariant_witness :
  let p := {| Part.notes := [-6; -6; -6; -9; -9; -9];
              Part.rhythms := tokens "hqq-hqq"; Part.chd_lens := [];
              Part.min_note := 0; Part.max_note := 0 |} in
  Progression.get_voice 20 progression_I_IV_V 3
    (Progression.Several [tokens "hqq"; tokens "w"]) (-16) (-6) 1
  = Some (Return p)
  /\ Part.invariant p.
Proof.
  intros p.
  assert (Progression.get_voice 20 progression_I_IV_V 3
            (Progression.Several [tokens "hqq"; tokens "w"]) (-16) (-6) 1
          = Some (Return p)) as H by (vm_compute; reflexivity).
  split; [exact H|].
  exact (get_voice_invariant 20 progression_I_IV_V 3
           (Progression.Several [tokens "hqq"; tokens "w"]) (-16) (-6) 1 p H).
Defined.

(** ** Biases.add_bias, Biases.get_bias *)

Section StoredBiases.

Lemma lookup_setitem_same {V : Type} (d : dict V) (k : value) (v : V) :
  lookup (setitem d k v) k = Some v.
Proof.
  induction d as [|[k' v'] d IH]; cbn.
  - now rewrite value_eqb_refl.
  - destruct (value_eqb k' k) eqn:E; cbn; rewrite E; [reflexivity|exact IH].
Qed.

Lemma index_list_set {A : Type} (l : list A) (i : nat) (x a : A) :
  index l i = Return x -> index (list_set l i a) i = Return a.
Proof.
  unfold index. revert i. induction l as [|y l IH]; intros [|i]; cbn;
    try discriminate.
  - reflexivity.
  - apply IH.
Qed.

Lemma index_grown (tables : list Biases.table) (n i : nat) :
  (length tables <= i < length tables + n)%nat ->
  index (tables ++ repeat [] n) i = Return [].
Proof.
  intros H. unfold index.
  rewrite nth_error_app2, nth_error_repeat by lia. reflexivity.
Qed.

(** The table and the key that [add_bias] and [get_bias] both address. *)
Lemma cond_address (cond : list value) (key : value) :
  (if (1 <? length cond)%nat then Return (Tup cond) else index cond 0)
  = Return key ->
  (if (1 <? length cond)%nat then (length cond - 1)%nat else 0%nat)
  = (length cond - 1)%nat.
Proof.
  destruct (Nat.ltb_spec 1 (length cond)); [reflexivity|]. intros _. lia.
Qed.

End StoredBiases.

(** X18: a weight stored by a successful [add_bias] is the weight that
    [get_bias] returns for the same outcome and condition. *)
Theorem add_bias_then_get_bias (self self' : Biases.t) (bias : value)
    (weight : Q) (cond : list value)
    (H : Biases.add_bias self bias weight cond = (self', Return tt)) :
  Biases.get_bias self' bias cond = Return weight.
Proof.
  unfold Biases.add_bias in H. unfold Biases.get_bias.
  set (grown := Biases.biases self
                ++ repeat [] (length cond - length (Biases.biases self))) in *.
  set (i := if (1 <? length cond)%nat then (length cond - 1)%nat else 0%nat)
    in *.
  destruct (index grown i) as [tbl|] eqn:Et; [|discriminate].
  cbn [bind] in H.
  destruct (if (1 <? length cond)%nat then Return (Tup cond)
            else index cond 0) as [key|] eqn:Ek; [|discriminate].
  cbn [bind] in H |- *.
  assert (i = (length cond - 1)%nat) as Hi by exact (cond_address cond key Ek).
  unfold getitem in H.
  destruct (lookup tbl key) as [r|]; [|discriminate].
  cbn [bind] in H. injection H as <-. cbn [Biases.biases].
  rewrite <- Hi, (index_list_set grown i tbl _ Et). cbn [bind].
  now rewrite !lookup_setitem_same.
Qed.

Lemma add_bias_then_get_bias_witness :
  let self := Biases.__init__ (Some [(S_ "a", [(S_ "x", 1%Q)])]) in
  let self' := Biases.__init__
                 (Some [(S_ "a", [(S_ "x", 1%Q); (S_ "y", 3%Q)])]) in
  Biases.add_bias self (S_ "y") 3 [S_ "a"] = (self', Return tt)
  /\ Biases.get_bias self' (S_ "y") [S_ "a"] = Return 3%Q.
Proof.
  intros self self'.
  assert (Biases.add_bias self (S_ "y") 3 [S_ "a"] = (self', Return tt))
    as H by reflexivity.
  split; [exact H|].
  exact (add_bias_then_get_bias self self' (S_ "y") 3 [S_ "a"] H).
Defined.

(** X19: [add_bias] under a condition longer than the number of tables
    appends empty tables up to the length of the condition and then raises
    [KeyError], the row being looked up in the empty table: it stores
    nothing. *)
Theorem add_bias_new_order_raises (self : Biases.t) (bias : value)
    (weight : Q) (cond : list value)
    (H : (length (Biases.biases self) < length cond)%nat) :
  Biases.add_bias self bias weight cond
  = ({| Biases.biases :=
          Biases.biases self
          ++ repeat [] (length cond - length (Biases.biases self)) |},
     Raise KeyError).
Proof.
  unfold Biases.add_bias.
  set (grown := Biases.biases self
                ++ repeat [] (length cond - length (Biases.biases self))).
  assert (index grown (if (1 <? length cond)%nat
                       then (length cond - 1)%nat else 0%nat) = Return [])
    as ->.
  { apply index_grown. destruct (Nat.ltb_spec 1 (length cond)); lia. }
  cbn [bind].
  destruct (Nat.ltb_spec 1 (length cond)) as [Hlt|Hle]; [reflexivity|].
  destruct cond as [|x [|y cond]]; cbn in H, Hle; try lia.
  reflexivity.
Qed.

Lemma add_bias_new_order_raises_witness :
  let self := Biases.__init__ (Some [(S_ "a", [(S_ "x", 1%Q)])]) in
  (length (Biases.biases self) < length [S_ "a"; S_ "b"])%nat
  /\ Biases.add_bias self (S_ "x") 2 [S_ "a"; S_ "b"]
     = ({| Biases.biases := [[(S_ "a", [(S_ "x", 1%Q)])]; []] |},
        Raise KeyError).
Proof.
  intros self.
  assert (length (Biases.biases self) < length [S_ "a"; S_ "b"])%nat
    as H by (cbn; lia).
  split; [exact H|].
  exact (add_bias_new_order_raises self (S_ "x") 2 [S_ "a"; S_ "b"] H).
Defined.

(** X20: [get_bias] fails only with [IndexError], and exactly when the
    condition is empty or longer than the number of tables.  Otherwise it
    looks the condition up in the table of its length: a missing row gives
    0, a missing outcome in the row gives 0, and a recorded outcome gives
    its weight. *)
Theorem get_bias_raises_iff (self : Biases.t) (bias : value)
    (cond : list value) :
  (Biases.get_bias self bias cond = Raise IndexError
   <-> cond = [] \/ (length (Biases.biases self) < length cond)%nat)
  /\ (forall e, Biases.get_bias self bias cond = Raise e -> e = IndexError)
  /\ (cond <> [] ->
      forall tbl,
        index (Biases.biases self) (length cond - 1) = Return tbl ->
        (lookup tbl (cond_key cond) = None ->
         Biases.get_bias self bias cond = Return 0%Q)
        /\ (forall r, lookup tbl (cond_key cond) = Some r ->
                      lookup r bias = None ->
                      Biases.get_bias self bias cond = Return 0%Q)
        /\ (forall r w, lookup tbl (cond_key cond) = Some r ->
                        lookup r bias = Some w ->
                        Biases.get_bias self bias cond = Return w)).
Proof.
  unfold Biases.get_bias.
  destruct cond as [|x cond].
  - cbn. split; [split; auto|]. split; [now intros e [= <-]|congruence].
  - assert ((if (1 <? length (x :: cond))%nat then Return (Tup (x :: cond))
             else index (x :: cond) 0)
            = Return (cond_key (x :: cond))) as ->.
    { destruct cond; reflexivity. }
    cbn [bind]. cbn [length]. rewrite Nat.sub_succ, Nat.sub_0_r.
    destruct (index (Biases.biases self) (length cond)) as [tbl|e] eqn:Et.
    + cbn [bind].
      assert (length cond < length (Biases.biases self))%nat as Hlt.
      { unfold index in Et.
        destruct (nth_error (Biases.biases self) (length cond)) eqn:En;
          [|discriminate].
        apply nth_error_Some. congruence. }
      split; [|split].
      * split.
        -- destruct (lookup tbl _) as [r|]; [|discriminate].
           destruct (lookup r bias); discriminate.
        -- intros [?|?]; [discriminate|lia].
      * intros e. destruct (lookup tbl _) as [r|]; [|discriminate].
        destruct (lookup r bias); discriminate.
      * intros _ tbl' [= <-]. split; [|split].
        -- now intros ->.
        -- now intros r -> ->.
        -- now intros r w -> ->.
    + cbn [bind]. unfold index in Et.
      destruct (nth_error (Biases.biases self) (length cond)) eqn:En;
        [discriminate|].
      injection Et as <-. apply nth_error_None in En.
      split; [split; [intros _; right; lia|reflexivity]|].
      split; [now intros e [= <-]|].
      intros _ tbl. discriminate.
Qed.

(** ** Biases.get_conds, Biases.get_biases *)

Section KeySets.

Lemma set_mem_app (k : value) (a b : list value) :
  Biases.set_mem k (a ++ b) = Biases.set_mem k a || Biases.set_mem k b.
Proof.
  induction a as [|x a IH]; [reflexivity|].
  cbn. now rewrite IH, orb_assoc.
Qed.

Lemma set_union_In (ks : list value) :
  forall res k, In k (Biases.set_union res ks) -> In k res \/ In k ks.
Proof.
  unfold Biases.set_union.
  induction ks as [|x ks IH]; intros res k H; cbn in H; [now left|].
  apply IH in H. destruct H as [H|H]; [|right; now right].
  destruct (Biases.set_mem x res); [now left|].
  apply in_app_or in H. destruct H as [H|[<-|[]]]; [now left|].
  right. now left.
Qed.

Lemma set_union_keeps (ks : list value) :
  forall res k, Biases.set_mem k res = true ->
                Biases.set_mem k (Biases.set_union res ks) = true.
Proof.
  unfold Biases.set_union.
  induction ks as [|x ks IH]; intros res k H; cbn; [exact H|].
  apply IH. destruct (Biases.set_mem x res); [exact H|].
  now rewrite set_mem_app, H.
Qed.

Lemma set_union_adds (ks : list value) :
  forall res k, In k ks -> Biases.set_mem k (Biases.set_union res ks) = true.
Proof.
  induction ks as [|x ks IH]; intros res k Hin; [destruct Hin|].
  destruct Hin as [<-|H].
  - change (Biases.set_union res (x :: ks))
      with (Biases.set_union
              (if Biases.set_mem x res then res else res ++ [x]) ks).
    apply set_union_keeps.
    destruct (Biases.set_mem x res) eqn:E; [exact E|].
    rewrite set_mem_app. cbn. now rewrite value_eqb_refl, orb_true_r.
  - change (Biases.set_union res (x :: ks))
      with (Biases.set_union
              (if Biases.set_mem x res then res else res ++ [x]) ks).
    now apply IH.
Qed.

Variable self : Biases.t.

Lemma get_conds_from_spec (count : nat) :
  forall i res,
    (i + count <= length (Biases.biases self))%nat ->
    exists out,
      Biases.get_conds_from self i count res = Return out
      /\ (forall k, In k out -> In k res \/ cond_in self i count k)
      /\ (forall k, Biases.set_mem k res = true ->
                    Biases.set_mem k out = true)
      /\ (forall k, cond_in self i count k -> Biases.set_mem k out = true).
Proof.
  induction count as [|count IH]; intros i res Hlen.
  - exists res. cbn. repeat split; auto.
    intros k (j & d & Hj & _). lia.
  - cbn [Biases.get_conds_from].
    destruct (index (Biases.biases self) i) as [d|] eqn:Ed.
    2: { unfold index in Ed.
         destruct (nth_error (Biases.biases self) i) eqn:En; [discriminate|].
         apply nth_error_None in En. lia. }
    cbn [bind].
    destruct (IH (S i) (Biases.set_union res (keys d)) ltac:(lia))
      as (out & -> & H1 & H2 & H3).
    exists out. split; [reflexivity|]. repeat split.
    + intros k Hk. destruct (H1 k Hk) as [H|(j & d' & Hj & Hd' & Hin)].
      * apply set_union_In in H. destruct H as [H|H]; [now left|].
        right. exists i, d. repeat split; [lia|lia|exact Ed|exact H].
      * right. exists j, d'. repeat split; [lia|lia|exact Hd'|exact Hin].
    + intros k Hk. apply H2. now apply set_union_keeps.
    + intros k (j & d' & Hj & Hd' & Hin).
      destruct (Nat.eq_dec j i) as [->|Hne].
      * rewrite Ed in Hd'. injection Hd' as <-.
        apply H2. now apply set_union_adds.
      * apply H3. exists j, d'. repeat split; [lia|lia|exact Hd'|exact Hin].
Qed.

Lemma get_conds_from_short (count : nat) :
  forall i res,
    (i <= length (Biases.biases self) < i + count)%nat ->
    Biases.get_conds_from self i count res = Raise IndexError.
Proof.
  induction count as [|count IH]; intros i res Hlen; [lia|].
  cbn [Biases.get_conds_from].
  destruct (index (Biases.biases self) i) as [d|] eqn:Ed.
  - cbn [bind]. apply IH. unfold index in Ed.
    destruct (nth_error (Biases.biases self) i) eqn:En; [|discriminate].
    assert (i < length (Biases.biases self))%nat
      by (apply nth_error_Some; congruence).
    lia.
  - unfold index in Ed.
    destruct (nth_error (Biases.biases self) i); [discriminate|].
    now injection Ed as <-.
Qed.

End KeySets.

Section OutcomeSets.

Lemma rows_union_spec (rows : list Biases.row) :
  forall res,
    let out := fold_left (fun acc v => Biases.set_union acc (keys v))
                 rows res in
    (forall k, In k out ->
               In k res \/ exists r, In r rows /\ In k (keys r))
    /\ (forall k, Biases.set_mem k res = true -> Biases.set_mem k out = true)
    /\ (forall r k, In r rows -> In k (keys r) ->
                    Biases.set_mem k out = true).
Proof.
  induction rows as [|r0 rows IH]; intros res; cbn zeta.
  - cbn. repeat split; auto.
  - cbn [fold_left].
    destruct (IH (Biases.set_union res (keys r0))) as (H1 & H2 & H3).
    repeat split.
    + intros k Hk. destruct (H1 k Hk) as [H|(r & Hr & Hin)].
      * apply set_union_In in H. destruct H as [H|H]; [now left|].
        right. exists r0. split; [now left|exact H].
      * right. exists r. split; [now right|exact Hin].
    + intros k Hk. apply H2. now apply set_union_keeps.
    + intros r k [<-|Hr] Hin.
      * apply H2. now apply set_union_adds.
      * now apply (H3 r).
Qed.

Variable self : Biases.t.

Lemma get_biases_from_spec (count : nat) :
  forall i res,
    (i + count <= length (Biases.biases self))%nat ->
    exists out,
      Biases.get_biases_from self i count res = Return out
      /\ (forall k, In k out -> In k res \/ bias_in self i count k)
      /\ (forall k, Biases.set_mem k res = true ->
                    Biases.set_mem k out = true)
      /\ (forall k, bias_in self i count k -> Biases.set_mem k out = true).
Proof.
  induction count as [|count IH]; intros i res Hlen.
  - exists res. cbn. repeat split; auto.
    intros k (j & d & r & Hj & _). lia.
  - cbn [Biases.get_biases_from].
    destruct (index (Biases.biases self) i) as [d|] eqn:Ed.
    2: { unfold index in Ed.
         destruct (nth_error (Biases.biases self) i) eqn:En; [discriminate|].
         apply nth_error_None in En. lia. }
    cbn [bind].
    destruct (rows_union_spec (values d) res) as (U1 & U2 & U3).
    destruct (IH (S i) (fold_left
                          (fun acc v => Biases.set_union acc (keys v))
                          (values d) res) ltac:(lia))
      as (out & -> & H1 & H2 & H3).
    exists out. split; [reflexivity|]. repeat split.
    + intros k Hk.
      destruct (H1 k Hk) as [H|(j & d' & r & Hj & Hd' & Hr & Hin)].
      * destruct (U1 k H) as [H'|(r & Hr & Hin)]; [now left|].
        right. exists i, d, r.
        repeat split; [lia|lia|exact Ed|exact Hr|exact Hin].
      * right. exists j, d', r.
        repeat split; [lia|lia|exact Hd'|exact Hr|exact Hin].
    + intros k Hk. apply H2. now apply U2.
    + intros k (j & d' & r & Hj & Hd' & Hr & Hin).
      destruct (Nat.eq_dec j i) as [->|Hne].
      * rewrite Ed in Hd'. injection Hd' as <-.
        apply H2. now apply (U3 r).
      * apply H3. exists j, d', r.
        repeat split; [lia|lia|exact Hd'|exact Hr|exact Hin].
Qed.

Lemma get_biases_from_short (count : nat) :
  forall i res,
    (i <= length (Biases.biases self) < i + count)%nat ->
    Biases.get_biases_from self i count res = Raise IndexError.
Proof.
  induction count as [|count IH]; intros i res Hlen; [lia|].
  cbn [Biases.get_biases_from].
  destruct (index (Biases.biases self) i) as [d|] eqn:Ed.
  - cbn [bind]. apply IH. unfold index in Ed.
    destruct (nth_error (Biases.biases self) i) eqn:En; [|discriminate].
    assert (i < length (Biases.biases self))%nat
      by (apply nth_error_Some; congruence).
    lia.
  - unfold index in Ed.
    destruct (nth_error (Biases.biases self) i); [discriminate|].
    now injection Ed as <-.
Qed.

End OutcomeSets.

(** X21: for [max_len] up to the number of tables, [get_conds] returns
    the conditions of the first [max_len] tables: every element returned is
    a condition of one of them, and every condition of one of them is in
    the set returned. *)
Theorem get_conds_collects (self : Biases.t) (max_len : nat)
    (H : (max_len <= length (Biases.biases self))%nat) :
  exists res,
    Biases.get_conds self max_len = Return res
    /\ (forall k, In k res -> cond_in self 0 max_len k)
    /\ (forall k, cond_in self 0 max_len k -> Biases.set_mem k res = true).
Proof.
  destruct (get_conds_from_spec self max_len 0%nat [] H)
    as (out & E & H1 & _ & H3).
  exists out. split; [exact E|]. split; [|exact H3].
  intros k Hk. destruct (H1 k Hk) as [[]|Hc]. exact Hc.
Qed.

Lemma get_conds_collects_witness :
  let self := {| Biases.biases :=
                   [[(S_ "a", [(S_ "x", 1%Q)]); (S_ "b", [(S_ "y", 1%Q)])];
                    [(Tup [S_ "a"; S_ "b"], [(S_ "z", 2%Q)])]] |} in
  (2 <= length (Biases.biases self))%nat
  /\ exists res,
       Biases.get_conds self 2 = Return res
       /\ (forall k, In k res -> cond_in self 0 2 k)
       /\ (forall k, cond_in self 0 2 k -> Biases.set_mem k res = true).
Proof.
  intros self.
  assert (2 <= length (Biases.biases self))%nat as H by (cbn; lia).
  split; [exact H|]. exact (get_conds_collects self 2 H).
Defined.

(** X22: for [max_len] up to the number of tables, [get_biases] returns
    the outcomes of the rows of the first [max_len] tables: every element
    returned is an outcome of such a row, and every outcome of such a row
    is in the set returned. *)
Theorem get_biases_collects (self : Biases.t) (max_len : nat)
    (H : (max_len <= length (Biases.biases self))%nat) :
  exists res,
    Biases.get_biases self max_len = Return res
    /\ (forall k, In k res -> bias_in self 0 max_len k)
    /\ (forall k, bias_in self 0 max_len k -> Biases.set_mem k res = true).
Proof.
  destruct (get_biases_from_spec self max_len 0%nat [] H)
    as (out & E & H1 & _ & H3).
  exists out. split; [exact E|]. split; [|exact H3].
  intros k Hk. destruct (H1 k Hk) as [[]|Hc]. exact Hc.
Qed.

Lemma get_biases_collects_witness :
  let self := {| Biases.biases :=
                   [[(S_ "a", [(S_ "x", 1%Q)]); (S_ "b", [(S_ "y", 1%Q)])];
                    [(Tup [S_ "a"; S_ "b"], [(S_ "z", 2%Q)])]] |} in
  (2 <= length (Biases.biases self))%nat
  /\ exists res,
       Biases.get_biases self 2 = Return res
       /\ (forall k, In k res -> bias_in self 0 2 k)
       /\ (forall k, bias_in self 0 2 k -> Biases.set_mem k res = true).
Proof.
  intros self.
  assert (2 <= length (Biases.biases self))%nat as H by (cbn; lia).
  split; [exact H|]. exact (get_biases_collects self 2 H).
Defined.

(** X23: asked for more tables than the sampler has, [get_conds] and
    [get_biases] raise [IndexError]. *)
Theorem key_sets_of_too_many_tables (self : Biases.t) (max_len : nat)
    (H : (length (Biases.biases self) < max_len)%nat) :
  Biases.get_conds self max_len = Raise IndexError
  /\ Biases.get_biases self max_len = Raise IndexError.
Proof.
  split.
  - apply get_conds_from_short. lia.
  - apply get_biases_from_short. lia.
Qed.

Lemma key_sets_of_too_many_tables_witness :
  (length (Biases.biases (Biases.__init__ None)) < 2)%nat
  /\ Biases.get_conds (Biases.__init__ None) 2 = Raise IndexError
  /\ Biases.get_biases (Biases.__init__ None) 2 = Raise IndexError.
Proof.
  assert (length (Biases.biases (Biases.__init__ None)) < 2)%nat as H
    by (cbn; lia).
  split; [exact H|].
  exact (key_sets_of_too_many_tables (Biases.__init__ None) 2 H).
Defined.

(** ** Score.__init__, Score.add_part *)

Section ScoreDynamics.

Context {P I : Type}.

Lemma length_repeat_z (x n : Z) : length (Io.repeat_z x n) = Z.to_nat n.
Proof. apply repeat_length. Qed.

Lemma init_dynamics_length (parts : list P) (instruments : list I)
    (dynamics : option (list Z)) :
  length (Io.dynamics (Io.__init__ parts instruments dynamics))
  = length parts.
Proof.
  unfold Io.__init__. cbn [Io.dynamics]. rewrite length_firstn.
  apply Nat.min_l.
  destruct dynamics as [d|]; rewrite !length_app, length_repeat_z; cbn; lia.
Qed.

Lemma add_part_dynamics_length (self : Io.Score P I) (part : P)
    (instrument : I) (dyn : Z) :
  length (Io.dynamics self) = length (Io.parts self) ->
  length (Io.dynamics (Io.add_part self part instrument dyn))
  = length (Io.parts (Io.add_part self part instrument dyn)).
Proof.
  intros H. cbn [Io.add_part Io.dynamics Io.parts].
  rewrite !length_app, H. reflexivity.
Qed.

End ScoreDynamics.

(** X24: a score has one dynamic per part: [Score.__init__] cuts or pads
    the dynamics to the number of parts, whatever list is passed, and
    every [add_part] adds one of each. *)
Theorem score_has_a_dynamic_per_part {P I : Type} (parts : list P)
    (instruments : list I) (dynamics : option (list Z))
    (added : list (P * I * Z)) :
  let score :=
    fold_left (fun s x => Io.add_part s (fst (fst x)) (snd (fst x)) (snd x))
      added (Io.__init__ parts instruments dynamics) in
  length (Io.dynamics score) = length (Io.parts score).
Proof.
  cbn zeta.
  assert (length (Io.dynamics (Io.__init__ parts instruments dynamics))
          = length (Io.parts (Io.__init__ parts instruments dynamics))) as H
    by apply init_dynamics_length.
  revert H. generalize (Io.__init__ parts instruments dynamics).
  induction added as [|x added IH]; intros s H; [exact H|].
  cbn [fold_left]. apply IH. now apply add_part_dynamics_length.
Qed.

(** X25: the default dynamics of a score of [n] parts are 80, 70, then 62
    for the parts in between and 75 for the last one when [n >= 3]; with
    fewer than three parts they are the first [n] of 80, 70, and no part
    is played at 75. *)
Theorem score_default_dynamics {P I : Type} (parts : list P)
    (instruments : list I) :
  Io.dynamics (Io.__init__ parts instruments None)
  = if (3 <=? length parts)%nat
    then [80; 70] ++ repeat 62 (length parts - 3) ++ [75]
    else firstn (length parts) [80; 70].
Proof.
  unfold Io.__init__. cbn [Io.dynamics].
  destruct (Nat.leb_spec 3 (length parts)) as [H|H].
  - unfold Io.repeat_z.
    replace (Z.to_nat (Z.of_nat (length parts) - 3))
      with (length parts - 3)%nat by lia.
    apply firstn_all2. rewrite !length_app, repeat_length. cbn. lia.
  - destruct parts as [|a [|b [|c parts]]]; cbn in H; try lia; reflexivity.
Qed.

(** ** Biases.get on a sampler of one table *)

Section OneTable.

Variables (self : Biases.t) (deg_rate : nat -> Q).

(** Past the last table the loop of [get] stops. *)
Lemma get_loop_past_tables (i : nat) (rcond hist : list value)
    (probs : Biases.probs_t) (total : Q) :
  (length (Biases.biases self) <= i)%nat -> i <> 0%nat ->
  Biases.get_loop self deg_rate i rcond hist probs total = Return probs.
Proof.
  intros Hlen Hi. destruct rcond as [|e rest]; [reflexivity|].
  cbn [Biases.get_loop].
  destruct (Nat.eqb_spec i 0) as [->|_]; [congruence|]. cbn [bind].
  destruct (Nat.leb_spec (length (Biases.biases self)) i); [reflexivity|lia].
Qed.

Lemma get_probs_forgets (older : list value) (e : value) :
  length (Biases.biases self) = 1%nat ->
  Biases.get_probs self deg_rate (older ++ [e])
  = Biases.get_probs self deg_rate [e].
Proof.
  intros Hlen. unfold Biases.get_probs. rewrite rev_app_distr.
  cbn [rev app Biases.get_loop Nat.eqb].
  destruct (index (Biases.biases self) 0) as [t0|]; [|reflexivity].
  cbn [bind].
  destruct (lookup t0 e) as [r|].
  - destruct (Biases.normalized r (sum (values r))) as [its|];
      [|reflexivity].
    cbn [bind]. rewrite !get_loop_past_tables by lia. reflexivity.
  - destruct (length (Biases.biases self) <=? 0)%nat; [reflexivity|].
    destruct (lookup t0 (Tup [e])) as [r|].
    + destruct (Biases.scale_all _ _ _) as [p1|]; [|reflexivity].
      cbn [bind].
      destruct (Biases.blend _ _ _ _ _) as [p2|]; [|reflexivity].
      cbn [bind]. rewrite !get_loop_past_tables by lia. reflexivity.
    + rewrite !get_loop_past_tables by lia. reflexivity.
Qed.

End OneTable.

(** X26: on a sampler of one table, as [Biases.__init__] builds it, [get]
    looks at the most recent element of the history only: the elements
    before it change neither the result nor the error. *)
Theorem get_forgets_on_one_table (rnd : nat -> Q) (n : nat) (self : Biases.t)
    (deg_rate : nat -> Q) (older : list value) (e : value)
    (H : length (Biases.biases self) = 1%nat) :
  Biases.get rnd n self deg_rate (older ++ [e])
  = Biases.get rnd n self deg_rate [e].
Proof.
  unfold Biases.get. now rewrite get_probs_forgets.
Qed.

Lemma get_forgets_on_one_table_witness :
  let self := Biases.__init__
                (Some [(S_ "a", [(S_ "x", 1%Q); (S_ "y", 3%Q)])]) in
  length (Biases.biases self) = 1%nat
  /\ Biases.get (fun _ => 1 # 2) 0 self Biases.deg_rate_default
       [S_ "b"; S_ "c"; S_ "a"]
     = Biases.get (fun _ => 1 # 2) 0 self Biases.deg_rate_default [S_ "a"].
Proof.
  intros self. split; [reflexivity|].
  exact (get_forgets_on_one_table (fun _ => 1 # 2) 0 self
           Biases.deg_rate_default [S_ "b"; S_ "c"] (S_ "a") eq_refl).
Defined.

(** X27: on a sampler of one table, [get] raises [IndexError] when the
    most recent element of the history has no row, neither as it is nor
    as a one-element tuple: nothing is left to choose from. *)
Theorem get_without_row_raises (rnd : nat -> Q) (n : nat) (t0 : Biases.table)
    (deg_rate : nat -> Q) (older : list value) (e : value)
    (He : lookup t0 e = None) (Ht : lookup t0 (Tup [e]) = None) :
  Biases.get rnd n {| Biases.biases := [t0] |} deg_rate (older ++ [e])
  = Raise IndexError.
Proof.
  unfold Biases.get. rewrite get_probs_forgets by reflexivity.
  unfold Biases.get_probs.
  cbn [rev app Biases.get_loop Nat.eqb Biases.biases index nth_error bind
       length Nat.leb].
  rewrite He. cbn [bind]. rewrite Ht. reflexivity.
Qed.

Lemma get_without_row_raises_witness :
  let t0 := [(S_ "a", [(S_ "x", 1%Q)])] in
  lookup t0 (S_ "b") = None /\ lookup t0 (Tup [S_ "b"]) = None
  /\ Biases.get (fun _ => 0%Q) 0 {| Biases.biases := [t0] |}
       Biases.deg_rate_default [S_ "a"; S_ "b"]
     = Raise IndexError.
Proof.
  intros t0. split; [reflexivity|]. split; [reflexivity|].
  exact (get_without_row_raises (fun _ => 0%Q) 0 t0 Biases.deg_rate_default
           [S_ "a"] (S_ "b") eq_refl eq_refl).
Defined.

(** ** Progression.from_biases *)

Section FromBiases.

Variables (rnd : nat -> Q) (biases : Biases.t) (min_len : Z)
          (force_end : list value) (deg_rate : nat -> Q).

Lemma from_biases_loop_spec (fuel : nat) :
  forall res0 draws res,
    Progression.from_biases_loop fuel rnd biases min_len force_end deg_rate
      res0 draws = Some (Return res) ->
    exists more,
      more <> [] /\ res = res0 ++ more
      /\ stops min_len force_end res = true
      /\ forall k, (0 < k < length more)%nat ->
                   stops min_len force_end (res0 ++ firstn k more) = false.
Proof.
  induction fuel as [|fuel IH]; intros res0 draws res H; [discriminate|].
  cbn [Progression.from_biases_loop] in H.
  destruct (Biases.get rnd draws biases deg_rate res0) as [[c draws']|];
    [|discriminate].
  cbn [bind_fuel fst snd] in H.
  fold (stops min_len force_end (res0 ++ [c])) in H.
  destruct (stops min_len force_end (res0 ++ [c])) eqn:Es.
  - injection H as <-. exists [c].
    repeat split; [discriminate|exact Es|]. cbn. intros k Hk. lia.
  - apply IH in H. destruct H as (more & Hne & -> & Hs & Hmin).
    exists (c :: more). rewrite <- app_assoc in *. cbn [app] in *.
    repeat split; [discriminate|exact Hs|].
    intros [|[|k]] Hk; cbn [length] in Hk; [lia| |].
    + cbn [firstn]. exact Es.
    + specialize (Hmin (S k) ltac:(lia)).
      cbn [firstn] in *. rewrite <- app_assoc in Hmin. exact Hmin.
Qed.

End FromBiases.

(** X28: the list that [from_biases] hands to [Progression] is [first]
    followed by at least one drawn chord; it is at least [min_len] long
    and ends with [force_end], and it is the shortest such extension: the
    loop went on after every earlier chord. *)
Theorem from_biases_stops_at_first_end (fuel : nat) (rnd : nat -> Q)
    (biases : Biases.t) (first : list value) (min_len : Z)
    (force_end : list value) (deg_rate : nat -> Q) (res : list value)
    (H : Progression.from_biases fuel rnd biases first min_len force_end
           deg_rate = Some (Return res)) :
  exists more,
    more <> [] /\ res = first ++ more
    /\ stops min_len force_end res = true
    /\ forall k, (0 < k < length more)%nat ->
                 stops min_len force_end (first ++ firstn k more) = false.
Proof.
  exact (from_biases_loop_spec rnd biases min_len force_end deg_rate fuel
           first 0%nat res H).
Qed.

Lemma from_biases_stops_at_first_end_witness :
  let biases := Biases.__init__
                  (Some [(S_ "I", [(S_ "V", 1%Q)]);
                         (S_ "V", [(S_ "I", 1%Q)])]) in
  let res := [S_ "I"; S_ "V"; S_ "I"; S_ "V"; S_ "I"] in
  Progression.from_biases 10 (fun _ => 0%Q) biases [S_ "I"] 4
    [S_ "V"; S_ "I"] Biases.deg_rate_default = Some (Return res)
  /\ exists more,
       more <> [] /\ res = [S_ "I"] ++ more
       /\ stops 4 [S_ "V"; S_ "I"] res = true
       /\ forall k, (0 < k < length more)%nat ->
                    stops 4 [S_ "V"; S_ "I"] ([S_ "I"] ++ firstn k more)
                    = false.
Proof.
  intros biases res.
  assert (Progression.from_biases 10 (fun _ => 0%Q) biases [S_ "I"] 4
            [S_ "V"; S_ "I"] Biases.deg_rate_default = Some (Return res))
    as H by (vm_compute; reflexivity).
  split; [exact H|].
  exact (from_biases_stops_at_first_end 10 (fun _ => 0%Q) biases [S_ "I"] 4
           [S_ "V"; S_ "I"] Biases.deg_rate_default res H).
Defined.

(** ** Part.transpose, Part.copy *)

Section Transposed.

Lemma fold_left_min_shift (rest : list Z) (x interval : Z) :
  fold_left Z.min (map (fun n => n + interval) rest) (x + interval)
  = fold_left Z.min rest x + interval.
Proof.
  revert x. induction rest as [|y rest IH]; intros x; [reflexivity|].
  cbn [map fold_left]. rewrite <- IH. f_equal. lia.
Qed.

Lemma fold_left_max_shift (rest : list Z) (x interval : Z) :
  fold_left Z.max (map (fun n => n + interval) rest) (x + interval)
  = fold_left Z.max rest x + interval.
Proof.
  revert x. induction rest as [|y rest IH]; intros x; [reflexivity|].
  cbn [map fold_left]. rewrite <- IH. f_equal. lia.
Qed.

End Transposed.

(** X29: transposing twice is transposing by the sum of the intervals;
    and [transpose] moves the notes only: on a part made from a pitch
    list, the part made from the transposed notes has its [min_note] and
    [max_note] moved by the interval, while the transposed part keeps the
    old ones. *)
Theorem transpose_moves_the_notes_only (notes : list Z) (ry : list ascii)
    (cl : list value) (p : Part.t Z) (a b : Z)
    (H : Part.__init__ notes ry cl = Return p) :
  Part.transpose (Part.transpose p a) b = Part.transpose p (a + b)
  /\ Part.min_note (Part.transpose p a) = Part.min_note p
  /\ Part.max_note (Part.transpose p a) = Part.max_note p
  /\ exists q,
       Part.__init__ (Part.notes (Part.transpose p a)) ry cl = Return q
       /\ (notes <> [] ->
           Part.min_note q = Part.min_note p + a
           /\ Part.max_note q = Part.max_note p + a).
Proof.
  split; [|split; [reflexivity|split; [reflexivity|]]].
  - unfold Part.transpose. cbn [Part.notes Part.rhythms Part.chd_lens
                                Part.min_note Part.max_note].
    f_equal. rewrite map_map. apply map_ext. intros n. lia.
  - unfold Part.__init__ in *.
    destruct (match cl with [] => _ | _ :: _ => _ end) as [c|];
      [|discriminate].
    cbn [bind] in *. injection H as <-. eexists. split; [reflexivity|].
    intros Hn. cbn [Part.transpose Part.notes Part.min_note Part.max_note].
    destruct notes as [|x rest]; [congruence|]. cbn [map].
    now rewrite fold_left_min_shift, fold_left_max_shift.
Qed.

Lemma transpose_moves_the_notes_only_witness :
  exists p,
    Part.__init__ [1; 5; 3] (tokens "qqh") [] = Return p
    /\ Part.max_note (Part.transpose p 2) = 5
    /\ Part.notes (Part.transpose (Part.transpose p 2) 3) = [6; 10; 8]
    /\ Part.transpose (Part.transpose p 2) 3 = Part.transpose p (2 + 3).
Proof.
  eexists. split; [reflexivity|]. split; [reflexivity|].
  split; [reflexivity|].
  exact (proj1 (transpose_moves_the_notes_only [1; 5; 3] (tokens "qqh") []
                  _ 2 3 eq_refl)).
Defined.

(** X30: [copy] fails exactly when the rhythm holds an unknown token;
    otherwise the copy has the notes and the rhythm of the part, and
    copying the copy gives the copy again. *)
Theorem copy_rebuilds_the_part (self : Part.t Z) :
  match Part.copy self with
  | Return q => Part.notes q = Part.notes self
                /\ Part.rhythms q = Part.rhythms self
                /\ Part.copy q = Return q
  | Raise e => duration (Part.rhythms self) = Raise e
  end.
Proof.
  unfold Part.copy, Part.__init__.
  destruct (duration (Part.rhythms self)) as [d|e] eqn:Ed; cbn [bind].
  - cbn [Part.notes Part.rhythms]. rewrite Ed. cbn [bind].
    repeat split.
  - reflexivity.
Qed.
